(** * instah: scraper pipeline, document extractors, snapshot store, dedup queue

    A shallow embedding of the JavaScript sources
      - backend/scraper/parseSnapshots.js  (parseProfileSnapshot, parseProcessingSnapshot)
      - backend/scraper/scrape.js          (scrape, captureStep)
      - backend/utils/mongodb.js           (saveSnapshotStep, getRecentSnapshot, ...)
      - backend/utils/queue.js             (ScrapeQueue.enqueue)
      - backend/server.js                  (the cache branch of GET /api/stalkers)
      - frontend/src/utils/parseFullReport.js (parseFullReport)
    and the properties of them that the specification states.

    JavaScript strings are modelled as [string]; a character is one code unit
    in the range U+0000..U+00FF.  Regular expressions of the source are
    embedded as the scanning functions they denote (leftmost match, greedy or
    lazy quantifiers as written). *)

From Stdlib Require Import Ascii String ZArith Lia Bool Sorted.
From stdpp Require Import base strings list gmap pretty.
From Equations Require Import Equations.

Set Warnings "-register-all,-clear-no-such-hyp,-abstract-large-number".

Local Open Scope Z_scope.
Local Open Scope nat_scope.

(* ===================================================================== *)
(** ** JavaScript string primitives *)
(* ===================================================================== *)

Module Js.

Definition quote : ascii := "034"%char.
Definition apostrophe : ascii := "'"%char.

Definition code (c : ascii) : nat := nat_of_ascii c.

(** White space of [String.prototype.trim] and of the class [\s]. *)
Definition isSpace (c : ascii) : bool :=
  match code c with
  | 9 | 10 | 11 | 12 | 13 | 32 | 160 => true
  | _ => false
  end.

(** Line terminators: what [.] does not match. *)
Definition isLineTerm (c : ascii) : bool :=
  match code c with
  | 10 | 13 => true
  | _ => false
  end.

Definition isDigit (c : ascii) : bool := (48 <=? code c) && (code c <=? 57).
Definition isUpper (c : ascii) : bool := (65 <=? code c) && (code c <=? 90).
Definition isLower (c : ascii) : bool := (97 <=? code c) && (code c <=? 122).
(** The class [\w]. *)
Definition isWord (c : ascii) : bool :=
  isDigit c || isUpper c || isLower c || (code c =? 95).
Definition isQuote (c : ascii) : bool := (code c =? 34) || (code c =? 39).

(** Case folding of the [i] flag on the letters A-Z. *)
Definition lower (c : ascii) : ascii :=
  if isUpper c then ascii_of_nat (code c + 32) else c.
Definition ciEqb (a b : ascii) : bool := Ascii.eqb (lower a) (lower b).

Definition isEmpty (s : string) : bool :=
  match s with EmptyString => true | _ => false end.

(** [stripPrefix p s] is the rest of [s] behind the prefix [p]. *)
Fixpoint stripPrefix (p s : string) : option string :=
  match p, s with
  | EmptyString, _ => Some s
  | String a p', String b s' => if Ascii.eqb a b then stripPrefix p' s' else None
  | String _ _, EmptyString => None
  end.

(** The same under the [i] flag. *)
Fixpoint stripPrefixCi (p s : string) : option string :=
  match p, s with
  | EmptyString, _ => Some s
  | String a p', String b s' => if ciEqb a b then stripPrefixCi p' s' else None
  | String _ _, EmptyString => None
  end.

Definition startsWith (p s : string) : bool := bool_decide (is_Some (stripPrefix p s)).
Definition startsWithCi (p s : string) : bool := bool_decide (is_Some (stripPrefixCi p s)).

(** [s.includes(p)] *)
Fixpoint includes (p s : string) : bool :=
  startsWith p s ||
  match s with
  | EmptyString => false
  | String _ s' => includes p s'
  end.

Fixpoint includesCi (p s : string) : bool :=
  startsWithCi p s ||
  match s with
  | EmptyString => false
  | String _ s' => includesCi p s'
  end.

(** Equality of whole strings under the [i] flag. *)
Fixpoint eqCi (p s : string) : bool :=
  match p, s with
  | EmptyString, EmptyString => true
  | String a p', String b s' => ciEqb a b && eqCi p' s'
  | _, _ => false
  end.

Fixpoint trimStart (s : string) : string :=
  match s with
  | EmptyString => EmptyString
  | String c s' => if isSpace c then trimStart s' else s
  end.

Fixpoint trimEnd (s : string) : string :=
  match s with
  | EmptyString => EmptyString
  | String c s' =>
      let r := trimEnd s' in
      if isSpace c && isEmpty r then EmptyString else String c r
  end.

Definition trim (s : string) : string := trimEnd (trimStart s).

(** The longest prefix of characters in a class, and what follows it:
    a greedy [c*] that is followed by something outside the class. *)
Fixpoint span (p : ascii -> bool) (s : string) : string * string :=
  match s with
  | EmptyString => (EmptyString, EmptyString)
  | String c s' =>
      if p c then let '(a, b) := span p s' in (String c a, b)
      else (EmptyString, s)
  end.

(** The leftmost position of [s] at which [f] succeeds. *)
Fixpoint findFirst {A} (f : string -> option A) (s : string) : option A :=
  match f s with
  | Some a => Some a
  | None =>
      match s with
      | EmptyString => None
      | String _ s' => findFirst f s'
      end
  end.

(** [arr.join(sep)] *)
Fixpoint join (sep : string) (l : list string) : string :=
  match l with
  | [] => EmptyString
  | [x] => x
  | x :: l' => x +:+ sep +:+ join sep l'
  end.

(** [s.replace(/lit/g, by)] for a literal, non-empty pattern. *)
Fixpoint replaceAllFuel (fuel : nat) (lit by_ s : string) : string :=
  match fuel with
  | 0 => s
  | S fuel' =>
      match stripPrefix lit s with
      | Some rest =>
          if isEmpty lit then s else by_ +:+ replaceAllFuel fuel' lit by_ rest
      | None =>
          match s with
          | EmptyString => EmptyString
          | String c s' => String c (replaceAllFuel fuel' lit by_ s')
          end
      end
  end.
Definition replaceAll (lit by_ s : string) : string :=
  replaceAllFuel (S (String.length s)) lit by_ s.

End Js.

(* ===================================================================== *)
(** ** The document: what JSDOM / DOMParser hand to the extractors *)
(* ===================================================================== *)

Module Dom.

(** Node types 3 (text), 8 (comment) and 1 (element).  Tag and attribute
    names are lower case, as the HTML parser leaves them. *)
Inductive node :=
| Text (data : string)
| Comment (data : string)
| Elem (tag : string) (attrs : list (string * string)) (children : list node).

Definition nodeType (n : node) : nat :=
  match n with Text _ => 3 | Comment _ => 8 | Elem _ _ _ => 1 end.

Definition childNodes (n : node) : list node :=
  match n with Elem _ _ cs => cs | _ => [] end.

Definition tagName (n : node) : string :=
  match n with Elem t _ _ => t | _ => EmptyString end.

(** [node.textContent]: the data of a text or comment node; for an
    element the text of all its descendant text nodes, in order. *)
Fixpoint descendantText (n : node) : string :=
  match n with
  | Text s => s
  | Comment _ => EmptyString
  | Elem _ _ cs =>
      (fix go (l : list node) : string :=
         match l with
         | [] => EmptyString
         | c :: l' => descendantText c +:+ go l'
         end) cs
  end.

Definition textContent (n : node) : string :=
  match n with
  | Comment s => s
  | _ => descendantText n
  end.

(** The elements of the tree below and including [n], in document order. *)
Fixpoint elements (n : node) : list node :=
  match n with
  | Elem _ _ cs =>
      n :: (fix go (l : list node) : list node :=
              match l with
              | [] => []
              | c :: l' => elements c ++ go l'
              end) cs
  | _ => []
  end.

Fixpoint lookupAttr (name : string) (attrs : list (string * string)) : option string :=
  match attrs with
  | [] => None
  | (k, v) :: attrs' => if String.eqb k name then Some v else lookupAttr name attrs'
  end.

(** [el.getAttribute(name)], [None] for JavaScript's [null]. *)
Definition getAttribute (name : string) (n : node) : option string :=
  match n with
  | Elem _ attrs _ => lookupAttr name attrs
  | _ => None
  end.

Definition hasTag (tags : list string) (n : node) : bool :=
  existsb (String.eqb (tagName n)) tags.

(** [doc.querySelectorAll(sel)] for a selector given as a predicate. *)
Definition querySelectorAll (sel : node -> bool) (doc : node) : list node :=
  List.filter sel (elements doc).

(** [doc.querySelector(sel)] *)
Definition querySelector (sel : node -> bool) (doc : node) : option node :=
  head (querySelectorAll sel doc).

(** The selector [[name]]. *)
Definition selHasAttr (name : string) (n : node) : bool :=
  bool_decide (is_Some (getAttribute name n)).

(** The selector [[name*='v']]. *)
Definition selAttrContains (name v : string) (n : node) : bool :=
  match getAttribute name n with
  | Some a => Js.includes v a
  | None => false
  end.

End Dom.

(* ===================================================================== *)
(** ** parseSnapshots.js *)
(* ===================================================================== *)

Module ParseSnapshots.
Import Js Dom.

(** *** extractAvatar *)

(** The lazy [(.+?)] followed by [close]: the shortest non-empty run
    without a line terminator after which [close] stands. *)
Fixpoint lazyBody (close s : string) : option string :=
  match s with
  | EmptyString => None
  | String c s' =>
      if isLineTerm c then None
      else if startsWith close s' then Some (String c EmptyString)
      else option_map (String c) (lazyBody close s')
  end.

(** The pattern url, open parenthesis, an optional quote (group 1), a lazy
    non-empty body (group 2), group 1 again, close parenthesis, under
    the [i] flag and anchored at the head of [s]; the result is group 2.
    The optional quote is tried first and given up when no match closes
    with the same quote. *)
Definition matchUrlAt (s : string) : option string :=
  match stripPrefixCi "url(" s with
  | None => None
  | Some r =>
      match r with
      | String q r' =>
          if isQuote q then
            match lazyBody (String q ")") r' with
            | Some b => Some b
            | None => lazyBody ")" r
            end
          else lazyBody ")" r
      | EmptyString => None
      end
  end.

Definition selStyled : node -> bool := selHasAttr "style".

Definition extractAvatar (doc : node) : option string :=
  let styledNode :=
    List.find (fun n => includesCi "background-image" (default EmptyString (getAttribute "style" n)))
              (querySelectorAll selStyled doc) in
  let fromStyle :=
    match styledNode with
    | Some n =>
        match findFirst matchUrlAt (default EmptyString (getAttribute "style" n)) with
        | Some g => Some (trim g)
        | None => None
        end
    | None => None
    end in
  match fromStyle with
  | Some a => Some a
  | None =>
      match querySelector (fun n => hasTag ["img"] n && selHasAttr "src" n) doc with
      | Some img => getAttribute "src" img
      | None => None
      end
  end.

(** *** The username candidates and their order *)

(** [len || Infinity]: a length, or [None] for Infinity. *)
Definition lenOrInfinity (s : string) : option nat :=
  match String.length s with
  | 0 => None
  | n => Some n
  end.

(** The sign of [ka - kb]; Infinity - Infinity is NaN, which the sort
    takes for equal. *)
Definition compareKeys (ka kb : option nat) : comparison :=
  match ka, kb with
  | Some x, Some y => Nat.compare x y
  | Some _, None => Lt
  | None, Some _ => Gt
  | None, None => Eq
  end.

Definition trimmedText (n : node) : string := trim (textContent n).

Definition compareNodes (a b : node) : comparison :=
  compareKeys (lenOrInfinity (trimmedText a)) (lenOrInfinity (trimmedText b)).

(** [Array.prototype.sort] is stable: an element moves behind the
    elements that compare smaller, and stays ahead of its equals. *)
Fixpoint insertSorted {A} (cmp : A -> A -> comparison) (x : A) (l : list A) : list A :=
  match l with
  | [] => [x]
  | y :: l' =>
      match cmp x y with
      | Gt => y :: insertSorted cmp x l'
      | _ => x :: l
      end
  end.

Fixpoint sortBy {A} (cmp : A -> A -> comparison) (l : list A) : list A :=
  match l with
  | [] => []
  | x :: l' => insertSorted cmp x (sortBy cmp l')
  end.

Definition isHandleText (n : node) : bool := startsWith "@" (trimmedText n).

Definition usernameCandidates (doc : node) : list node :=
  List.filter isHandleText (querySelectorAll (hasTag ["span"; "div"; "p"]) doc).

Definition usernameNodes (doc : node) : list node :=
  sortBy compareNodes (usernameCandidates doc).

(** *** The username cleanup *)

Definition stoplist : list string :=
  ["Hello"; "Is"; "Continue"; "the"; "profile"; "correct"; "No"; "want"; "correct"; "it"].

(** [/^(@[\w_]+)/i]: group 1. *)
Definition matchHandle (rawText : string) : option string :=
  match rawText with
  | String c r =>
      if Ascii.eqb c "@" then
        let '(run, _) := span isWord r in
        if isEmpty run then None else Some (String c run)
      else None
  | EmptyString => None
  end.

(** [s.replace(/(Hello|Is|...|it)$/i, '')]: the leftmost position from
    which the rest of [s] is a word of the stoplist; the rest is cut. *)
Fixpoint replaceStopSuffix (s : string) : string :=
  if existsb (fun w => eqCi w s) stoplist then EmptyString
  else match s with
       | EmptyString => EmptyString
       | String c s' => String c (replaceStopSuffix s')
       end.

(** [s.split(/(Hello|Is|...|it)/i)[0]]: what stands before the leftmost
    occurrence of a word of the stoplist. *)
Fixpoint beforeStop (s : string) : string :=
  if existsb (fun w => startsWithCi w s) stoplist then EmptyString
  else match s with
       | EmptyString => EmptyString
       | String c s' => String c (beforeStop s')
       end.

Definition cleanUsername (usernameNode : option node) : string :=
  match usernameNode with
  | None => EmptyString
  | Some n =>
      let rawText := trimmedText n in
      match matchHandle rawText with
      | Some h =>
          let cleaned := replaceStopSuffix h in
          if startsWith "@" cleaned then cleaned else h
      | None =>
          if startsWith "@" rawText then beforeStop rawText else EmptyString
      end
  end.

(** *** The progress bar *)

(** [/width:\s*CLASS+%/i] anchored at the head of [s]; the result is the
    run of the class. *)
Definition matchWidthAt (cls : ascii -> bool) (s : string) : option string :=
  match stripPrefixCi "width:" s with
  | None => None
  | Some r =>
      let '(_, r1) := span isSpace r in
      let '(run, r2) := span cls r1 in
      if isEmpty run then None
      else if startsWith "%" r2 then Some run else None
  end.

(** A JavaScript number: a literal of the source, or [Number(s)] of a
    matched text. *)
Inductive jsnum :=
| NumLit (z : Z)
| NumberOf (s : string).

Definition progressNode (doc : node) : option node :=
  List.find (fun n => bool_decide (is_Some
               (findFirst (matchWidthAt isDigit) (default EmptyString (getAttribute "style" n)))))
            (querySelectorAll selStyled doc).

Definition progressPercentOf (doc : node) : jsnum :=
  match progressNode doc with
  | Some n =>
      match findFirst (matchWidthAt (fun c => isDigit c || Ascii.eqb c "."))
                      (default EmptyString (getAttribute "style" n)) with
      | Some g => NumberOf g
      | None => NumLit 55
      end
  | None => NumLit 55
  end.

(** *** parseProfileSnapshot *)

Record ProfileRecord := {
  avatar : option string;
  progressPercent : jsnum;
  username : string;
  greeting : string;
  question : string;
  primaryCta : string;
  secondaryCta : string;
}.

(** [x || d] on strings: the empty string is falsy. *)
Definition orElse (x : option string) (d : string) : string :=
  match x with
  | Some s => if isEmpty s then d else s
  | None => d
  end.

Definition nonEmpty (x : option string) : option string :=
  match x with
  | Some s => if isEmpty s then None else Some s
  | None => None
  end.

Definition greetingNode (doc : node) : option node :=
  querySelector (hasTag ["h1"; "h2"]) doc.

Definition questionNode (doc : node) : option node :=
  List.find (fun n => includesCi "profile" (trimmedText n))
            (querySelectorAll (hasTag ["p"; "span"]) doc).

Definition buttons (doc : node) : list node :=
  querySelectorAll (hasTag ["button"]) doc.

Definition parseProfileDocument (doc : node) : ProfileRecord :=
  {| avatar := nonEmpty (extractAvatar doc);
     progressPercent := progressPercentOf doc;
     username := cleanUsername (head (usernameNodes doc));
     greeting := trim (orElse (textContent <$> greetingNode doc) "Hello");
     question := trim (orElse (textContent <$> questionNode doc) "Is this your profile?");
     primaryCta :=
       trim (orElse (textContent <$> buttons doc !! 0) "Continue, the profile is correct");
     secondaryCta :=
       trim (orElse (textContent <$> buttons doc !! 1) "No, I want to correct it") |}.

(** *** parseProcessingSnapshot: the bullets *)

Definition keywords : list string :=
  ["mentions"; "detected"; "visited"; "people"; "screenshot"; "region"; "profile";
   "times"; "yesterday"; "shared"; "stories"; "messages"; "followers"].

(** A digit before the end of the line: what [.*\d+] needs. *)
Fixpoint digitOnLine (s : string) : bool :=
  match s with
  | EmptyString => false
  | String c s' => if isLineTerm c then false else isDigit c || digitOnLine s'
  end.

(** The last alternative of the allowlist, [found.*\d+], at the head of [s]. *)
Definition matchFoundAt (s : string) : option unit :=
  match stripPrefixCi "found" s with
  | Some r => if digitOnLine r then Some tt else None
  | None => None
  end.

(** [/mentions|detected|...|followers|found.*\d+/i.test(text)] *)
Definition keywordTest (text : string) : bool :=
  existsb (fun w => includesCi w text) keywords
  || bool_decide (is_Some (findFirst matchFoundAt text)).

(** The text of the text nodes that are children of [li], each trimmed,
    joined by a space, trimmed. *)
Definition directText (li : node) : string :=
  trim (join " " (map (fun n => trim (textContent n))
                      (List.filter (fun n => nodeType n =? 3) (childNodes li)))).

(** The body of the [forEach] over the list items: the text pushed for
    [li], if any. *)
Definition liBullet (li : node) : option string :=
  let direct := directText li in
  if negb (isEmpty direct) && (20 <? String.length direct) then
    let nestedText := trim (textContent li) in
    let text := if String.length nestedText <? 200 then nestedText else direct in
    if negb (isEmpty text) && keywordTest text then Some text else None
  else None.

(** The body of the [forEach] over the paragraphs. *)
Definition pBullet (p : node) : option string :=
  let text := trim (textContent p) in
  if (20 <? String.length text) && (String.length text <? 200) && keywordTest text
  then Some text else None.

Definition listItems (doc : node) : list node := querySelectorAll (hasTag ["li"]) doc.
Definition paragraphs (doc : node) : list node := querySelectorAll (hasTag ["p"]) doc.

(** [bullets] when both loops are done. *)
Definition collectBullets (doc : node) : list string :=
  let fromItems := omap liBullet (listItems doc) in
  if length fromItems =? 0 then omap pBullet (paragraphs doc) else fromItems.

(** [arr.indexOf(x)], [None] for -1. *)
Fixpoint indexOf (x : string) (arr : list string) : option nat :=
  match arr with
  | [] => None
  | y :: arr' => if String.eqb y x then Some 0 else S <$> indexOf x arr'
  end.

(** [arr.filter((text, index, arr) => arr.indexOf(text) === index)] *)
Definition firstOccurrences (arr : list string) : list string :=
  omap (fun '(index, text) =>
          if bool_decide (indexOf text arr = Some index) then Some text else None)
       (imap pair arr).

Definition uniqueBullets (bullets : list string) : list string :=
  List.filter (fun text => String.length text <? 200) (firstOccurrences bullets).

Record ProcessingRecord := {
  procAvatar : option string;
  title : string;
  subtitle : string;
  bullets : list string;
}.

Definition parseProcessingDocument (doc : node) : ProcessingRecord :=
  {| procAvatar := nonEmpty (extractAvatar doc);
     title := orElse (trimmedText <$> querySelector (hasTag ["h1"; "h2"]) doc)
                     "Processing data";
     subtitle := orElse (trimmedText <$> querySelector (hasTag ["p"]) doc)
                        "Our robots are analyzing the behavior of your followers";
     bullets := uniqueBullets (collectBullets doc) |}.

Section WithFile.
(** [readFile(htmlPath, "utf8")] fails or yields the markup; [parse] is
    [new JSDOM(html).window.document]. *)
Variable parse : string -> node.

(** [None] is the [null] of the catch branch. *)
Definition parseProfileSnapshot (file : option string) : option ProfileRecord :=
  match file with
  | Some html => Some (parseProfileDocument (parse html))
  | None => None
  end.

Definition parseProcessingSnapshot (file : option string) : option ProcessingRecord :=
  match file with
  | Some html => Some (parseProcessingDocument (parse html))
  | None => None
  end.
End WithFile.

End ParseSnapshots.

(* ===================================================================== *)
(** ** parseFullReport.js: the avatar of the full report *)
(* ===================================================================== *)

Module ParseFullReport.
Import Js Dom.

(** The first [n] characters of [s]. *)
Fixpoint takeS (n : nat) (s : string) : string :=
  match n, s with
  | S n', String c s' => String c (takeS n' s')
  | _, _ => EmptyString
  end.

(** What a match that leaves [rest] of [s] has consumed. *)
Definition consumed (s rest : string) : string :=
  takeS (String.length s - String.length rest) s.

(** [s.replace(re, by)] without the [g] flag, for a pattern given by
    what it leaves behind when it matches at the head. *)
Fixpoint replaceFirst (re : string -> option string) (by_ s : string) : string :=
  match re s with
  | Some rest => by_ +:+ rest
  | None =>
      match s with
      | EmptyString => EmptyString
      | String c s' => String c (replaceFirst re by_ s')
      end
  end.

(** [s.replace(/^C/, '')] for a class [C] of one character. *)
Definition dropFirstIf (p : ascii -> bool) (s : string) : string :=
  match s with
  | String c s' => if p c then s' else s
  | EmptyString => EmptyString
  end.

(** [s.replace(/C$/, '')] *)
Fixpoint dropLastIf (p : ascii -> bool) (s : string) : string :=
  match s with
  | EmptyString => EmptyString
  | String c EmptyString => if p c then EmptyString else s
  | String c s' => String c (dropLastIf p s')
  end.

Definition isCloseParen (c : ascii) : bool := Ascii.eqb c ")".
Definition notCloseParen (c : ascii) : bool := negb (isCloseParen c).
(** The class of every character but the two quotes and the closing parenthesis. *)
Definition urlBodyChar (c : ascii) : bool := negb (isQuote c || isCloseParen c).
(** The class of the optional last character of patterns 1 and 2. *)
Definition quoteOrParen (c : ascii) : bool := isQuote c || isCloseParen c.
Definition notAmp (c : ascii) : bool := negb (Ascii.eqb c "&").
Definition notSemicolon (c : ascii) : bool := negb (Ascii.eqb c ";").
(** [[A-Za-z0-9+/=]] *)
Definition isBase64 (c : ascii) : bool :=
  isUpper c || isLower c || isDigit c
  || Ascii.eqb c "+" || Ascii.eqb c "/" || Ascii.eqb c "=".

Definition minLength : nat := 200.
Definition largeLength : nat := 500.

(** The test both style methods put on a candidate. *)
Definition completeBase64 (u : string) : bool :=
  startsWith "data:image" u && includes "base64," u && (minLength <? String.length u).

(** *** Method 1 *)

(** [/background-image:\s*url\(/] at the head of [s]: what it leaves. *)
Definition bgOpenAt (s : string) : option string :=
  match stripPrefix "background-image:" s with
  | Some r => let '(_, r1) := span isSpace r in stripPrefix "url(" r1
  | None => None
  end.

(** [/background-image:\s*url\([^)]+\)/] at the head of [s]: match[0]. *)
Definition bgMatchAt (s : string) : option string :=
  match bgOpenAt s with
  | Some r =>
      let '(run, r2) := span notCloseParen r in
      if isEmpty run then None
      else match stripPrefix ")" r2 with
           | Some rest => Some (consumed s rest)
           | None => None
           end
  | None => None
  end.

Definition quot : string := "&quot;".

Definition urlContentOf (bgMatch0 : string) : string :=
  trim
    (replaceAll "&amp;" "&"
       (replaceAll quot (String quote EmptyString)
          (dropLastIf isQuote
             (dropFirstIf isQuote
                (dropLastIf isCloseParen
                   (replaceFirst bgOpenAt EmptyString bgMatch0)))))).

(** The body of the loop over the class-hinted containers. *)
Definition roundedFullAvatar (div : node) : option string :=
  let style := default EmptyString (getAttribute "style" div) in
  if includes "background-image" style && includes "data:image" style then
    match findFirst bgMatchAt style with
    | Some m =>
        let urlContent := urlContentOf m in
        if completeBase64 urlContent then Some urlContent else None
    | None => None
    end
  else None.

(** The first element of [l] on which [f] succeeds: a [for] loop left
    by [break]. *)
Fixpoint firstSome {A B} (f : A -> option B) (l : list A) : option B :=
  match l with
  | [] => None
  | x :: l' =>
      match f x with
      | Some b => Some b
      | None => firstSome f l'
      end
  end.

Definition selRoundedFull (n : node) : bool :=
  hasTag ["div"] n && selAttrContains "class" "rounded-full" n.

Definition method1 (doc : node) : option string :=
  firstSome roundedFullAvatar (querySelectorAll selRoundedFull doc).

(** *** Method 2 *)

(** An optional character of the class [p] at the head. *)
Definition optChar (p : ascii -> bool) (s : string) : string := dropFirstIf p s.

(** An optional literal at the head. *)
Definition optLit (lit s : string) : string := default s (stripPrefix lit s).

(** [lit] and a non-empty run of the class [cls] at the head of [s]:
    the text of both. *)
Definition litRunAt (lit : string) (cls : ascii -> bool) (s : string)
  : option (string * string) :=
  match stripPrefix lit s with
  | Some r =>
      let '(run, rest) := span cls r in
      if isEmpty run then None else Some (lit +:+ run, rest)
  | None => None
  end.

(** Pattern 1: url, parenthesis, optional quote, optional entity (group 1),
    then group 2, the image data up to a quote or parenthesis. *)
Definition pattern1At (s : string) : option string :=
  match stripPrefix "url(" s with
  | Some r => fst <$> litRunAt "data:image/" urlBodyChar (optLit quot (optChar isQuote r))
  | None => None
  end.

(** Pattern 2: the property name, url, parenthesis, optional quote, then
    group 1. *)
Definition pattern2At (s : string) : option string :=
  match bgOpenAt s with
  | Some r => fst <$> litRunAt "data:image" urlBodyChar (optChar isQuote r)
  | None => None
  end.

(** Pattern 3: url, parenthesis, entity, group 1 up to an ampersand, entity,
    parenthesis. *)
Definition pattern3At (s : string) : option string :=
  match stripPrefix ("url(" +:+ quot) s with
  | Some r =>
      match litRunAt "data:image" notAmp r with
      | Some (g, rest) =>
          if startsWith (quot +:+ ")") rest then Some g else None
      | None => None
      end
  | None => None
  end.

(** The group the source picks, [match[2] || match[1] || match[0]], is
    the image-data group of each pattern: it is never empty. *)
Definition patterns : list (string -> option string) :=
  [pattern1At; pattern2At; pattern3At].

Definition base64UrlOf (g : string) : string :=
  dropLastIf isQuote
    (dropFirstIf isQuote
       (dropLastIf isCloseParen
          (default (replaceAll "&amp;" "&" (replaceAll quot EmptyString g))
                   (stripPrefix "url(" (replaceAll "&amp;" "&" (replaceAll quot EmptyString g)))))).

Definition tryPattern (style : string) (pattern : string -> option string) : option string :=
  match findFirst pattern style with
  | Some g =>
      let base64Url := base64UrlOf g in
      if completeBase64 base64Url then Some base64Url else None
  | None => None
  end.

(** The body of the loop over the elements with a background image. *)
Definition backgroundAvatar (el : node) : option string :=
  let style := default EmptyString (getAttribute "style" el) in
  if includes "data:image" style then firstSome (tryPattern style) patterns else None.

Definition selBackground : node -> bool := selAttrContains "style" "background-image".

Definition method2 (doc : node) : option string :=
  firstSome backgroundAvatar (querySelectorAll selBackground doc).

(** *** Method 3 *)

(** [/data:image\/[^;]+;base64,[A-Za-z0-9+/=]{200,}/] at the head of [s]:
    match[0] and what follows it. *)
Definition tokenAt (s : string) : option (string * string) :=
  match stripPrefix "data:image/" s with
  | Some r =>
      let '(mime, r1) := span notSemicolon r in
      if isEmpty mime then None
      else match stripPrefix ";base64," r1 with
           | Some r2 =>
               let '(payload, rest) := span isBase64 r2 in
               if minLength <=? String.length payload
               then Some ("data:image/" +:+ mime +:+ ";base64," +:+ payload, rest)
               else None
           | None => None
           end
  | None => None
  end.

(** The loop over [html.matchAll(...)]: the matches from left to right,
    each search starting behind the previous match ([skip] characters
    are still part of it); the first match longer than 500 wins. *)
Fixpoint scanTokens (skip : nat) (s : string) : option string :=
  match skip with
  | S skip' =>
      match s with
      | EmptyString => None
      | String _ s' => scanTokens skip' s'
      end
  | 0 =>
      match tokenAt s with
      | Some (m, _) =>
          if largeLength <? String.length m then Some m
          else match s with
               | EmptyString => None
               | String _ s' => scanTokens (String.length m - 1) s'
               end
      | None =>
          match s with
          | EmptyString => None
          | String _ s' => scanTokens 0 s'
          end
      end
  end.

Definition method3 (html : string) : option string := scanTokens 0 html.

(** *** The three methods in sequence *)

Section WithParser.
(** [new DOMParser().parseFromString(html, "text/html")] *)
Variable parse : string -> node.

Definition isNone {A} (o : option A) : bool :=
  match o with None => true | Some _ => false end.

(** The value of [avatar] at the end of the extraction. *)
Definition extractAvatar (html : string) : option string :=
  let doc := parse html in
  let avatar := method1 doc in
  let avatar := if isNone avatar then method2 doc else avatar in
  let avatar :=
    if isNone avatar && includes "data:image" html then method3 html else avatar in
  avatar.
End WithParser.

End ParseFullReport.

(* ===================================================================== *)
(** ** mongodb.js: the snapshot store *)
(* ===================================================================== *)

Module Mongo.

(** Times are milliseconds since the epoch, the value of [Date.now()]. *)
Definition time := Z.

Inductive Status := Processing | Completed.

Definition statusEqb (a b : Status) : bool :=
  match a, b with
  | Processing, Processing | Completed, Completed => true
  | _, _ => false
  end.

(** The [meta] object of a step: the fields the caller passed, a value
    or [null] each, and the capture time added to them. *)
Record Meta := {
  metaFields : list (string * option string);
  metaCapturedAt : time;
}.

Record StepData := {
  stepName : string;
  stepHtml : string;
  capturedAt : time;
  stepMeta : Meta;
}.

(** A result card: [username] is undefined when the card has no
    heading, [image] is [null] when it has no background image. *)
Record Card := {
  cardUsername : option string;
  cardImage : option string;
}.

(** A document of the collection [snapshots]. *)
Record Doc := {
  _id : nat;
  instagramUsername : string;
  runId : Z;
  createdAt : time;
  status : Status;
  steps : list StepData;
  cards : option (list Card);
  completedAt : option time;
}.

(** The database with its collection: the documents in natural order,
    the next ObjectId, the TTL index on [createdAt] when it exists, and
    whether the module holds a client ([dbClient] and [db]). *)
Record Db := {
  docs : list Doc;
  nextId : nat;
  ttlIndex : option Z;
  client : bool;
}.

Definition emptyDb : Db :=
  {| docs := []; nextId := 0; ttlIndex := None; client := false |}.

Definition withDocs (db : Db) (ds : list Doc) : Db :=
  {| docs := ds; nextId := nextId db; ttlIndex := ttlIndex db; client := client db |}.

(** What can go wrong in one call of an exported function: the server
    cannot be reached when a connection is opened, [createIndex]
    rejects when the connection is set up, [updateOne] rejects and
    writes nothing, or the [findOne] behind a write rejects. *)
Inductive Fault := NoFault | Unreachable | IndexRejects | UpdateRejects | FindRejects.

Definition expireAfterSeconds : Z := 600.

(** [setupTTLIndex]: [createIndex({createdAt: 1}, {expireAfterSeconds: 600})].
    The error of [createIndex] is swallowed: when the collection has an
    index on [createdAt] already, it stays as it is (the same index is
    no change, another one is a conflict); when [createIndex] rejects,
    there is no index. *)
Definition setupTTLIndex (fault : Fault) (db : Db) : Db :=
  {| docs := docs db; nextId := nextId db;
     ttlIndex := match ttlIndex db, fault with
                 | Some secs, _ => Some secs
                 | None, IndexRejects => None
                 | None, _ => Some expireAfterSeconds
                 end;
     client := client db |}.

(** [connectDB]: the database, or [false] for [null].  A client that is
    already held is returned as it is, and the index is not set up
    again. *)
Definition connectDB (fault : Fault) (db : Db) : Db * bool :=
  if client db then (db, true)
  else match fault with
       | Unreachable => (db, false)
       | _ =>
           (setupTTLIndex fault
              {| docs := docs db; nextId := nextId db;
                 ttlIndex := ttlIndex db; client := true |}, true)
       end.

(** The database's TTL monitor at time [now]: a document goes when the
    indexed time plus [expireAfterSeconds] has passed.  It looks at
    [createdAt] only. *)
Definition expired (secs : Z) (now : time) (d : Doc) : bool :=
  (createdAt d + secs * 1000 <=? now)%Z.

Definition ttlMonitor (now : time) (db : Db) : Db :=
  match ttlIndex db with
  | Some secs => withDocs db (List.filter (fun d => negb (expired secs now d)) (docs db))
  | None => db
  end.

Definition matchesRun (user : string) (run : Z) (d : Doc) : bool :=
  String.eqb (instagramUsername d) user && (runId d =? run)%Z.

Definition pushStep (s : StepData) (d : Doc) : Doc :=
  {| _id := _id d; instagramUsername := instagramUsername d; runId := runId d;
     createdAt := createdAt d; status := status d; steps := steps d ++ [s];
     cards := cards d; completedAt := completedAt d |}.

Definition setResult (cs : list Card) (now : time) (d : Doc) : Doc :=
  {| _id := _id d; instagramUsername := instagramUsername d; runId := runId d;
     createdAt := createdAt d; status := Completed; steps := steps d;
     cards := Some cs; completedAt := Some now |}.

(** [updateOne(filter, update)]: the first document the filter matches
    is updated. *)
Fixpoint updateFirst (sel : Doc -> bool) (f : Doc -> Doc) (ds : list Doc) : list Doc :=
  match ds with
  | [] => []
  | d :: ds' => if sel d then f d :: ds' else d :: updateFirst sel f ds'
  end.

(** The upsert of [saveSnapshotStep]: [$push] on the document of the run,
    or a new document from the filter, [$setOnInsert] and [$push].  The
    second component is [upsertedId]. *)
Definition upsertStep (user : string) (run : Z) (now : time) (s : StepData) (db : Db)
  : Db * option nat :=
  if existsb (matchesRun user run) (docs db) then
    (withDocs db (updateFirst (matchesRun user run) (pushStep s) (docs db)), None)
  else
    let d := {| _id := nextId db; instagramUsername := user; runId := run;
                createdAt := now; status := Processing; steps := [s];
                cards := None; completedAt := None |} in
    ({| docs := docs db ++ [d]; nextId := S (nextId db);
        ttlIndex := ttlIndex db; client := client db |}, Some (nextId db)).

(** [saveSnapshotStep]: [None] is [null]; the second component of the
    result is [snapshotId]. *)
Definition saveSnapshotStep (fault : Fault) (now : time)
    (user : string) (run : Z) (name html : string)
    (meta : list (string * option string)) (db : Db)
  : Db * option (StepData * option nat) :=
  let '(db, ok) := connectDB fault db in
  if negb ok then (db, None)
  else
    let stepData := {| stepName := name; stepHtml := html; capturedAt := now;
                       stepMeta := {| metaFields := meta; metaCapturedAt := now |} |} in
    match fault with
    | UpdateRejects => (db, None)
    | _ =>
        let '(db', upsertedId) := upsertStep user run now stepData db in
        match upsertedId with
        | Some i => (db', Some (stepData, Some i))
        | None =>
            match fault with
            | FindRejects => (db', None)
            | _ => (db', Some (stepData, _id <$> List.find (matchesRun user run) (docs db')))
            end
        end
    end.

(** [saveSnapshotResult]: [None] for [null], else [true] or [false]. *)
Definition saveSnapshotResult (fault : Fault) (now : time)
    (user : string) (run : Z) (cs : list Card) (db : Db) : Db * option bool :=
  let '(db, ok) := connectDB fault db in
  if negb ok then (db, None)
  else match fault with
       | UpdateRejects => (db, Some false)
       | _ => (withDocs db (updateFirst (matchesRun user run) (setResult cs now) (docs db)),
               Some true)
       end.

(** [getSnapshotStep]: the markup of the step, or [None] for [null]. *)
Definition getSnapshotStep (fault : Fault) (snapshotId : nat) (name : string) (db : Db)
  : Db * option string :=
  let '(db, ok) := connectDB fault db in
  if negb ok then (db, None)
  else match fault with
       | FindRejects => (db, None)
       | _ =>
           match List.find (fun d => _id d =? snapshotId) (docs db) with
           | Some snapshot =>
               (db, stepHtml <$> List.find (fun s => String.eqb (stepName s) name)
                                           (steps snapshot))
           | None => (db, None)
           end
       end.

(** [getSnapshotByRunId] *)
Definition getSnapshotByRunId (fault : Fault) (user : string) (run : Z) (db : Db)
  : Db * option Doc :=
  let '(db, ok) := connectDB fault db in
  if negb ok then (db, None)
  else match fault with
       | FindRejects => (db, None)
       | _ => (db, List.find (fun d => matchesRun user run d && statusEqb (status d) Completed)
                             (docs db))
       end.

(** The first document of the greatest [createdAt]: [findOne] under
    [sort: {createdAt: -1}]. *)
Fixpoint newest (ds : list Doc) : option Doc :=
  match ds with
  | [] => None
  | d :: ds' =>
      match newest ds' with
      | Some e => if (createdAt d <? createdAt e)%Z then Some e else Some d
      | None => Some d
      end
  end.

Definition recentFilter (user : string) (cutoffTime : time) (d : Doc) : bool :=
  String.eqb (instagramUsername d) user
  && (cutoffTime <=? createdAt d)%Z
  && statusEqb (status d) Completed.

(** [getRecentSnapshot] *)
Definition getRecentSnapshot (fault : Fault) (now : time)
    (user : string) (maxAgeMinutes : Z) (db : Db) : Db * option Doc :=
  let '(db, ok) := connectDB fault db in
  if negb ok then (db, None)
  else match fault with
       | FindRejects => (db, None)
       | _ =>
           let cutoffTime := (now - maxAgeMinutes * 60 * 1000)%Z in
           (db, newest (List.filter (recentFilter user cutoffTime) (docs db)))
       end.

End Mongo.

(* ===================================================================== *)
(** ** scrape.js: the stage sequencer *)
(* ===================================================================== *)

Module Scrape.
Import Js.

(** What an awaited call yields: a value, or the message of the error it
    rejects with. *)
Inductive outcome (A : Type) :=
| Ok (a : A)
| Throw (message : string).
Arguments Ok {A} a.
Arguments Throw {A} message.

(** *** The wait for the result cards *)

(** [card.getBoundingClientRect()]: the loop looks at the signs only. *)
Record Rect := { width : Z; height : Z }.

(** One pass of the loop as the page and the clock make it: the rectangles
    of the elements [elements.finalCard] selects, or the error of
    [page.evaluate]; the milliseconds the evaluation takes; the error
    of [page.waitForTimeout(pollInterval)] when it rejects; and the
    milliseconds it oversleeps when it does not. *)
Record Tick := {
  cardRects : outcome (list Rect);
  evalMs : N;
  sleepError : option string;
  oversleepMs : N;
}.

Definition maxWaitTime : Z := 60000.
Definition pollInterval : Z := 100.

(** The function evaluated in the page. *)
Definition cardsVisible (rects : list Rect) : bool :=
  if length rects =? 0 then false
  else existsb (fun r => (0 <? width r)%Z && (0 <? height r)%Z) rects.

(** [result] of one pass; an error of the evaluation is swallowed. *)
Definition tickReady (t : Tick) : bool :=
  match cardRects t with
  | Ok rects => cardsVisible rects
  | Throw _ => false
  end.

(** How the loop ends: [cardsFound] after so many passes without
    success; or not, the deadline having passed; or by the error of a
    sleep, which is awaited outside the inner [try].  [elapsed] is
    [Date.now() - analysisStartTime]. *)
Inductive PollEnd :=
| CardsFound (failedPasses : nat) (elapsed : Z)
| GaveUp (failedPasses : nat) (elapsed : Z)
| SleepFailed (failedPasses : nat) (elapsed : Z) (message : string).

Definition sleepMs (t : Tick) : Z := (pollInterval + Z.of_N (oversleepMs t))%Z.

Equations? pollCards (ticks : nat -> Tick) (i : nat) (elapsed : Z) : PollEnd
  by wf (Z.to_nat (maxWaitTime - elapsed)) lt :=
  pollCards ticks i elapsed with Z_lt_dec elapsed maxWaitTime := {
    | right _ => GaveUp i elapsed
    | left _ with tickReady (ticks i) := {
        | true => CardsFound i (elapsed + Z.of_N (evalMs (ticks i)))
        | false with sleepError (ticks i) := {
            | Some e => SleepFailed i (elapsed + Z.of_N (evalMs (ticks i))) e
            | None =>
                pollCards ticks (S i)
                          (elapsed + Z.of_N (evalMs (ticks i)) + sleepMs (ticks i)) } } }.
Proof. unfold sleepMs, pollInterval, maxWaitTime in *. lia. Qed.

(** *** The run: its state and its world *)

(** An entry of [steps]. *)
Record StepEntry := {
  name : string;
  htmlPath : string;
  meta : Mongo.Meta;
}.

(** The object [scrape] returns; [totalTime] in milliseconds (the
    source prints it in seconds). *)
Module Result.
Record t := {
  runId : Z;
  snapshotId : option nat;
  steps : list StepEntry;
  cards : list Mongo.Card;
  totalTime : Z;
}.
End Result.

(** What the error branch of the username stage reads off an input. *)
Record InputDesc := {
  inputType : string;
  placeholder : string;
  inputName : string;
  inputId : string;
  className : string;
}.

(** What [captureStep] writes to the log: the snapshot of a stage was
    saved under an id; the save gave no [snapshotId]; or the capture
    threw on the way. *)
Inductive LogEvent :=
| SnapshotSaved (stage : string) (id : nat)
| SaveFailed (stage : string)
| CaptureFailed (stage : string).

(** The mutable state of a run: the store, and the locals [steps],
    [stepIndex] and [snapshotId] that [captureStep] closes over;
    [emitted] collects the entries handed to [onStep], [logged] what
    [captureStep] logs. *)
Record Run := {
  db : Mongo.Db;
  steps : list StepEntry;
  stepIndex : nat;
  snapshotId : option nat;
  emitted : list StepEntry;
  logged : list LogEvent;
}.

(** Everything the run observes of the browser, the driven site, the
    clock and the network.  An [option string] is a call that returns
    nothing: [None] when it resolves, the error message when it
    rejects.  The fields ending in [Sleep] are the calls of
    [page.waitForTimeout] outside the polling loop. *)
Record World := {
  startTime : Z;
  launch : option string;
  newPage : option string;
  runIdNow : Z;
  goto : option string;
  pageUrl : string;
  revealWait : option string;
  revealClick : option string;
  buttonsOnPage : outcome (list string);
  inputWait : option string;
  inputFill : option string;
  inputsOnPage : outcome (list InputDesc);
  continueWait : option string;
  continueClick : option string;
  continueSleep : option string;
  analyzingWait : option string;
  profileSleep : option string;
  handleText : outcome (option string);
  confirmTry : string -> outcome bool;
  allButtons : outcome (list (outcome bool * outcome (option string)));
  debugButtons : outcome (list string);
  confirmClick : option string;
  confirmSleep : option string;
  processingWait : option string;
  ticks : nat -> Tick;
  cardData : outcome (list Mongo.Card);
  reportWait : option string;
  reportClick : option string;
  reportSleep : option string;
  debugScrape : bool;
  debugDump : option string;
  closeBrowser : option string;
  closeAfterError : option string;
  content : string -> outcome string;
  saveFault : string -> Mongo.Fault;
  saveTime : string -> Z;
  entryTime : string -> Z;
  callbackThrows : string -> bool;
  resultFault : Mongo.Fault;
  resultTime : Z;
  lookupFault : Mongo.Fault;
  endTime : Z;
}.

(** *** A state and error monad for the body of [scrape] *)

Definition M (A : Type) : Type := Run -> Run * outcome A.

#[global] Instance M_ret : MRet M := fun A a st => (st, Ok a).
#[global] Instance M_bind : MBind M := fun A B f m st =>
  match m st with
  | (st', Ok a) => f a st'
  | (st', Throw e) => (st', Throw e)
  end.

Definition throw {A} (message : string) : M A := fun st => (st, Throw message).

(** [try { body } catch (err) { handler(err.message) }] *)
Definition tryCatch {A} (body : M A) (handler : string -> M A) : M A := fun st =>
  match body st with
  | (st', Throw e) => handler e st'
  | r => r
  end.

Definition await {A} (o : outcome A) : M A := fun st => (st, o).

Definition awaitVoid (o : option string) : M unit :=
  match o with
  | None => mret tt
  | Some e => throw e
  end.

Definition ignore {A} (m : M A) : M unit := m ≫= λ _, mret tt.

(** *** The error messages *)

Definition q : string := String quote EmptyString.
Definition backslash : ascii := "092"%char.

Definition hexDigit (n : nat) : ascii :=
  ascii_of_nat (if n <? 10 then 48 + n else 87 + n).

(** One character inside a JSON string. *)
Definition jsonChar (c : ascii) : string :=
  let n := code c in
  if (n =? 34) || (n =? 92) then String backslash (String c EmptyString)
  else if n =? 8 then String backslash "b"
  else if n =? 9 then String backslash "t"
  else if n =? 10 then String backslash "n"
  else if n =? 12 then String backslash "f"
  else if n =? 13 then String backslash "r"
  else if n <? 32 then
    String backslash ("u00" +:+ String (hexDigit (n / 16)) (String (hexDigit (n mod 16)) EmptyString))
  else String c EmptyString.

Fixpoint jsonEscape (s : string) : string :=
  match s with
  | EmptyString => EmptyString
  | String c s' => jsonChar c +:+ jsonEscape s'
  end.

Definition jsonString (s : string) : string := q +:+ jsonEscape s +:+ q.

Definition jsonField (k v : string) : string := jsonString k +:+ ":" +:+ jsonString v.

(** [JSON.stringify] of an array of input descriptions. *)
Definition jsonInput (i : InputDesc) : string :=
  "{" +:+ join "," [jsonField "type" (inputType i); jsonField "placeholder" (placeholder i);
                    jsonField "name" (inputName i); jsonField "id" (inputId i);
                    jsonField "className" (className i)] +:+ "}".

Definition jsonInputs (l : list InputDesc) : string :=
  "[" +:+ join "," (map jsonInput l) +:+ "]".

(** [buttons.map(b => b.textContent?.trim()).filter(Boolean)] *)
Definition buttonLabels (texts : list string) : list string :=
  List.filter (fun t => negb (isEmpty t)) (map trim texts).

Definition revealMessage (labels : list string) : string :=
  "Could not find " +:+ q +:+ "Reveal Stalkers" +:+ q +:+ " button. Available buttons: "
    +:+ join ", " labels.

Definition inputMessage (inputs : list InputDesc) : string :=
  "Could not find username input. Available inputs: " +:+ jsonInputs inputs.

Definition continueMessage (e : string) : string :=
  "Could not find Continue button: " +:+ e.

Definition noConfirmButton : string := "No profile confirmation button found".

Definition confirmMessage (e : string) : string :=
  "Could not find profile confirmation button: " +:+ e.

Definition timeoutMessage : string := "Cards did not appear within timeout period".

Definition snapshotPath (id : nat) (stepName : string) : string :=
  "/api/snapshots/" +:+ pretty id +:+ "/" +:+ stepName.

Section WithWorld.
Variable username : string.
(** Whether [onStep] was passed. *)
Variable onStep : bool.
Variable w : World.

Definition runId : Z := runIdNow w.

(** *** captureStep *)

Definition captureStep (stage : string) (fields : list (string * option string))
  : M (option StepEntry) := fun st =>
  let index := S (stepIndex st) in
  match content w stage with
  | Throw _ =>
      ({| db := db st; steps := steps st; stepIndex := index;
          snapshotId := snapshotId st; emitted := emitted st;
          logged := logged st ++ [CaptureFailed stage] |}, Ok None)
  | Ok html =>
      let '(db', result) :=
        Mongo.saveSnapshotStep (saveFault w stage) (saveTime w stage)
                               username runId stage html fields (db st) in
      match result with
      | Some (_, Some id) =>
          let entry :=
            {| name := stage; htmlPath := snapshotPath id stage;
               meta := {| Mongo.metaFields := fields;
                          Mongo.metaCapturedAt := entryTime w stage |} |} in
          ({| db := db'; steps := steps st ++ [entry]; stepIndex := index;
              snapshotId := match snapshotId st with
                            | None => Some id
                            | Some i => Some i
                            end;
              emitted := if onStep then emitted st ++ [entry] else emitted st;
              logged := logged st ++ SnapshotSaved stage id
                          :: (if onStep && callbackThrows w stage
                              then [CaptureFailed stage] else []) |},
           Ok (if onStep && callbackThrows w stage then None else Some entry))
      | _ =>
          ({| db := db'; steps := steps st; stepIndex := index;
              snapshotId := snapshotId st; emitted := emitted st;
              logged := logged st ++ [SaveFailed stage] |}, Ok None)
      end
  end.

(** *** The stages, in the order of the source *)

Definition stageLanding : M unit :=
  awaitVoid (goto w) ;;
  ignore (captureStep "landing" [("url", Some (pageUrl w))]).

Definition stageReveal : M unit :=
  tryCatch (awaitVoid (revealWait w) ;; awaitVoid (revealClick w))
           (fun _ => texts ← await (buttonsOnPage w);
                     throw (revealMessage (buttonLabels texts))).

Definition stageUsername : M unit :=
  tryCatch (awaitVoid (inputWait w) ;;
            awaitVoid (inputFill w) ;;
            ignore (captureStep "username-entry" [("username", Some username)]))
           (fun _ => inputs ← await (inputsOnPage w);
                     throw (inputMessage inputs)).

Definition stageContinue : M unit :=
  tryCatch (awaitVoid (continueWait w) ;;
            awaitVoid (continueClick w) ;;
            awaitVoid (continueSleep w) ;;
            tryCatch (awaitVoid (analyzingWait w) ;;
                      ignore (captureStep "analyzing" []))
                     (fun _ => mret tt))
           (fun e => throw (continueMessage e)).

Definition buttonTexts : list string :=
  ["Continue, the profile is correct"; "profile is correct"; "Continue"].

(** The loop over [buttonTexts]: a text whose button shows in time. *)
Definition confirmByText : bool :=
  existsb (fun t => match confirmTry w t with Ok true => true | _ => false end)
          buttonTexts.

(** The loop over all buttons: the first visible one, if its text can
    be read; an error ends the search. *)
Fixpoint firstVisible (l : list (outcome bool * outcome (option string))) : bool :=
  match l with
  | [] => false
  | (Ok true, Ok _) :: _ => true
  | (Ok false, _) :: l' => firstVisible l'
  | _ => false
  end.

Definition confirmAnyVisible : bool :=
  match allButtons w with
  | Ok l => firstVisible l
  | Throw _ => false
  end.

(** Whether [confirmButton] is set when the searches are over. *)
Definition confirmButton : bool := confirmByText || confirmAnyVisible.

(** [displayedHandle?.trim() || null] *)
Definition displayedHandle (t : option string) : option string :=
  match t with
  | Some s => if isEmpty (trim s) then None else Some (trim s)
  | None => None
  end.

Definition stageProfileConfirm : M unit :=
  tryCatch
    (awaitVoid (profileSleep w) ;;
     tryCatch (t ← await (handleText w);
               ignore (captureStep "profile-confirm"
                                   [("displayedHandle", displayedHandle t)]))
              (fun _ => ignore (captureStep "profile-confirm" [])) ;;
     (if confirmButton then mret tt
      else await (debugButtons w) ;; throw noConfirmButton) ;;
     awaitVoid (confirmClick w) ;;
     awaitVoid (confirmSleep w))
    (fun e =>
       tryCatch (ignore (captureStep "profile-confirm-error" [])) (fun _ => mret tt) ;;
       throw (confirmMessage e)).

Definition stageProcessing : M unit :=
  tryCatch (awaitVoid (processingWait w) ;; ignore (captureStep "processing" []))
           (fun _ => mret tt).

Definition stageResultsWait : M unit :=
  match pollCards (ticks w) 0 0 with
  | CardsFound _ _ => mret tt
  | GaveUp _ _ => throw timeoutMessage
  | SleepFailed _ _ e => throw e
  end.

Definition stageResults : M (list Mongo.Card) :=
  captureStep "results" [] ;; await (cardData w).

Definition stageFullReport : M unit :=
  tryCatch (awaitVoid (reportWait w) ;;
            awaitVoid (reportClick w) ;;
            awaitVoid (reportSleep w) ;;
            ignore (captureStep "full-report" []))
           (fun _ => mret tt).

Definition stageDebug : M unit :=
  if debugScrape w then awaitVoid (debugDump w) else mret tt.

(** [await saveSnapshotResult(username, runId, data, steps)]; its
    result is not looked at. *)
Definition saveResult (data : list Mongo.Card) : M unit := fun st =>
  let '(db', _) :=
    Mongo.saveSnapshotResult (resultFault w) (resultTime w) username runId data (db st) in
  ({| db := db'; steps := steps st; stepIndex := stepIndex st;
      snapshotId := snapshotId st; emitted := emitted st; logged := logged st |}, Ok tt).

(** [if (!snapshotId) { ... getSnapshotByRunId ... }] *)
Definition lookupSnapshotId : M unit := fun st =>
  match snapshotId st with
  | Some _ => (st, Ok tt)
  | None =>
      let '(db', saved) := Mongo.getSnapshotByRunId (lookupFault w) username runId (db st) in
      ({| db := db'; steps := steps st; stepIndex := stepIndex st;
          snapshotId := Mongo._id <$> saved; emitted := emitted st;
          logged := logged st |}, Ok tt)
  end.

Definition returnResult (data : list Mongo.Card) : M Result.t := fun st =>
  (st, Ok {| Result.runId := runId; Result.snapshotId := snapshotId st;
             Result.steps := steps st; Result.cards := data;
             Result.totalTime := (endTime w - startTime w)%Z |}).

(** The [try] block. *)
Definition scrapeBody : M Result.t :=
  stageLanding ;;
  stageReveal ;;
  stageUsername ;;
  stageContinue ;;
  stageProfileConfirm ;;
  stageProcessing ;;
  stageResultsWait ;;
  data ← stageResults;
  stageFullReport ;;
  stageDebug ;;
  awaitVoid (closeBrowser w) ;;
  saveResult data ;;
  lookupSnapshotId ;;
  returnResult data.

(** [scrape(username, onStep)]: the browser is launched outside the
    [try]; the [catch] closes it and throws the error on. *)
Definition scrapeM : M Result.t :=
  awaitVoid (launch w) ;;
  awaitVoid (newPage w) ;;
  tryCatch scrapeBody (fun e => awaitVoid (closeAfterError w) ;; throw e).

(** *** How far a run gets *)

(** The browser is up and the landing page has loaded. *)
Definition reachesReveal : Prop :=
  launch w = None ∧ newPage w = None ∧ goto w = None.

(** The trigger was found and clicked. *)
Definition reachesUsername : Prop :=
  reachesReveal ∧ revealWait w = None ∧ revealClick w = None.

(** The username was entered, the first Continue button clicked, and
    the two waits around the analyzing view are over. *)
Definition reachesConfirm : Prop :=
  reachesUsername ∧ inputWait w = None ∧ inputFill w = None
  ∧ continueWait w = None ∧ continueClick w = None
  ∧ continueSleep w = None ∧ profileSleep w = None.

(** The profile was confirmed. *)
Definition reachesResultsWait : Prop :=
  reachesConfirm ∧ confirmButton = true ∧ confirmClick w = None
  ∧ confirmSleep w = None.

Definition initialRun (store : Mongo.Db) : Run :=
  {| db := store; steps := []; stepIndex := 0; snapshotId := None; emitted := [];
     logged := [] |}.

Definition scrape (store : Mongo.Db) : Run * outcome Result.t :=
  scrapeM (initialRun store).

End WithWorld.

End Scrape.

(* ===================================================================== *)
(** ** server.js: the two routes that read the store *)
(* ===================================================================== *)

Module Server.
Import Js.

(** A step of the cached answer. *)
Record CachedStep := {
  name : string;
  htmlPath : string;
  meta : Mongo.Meta;
}.

(** The object the cache branch of GET /api/stalkers answers with. *)
Record CachedResponse := {
  cards : list Mongo.Card;
  steps : list CachedStep;
  snapshotId : nat;
  runId : Z;
  cached : bool;
}.

Definition cachedStep (recentSnapshot : Mongo.Doc) (step : Mongo.StepData) : CachedStep :=
  {| name := Mongo.stepName step;
     htmlPath := Scrape.snapshotPath (Mongo._id recentSnapshot) (Mongo.stepName step);
     meta := Mongo.stepMeta step |}.

Definition cachedResponse (recentSnapshot : Mongo.Doc) : CachedResponse :=
  {| cards := default [] (Mongo.cards recentSnapshot);
     steps := map (cachedStep recentSnapshot) (Mongo.steps recentSnapshot);
     snapshotId := Mongo._id recentSnapshot;
     runId := Mongo.runId recentSnapshot;
     cached := true |}.

Definition cacheMinutes : Z := 60.

(** The cache check of GET /api/stalkers: the answer, or [None] when the
    handler goes on to the queue. *)
Definition stalkersCache (fault : Mongo.Fault) (now : Mongo.time) (username : string)
    (store : Mongo.Db) : Mongo.Db * option CachedResponse :=
  let '(store', recentSnapshot) :=
    Mongo.getRecentSnapshot fault now username cacheMinutes store in
  (store', cachedResponse <$> recentSnapshot).

(** The answers of GET /api/snapshots/:snapshotId/:stepName. *)
Inductive Reply :=
| Html (body : string)
| NotFound
| ServerError.

Definition snapshotRoute (fault : Mongo.Fault) (snapshotId : nat) (stepName : string)
    (store : Mongo.Db) : Mongo.Db * Reply :=
  let '(store', html) := Mongo.getSnapshotStep fault snapshotId stepName store in
  match html with
  | Some h => if isEmpty h then (store', NotFound) else (store', Html h)
  | None => (store', NotFound)
  end.

End Server.

(* ===================================================================== *)
(** ** queue.js: ScrapeQueue *)
(* ===================================================================== *)

Module Queue.

Section WithResult.
(** What [scrapeFunction] resolves with. *)
Context {R : Type}.

Abbreviation settled := (Scrape.outcome R).

(** Where the promise chain of one execution stands: the promise of
    [scrapeFunction] is pending; it has settled; the [then] or
    [catch] reaction has run; the [finally] reaction has run, which
    settles [scrapePromise]. *)
Inductive Phase :=
| Running
| Settled (o : settled)
| Notified (o : settled)
| Done (o : settled).

Record Execution := {
  user : string;
  phase : Phase;
}.

(** The queue and the promises around it.  [processing] maps a
    username to its [scrapePromise], named by the index of the
    execution; [waiting] maps it to the number of notify functions;
    [callers] lists, call by call, the promise an [enqueue] call
    awaits or returns. *)
Record State := {
  processing : gmap string nat;
  waiting : gmap string nat;
  executions : list Execution;
  callers : list nat;
}.

Definition initial : State :=
  {| processing := ∅; waiting := ∅; executions := []; callers := [] |}.

Inductive Event :=
| Enqueue (username : string)
| Settle (p : nat) (o : settled)
| Notify (p : nat)
| Finally (p : nat).

Definition setPhase (p : nat) (ph : Phase) (es : list Execution) : list Execution :=
  alter (fun e => {| user := user e; phase := ph |}) p es.

(** The synchronous part of [enqueue(username, scrapeFunction)]. *)
Definition enqueue (username : string) (st : State) : State :=
  match processing st !! username with
  | Some existingPromise =>
      {| processing := processing st;
         waiting := <[username := S (default 0 (waiting st !! username))]> (waiting st);
         executions := executions st;
         callers := callers st ++ [existingPromise] |}
  | None =>
      let scrapePromise := length (executions st) in
      {| processing := <[username := scrapePromise]> (processing st);
         waiting := waiting st;
         executions := executions st ++ [{| user := username; phase := Running |}];
         callers := callers st ++ [scrapePromise] |}
  end.

(** One turn of the event loop; [None] when the event cannot happen
    in this state. *)
Definition step (ev : Event) (st : State) : option State :=
  match ev with
  | Enqueue username => Some (enqueue username st)
  | Settle p o =>
      match executions st !! p with
      | Some {| user := _; phase := Running |} =>
          Some {| processing := processing st; waiting := waiting st;
                  executions := setPhase p (Settled o) (executions st);
                  callers := callers st |}
      | _ => None
      end
  | Notify p =>
      match executions st !! p with
      | Some {| user := u; phase := Settled o |} =>
          Some {| processing := processing st; waiting := delete u (waiting st);
                  executions := setPhase p (Notified o) (executions st);
                  callers := callers st |}
      | _ => None
      end
  | Finally p =>
      match executions st !! p with
      | Some {| user := u; phase := Notified o |} =>
          Some {| processing := delete u (processing st); waiting := waiting st;
                  executions := setPhase p (Done o) (executions st);
                  callers := callers st |}
      | _ => None
      end
  end.

Fixpoint run (evs : list Event) (st : State) : option State :=
  match evs with
  | [] => Some st
  | ev :: evs' =>
      match step ev st with
      | Some st' => run evs' st'
      | None => None
      end
  end.

(** [scrapePromise] of execution [p] is still pending. *)
Definition pending (st : State) (p : nat) : bool :=
  match executions st !! p with
  | Some {| user := _; phase := Done _ |} => false
  | Some _ => true
  | None => false
  end.

(** What the promise [p] has settled with. *)
Definition outcomeOf (st : State) (p : nat) : option settled :=
  match executions st !! p with
  | Some {| user := _; phase := Done o |} => Some o
  | _ => None
  end.

(** What the [k]-th call of [enqueue] has handed to its caller. *)
Definition received (st : State) (k : nat) : option settled :=
  match callers st !! k with
  | Some p => outcomeOf st p
  | None => None
  end.

(** The executions of [username] that are in flight. *)
Definition inFlight (st : State) (username : string) : list nat :=
  List.filter (fun p => pending st p
                        && bool_decide ((user <$> executions st !! p) = Some username))
              (seq 0 (length (executions st))).

End WithResult.

Arguments Phase : clear implicits.
Arguments Execution : clear implicits.
Arguments State : clear implicits.
Arguments Event : clear implicits.

End Queue.

(* ===================================================================== *)
(** ** Auxiliary definitions used to state the properties *)
(* ===================================================================== *)

Module Text.
Import Js.
(** Every character of [s] is in the class. *)
Fixpoint allChars (cls : ascii -> bool) (s : string) : bool :=
  match s with
  | EmptyString => true
  | String c s' => cls c && allChars cls s'
  end.

(** [s] does not go on with a character of the class. *)
Definition stopsRun (cls : ascii -> bool) (s : string) : bool :=
  match s with
  | EmptyString => true
  | String c _ => negb (cls c)
  end.

(** [lit] starts at no position of [pre] when [rest] follows [pre]. *)
Fixpoint clearBefore (lit pre rest : string) : bool :=
  match pre with
  | EmptyString => true
  | String c pre' => negb (startsWith lit (pre +:+ rest)) && clearBefore lit pre' rest
  end.

Fixpoint replicate (n : nat) (c : ascii) : string :=
  match n with
  | 0 => EmptyString
  | S n' => String c (replicate n' c)
  end.
End Text.

Module Dedup.
(** Deduplication seen as a pass that remembers what came before: each
    text is kept where it is first seen. *)
Fixpoint keepFirst (seen l : list string) : list string :=
  match l with
  | [] => []
  | x :: l' =>
      if bool_decide (x ∈ seen) then keepFirst (seen ++ [x]) l'
      else x :: keepFirst (seen ++ [x]) l'
  end.
End Dedup.

Module SpecWords.
Import Js Dom ParseSnapshots.
(** The specification's wording of the bullet extraction, for comparison
    with [collectBullets] and [uniqueBullets]: the text of an element is
    its direct text, or its full nested text when the direct text is
    empty; it qualifies with 20 to 200 characters and a keyword. *)
Definition specText (li : node) : string :=
  if isEmpty (directText li) then trim (textContent li) else directText li.

Definition specQualifies (text : string) : bool :=
  (20 <=? String.length text) && (String.length text <=? 200) && keywordTest text.

Fixpoint specDedup (seen l : list string) : list string :=
  match l with
  | [] => []
  | x :: l' =>
      if existsb (String.eqb x) seen then specDedup seen l'
      else x :: specDedup (seen ++ [x]) l'
  end.

Definition specBullets (doc : node) : list string :=
  let fromItems := List.filter specQualifies (map specText (listItems doc)) in
  specDedup []
    (if length fromItems =? 0
     then List.filter specQualifies (map (λ p, trim (textContent p)) (paragraphs doc))
     else fromItems).
End SpecWords.

Local Open Scope Z_scope.
Module Timing.
Import Scrape.
(** [Date.now() - analysisStartTime] after [n] passes without success
    that began with pass [i] at [elapsed]. *)
Fixpoint elapsedAfter (ticks : nat -> Tick) (i : nat) (elapsed : Z) (n : nat) : Z :=
  match n with
  | O => elapsed
  | S n' =>
      elapsedAfter ticks (S i)
                   (elapsed + Z.of_N (evalMs (ticks i)) + sleepMs (ticks i)) n'
  end.

(** When pass [j] of the loop begins, the passes before it having failed. *)
Definition passStart (ticks : nat -> Tick) (j : nat) : Z := elapsedAfter ticks 0 0 j.

(** What the loop has done when it ends, for a loop entered at pass [i]
    with [e] milliseconds on the clock: [n] passes began before the
    deadline, found nothing and slept; then the loop ended. *)
Definition pollPost (ticks : nat -> Tick) (i : nat) (e : Z) (r : PollEnd) : Prop :=
  ∃ n : nat,
    (∀ m : nat, (m < n)%nat ->
        tickReady (ticks (i + m)%nat) = false
        ∧ sleepError (ticks (i + m)%nat) = None
        ∧ elapsedAfter ticks i e m < maxWaitTime)
    ∧ match r with
      | CardsFound j t =>
          j = (i + n)%nat ∧ tickReady (ticks j) = true
          ∧ elapsedAfter ticks i e n < maxWaitTime
          ∧ t = elapsedAfter ticks i e n + Z.of_N (evalMs (ticks j))
      | GaveUp j t =>
          j = (i + n)%nat ∧ t = elapsedAfter ticks i e n ∧ maxWaitTime ≤ t
      | SleepFailed j t msg =>
          j = (i + n)%nat ∧ tickReady (ticks j) = false
          ∧ sleepError (ticks j) = Some msg
          ∧ elapsedAfter ticks i e n < maxWaitTime
          ∧ t = elapsedAfter ticks i e n + Z.of_N (evalMs (ticks j))
      end.
End Timing.
Local Open Scope nat_scope.

Module Ledger.
Import Js Scrape.
(** The name and path of the entry a log event stands for. *)
Definition savedEntry (ev : LogEvent) : option (string * string) :=
  match ev with
  | SnapshotSaved stage id => Some (stage, snapshotPath id stage)
  | _ => None
  end.

Definition nameAndPath (e : StepEntry) : string * string := (name e, htmlPath e).

(** An entry without the time stamp of its meta: the name, the path and
    the fields [captureStep] was called with. *)
Definition entryData (e : StepEntry) : string * string * list (string * option string) :=
  (name e, htmlPath e, Mongo.metaFields (meta e)).

(** The same of a step of the cached answer. *)
Definition cachedData (s : Server.CachedStep)
  : string * string * list (string * option string) :=
  (Server.name s, Server.htmlPath s, Mongo.metaFields (Server.meta s)).

(** The name and the fields of a stored step and of an entry. *)
Definition storedFields (s : Mongo.StepData) : string * list (string * option string) :=
  (Mongo.stepName s, Mongo.metaFields (Mongo.stepMeta s)).

Definition entryFields (e : StepEntry) : string * list (string * option string) :=
  (name e, Mongo.metaFields (meta e)).

(** The [snapshotId] in what [saveSnapshotStep] returned, if any. *)
Definition savedId (result : option (Mongo.StepData * option nat)) : option nat :=
  match result with
  | Some (_, Some id) => Some id
  | _ => None
  end.

(** [steps] holds the saved snapshots of the log, in order, and
    [onStep] has seen the same entries. *)
Definition stepsMatchLog (onStep : bool) (st : Run) : Prop :=
  map nameAndPath (steps st) = omap savedEntry (logged st)
  ∧ emitted st = (if onStep then steps st else []).
End Ledger.

Module StoreOps.
Import Mongo.
Local Open Scope Z_scope.

(** What can happen to the store: a call of an exported function of
    mongodb.js, or a pass of the database's TTL monitor. *)
Inductive Op :=
| SaveStep (fault : Fault) (now : time) (user : string) (run : Z)
           (name html : string) (meta : list (string * option string))
| SaveResult (fault : Fault) (now : time) (user : string) (run : Z) (cs : list Card)
| GetStep (fault : Fault) (snapshotId : nat) (name : string)
| GetByRunId (fault : Fault) (user : string) (run : Z)
| GetRecent (fault : Fault) (now : time) (user : string) (maxAgeMinutes : Z)
| TtlMonitor (now : time).

Definition applyOp (db : Db) (op : Op) : Db :=
  match op with
  | SaveStep fault now user run name html meta =>
      (saveSnapshotStep fault now user run name html meta db).1
  | SaveResult fault now user run cs => (saveSnapshotResult fault now user run cs db).1
  | GetStep fault snapshotId name => (getSnapshotStep fault snapshotId name db).1
  | GetByRunId fault user run => (getSnapshotByRunId fault user run db).1
  | GetRecent fault now user maxAgeMinutes =>
      (getRecentSnapshot fault now user maxAgeMinutes db).1
  | TtlMonitor now => ttlMonitor now db
  end.

(** The store after a history of operations on the empty database. *)
Definition storeAfter (ops : list Op) : Db := fold_left applyOp ops emptyDb.

Definition isRead (op : Op) : bool :=
  match op with
  | GetStep _ _ _ | GetByRunId _ _ _ | GetRecent _ _ _ _ => true
  | _ => false
  end.

(** When the TTL index of 600 seconds lets a document go. *)
Definition expiresAt (d : Doc) : time := createdAt d + expireAfterSeconds * 1000.

(** ObjectIds are unique and not reused. *)
Definition wellFormed (db : Db) : Prop :=
  NoDup (map _id (docs db))
  ∧ ∀ d, d ∈ docs db -> (_id d < nextId db)%nat.

(** The collection has no TTL index, or the one [setupTTLIndex] asks
    for. *)
Definition ownIndex (db : Db) : Prop :=
  ttlIndex db = None ∨ ttlIndex db = Some expireAfterSeconds.

(** The fault of the call an operation stands for. *)
Definition faultOf (op : Op) : option Fault :=
  match op with
  | SaveStep fault _ _ _ _ _ _ | SaveResult fault _ _ _ _ | GetStep fault _ _
  | GetByRunId fault _ _ | GetRecent fault _ _ _ => Some fault
  | TtlMonitor _ => None
  end.

(** The documents after one operation: they are as before; or the
    first document a filter selects has been updated, keeping its id
    and creation time; or one document with the next id has been
    added; or the expired ones are gone. *)
Inductive docsStep (db db' : Db) : Prop :=
| docs_same : docs db' = docs db -> nextId db' = nextId db -> docsStep db db'
| docs_updated sel f :
    docs db' = updateFirst sel f (docs db) -> nextId db' = nextId db ->
    (∀ d, _id (f d) = _id d ∧ createdAt (f d) = createdAt d) ->
    client db' = true ->
    docsStep db db'
| docs_inserted d :
    docs db' = docs db ++ [d] -> nextId db' = S (nextId db) -> _id d = nextId db ->
    client db' = true ->
    docsStep db db'
| docs_expired secs now :
    ttlIndex db = Some secs ->
    docs db' = List.filter (λ d, negb (expired secs now d)) (docs db) ->
    nextId db' = nextId db ->
    docsStep db db'.

(** The link to the database after one operation: as before; or a
    connection was opened, and the index is the one that was there, or
    the one of 600 seconds, or none when there was none. *)
Definition linkStep (db db' : Db) : Prop :=
  (client db' = client db ∧ ttlIndex db' = ttlIndex db)
  ∨ (client db = false ∧ client db' = true
     ∧ (ttlIndex db' = ttlIndex db
        ∨ (ttlIndex db = None ∧ ttlIndex db' = Some expireAfterSeconds))).
End StoreOps.

Module RunStore.
Import Scrape.

Section ForRun.
Variables (username : string) (w : World).

(** The documents of this run in the store. *)
Definition ownDocs (store : Mongo.Db) : list Mongo.Doc :=
  List.filter (Mongo.matchesRun username (runId w)) (Mongo.docs store).

(** The run and its document agree: there is no document, no step and
    no [snapshotId] yet; or there is one document, [snapshotId] is its
    id, its steps are the steps of the run under the same names and
    with the same meta fields, the
    paths of the run's steps lead to it, and when it is completed its
    cards are the cards of the run. *)
Definition mirrors (st : Run) : Prop :=
  StoreOps.wellFormed (db st)
  ∧ ((ownDocs (db st) = [] ∧ steps st = [] ∧ snapshotId st = None)
     ∨ ∃ d, ownDocs (db st) = [d]
            ∧ snapshotId st = Some (Mongo._id d)
            ∧ map Ledger.storedFields (Mongo.steps d) = map Ledger.entryFields (steps st)
            ∧ (∀ e, e ∈ steps st -> htmlPath e = snapshotPath (Mongo._id d) (name e))
            ∧ (Mongo.status d = Mongo.Completed ->
               ∃ cs, cardData w = Ok cs ∧ Mongo.cards d = Some cs)).

(** Every entry of [steps] is in the store: a document of this run,
    under the id in the entry's path, holds a step of the entry's name
    and fields. *)
Definition persisted (st : Run) : Prop :=
  ∀ e, e ∈ steps st ->
    ∃ d s, d ∈ Mongo.docs (db st)
           ∧ Mongo.matchesRun username (runId w) d = true
           ∧ htmlPath e = snapshotPath (Mongo._id d) (name e)
           ∧ s ∈ Mongo.steps d
           ∧ Ledger.storedFields s = Ledger.entryFields e.

(** The invariant of a run started on [store]: ids stay unique if they
    were, and every entry of [steps] is in the store. *)
Definition stored (store : Mongo.Db) (st : Run) : Prop :=
  (StoreOps.wellFormed store -> StoreOps.wellFormed (db st)) ∧ persisted st.
End ForRun.
End RunStore.

Module QueueState.
Import Queue.

Section WithResult.
Context {R : Type}.

(** The map agrees with the promises: [processing] holds [p] under a
    username exactly when [p] is the promise of an execution for that
    username that is still pending. *)
Definition consistent (st : State R) : Prop :=
  ∀ u p, processing st !! u = Some p
         <-> pending st p = true ∧ user <$> executions st !! p = Some u.

(** The promise chain of an execution has not reached its end. *)
Definition live (ph : Phase R) : bool :=
  match ph with
  | Done _ => false
  | _ => true
  end.

(** What [scrapeFunction]'s promise of execution [p] has settled
    with, once it has. *)
Definition settledWith (st : State R) (p : nat) : option (Scrape.outcome R) :=
  match phase <$> executions st !! p with
  | Some (Settled o) | Some (Notified o) | Some (Done o) => Some o
  | _ => None
  end.

(** Every execution was started by a call, which holds its promise. *)
Definition returned (st : State R) : Prop :=
  ∀ p, p < length (executions st) -> p ∈ callers st.
End WithResult.
End QueueState.


Module SortKeys.
Import ParseSnapshots.
(** [ka] does not sort behind [kb]. *)
Definition keyLe (ka kb : option nat) : Prop := compareKeys ka kb ≠ Gt.
End SortKeys.

Module RunSpec.
Import Js Scrape.
(** The weakest precondition of a postcondition on outcome and state. *)
Definition wp {A} (m : M A) (Q : outcome A -> Run -> Prop) (st : Run) : Prop :=
  Q (m st).2 (m st).1.

(** A program whose every run keeps [I], however it ends. *)
Definition keeps {A} (I : Run -> Prop) (m : M A) : Prop :=
  ∀ st, I st -> wp m (λ _ st', I st') st.
End RunSpec.

(* ===================================================================== *)
(** ** Further notions for the properties of the code                     *)
(* ===================================================================== *)

Module StoreOrder.
Import Mongo.

(** [d'] is a later state of the document [d]: the same id, username,
    run and creation time; the steps of [d] first, in their order; and
    completed if [d] was. *)
Definition grows (d d' : Doc) : Prop :=
  _id d' = _id d
  ∧ instagramUsername d' = instagramUsername d
  ∧ runId d' = runId d
  ∧ createdAt d' = createdAt d
  ∧ steps d `prefix_of` steps d'
  ∧ (status d = Completed -> status d' = Completed).
End StoreOrder.

Module UrlText.
Import Js.

(** A character that ends neither a quoted nor an unquoted url body:
    no quote, no closing parenthesis, no line terminator. *)
Definition urlSafe (c : ascii) : bool :=
  negb (isQuote c) && negb (isLineTerm c) && negb (Ascii.eqb c ")").

(** A string that has no white space at either end. *)
Definition trimmed (s : string) : Prop := trim s = s.
End UrlText.

Module RunVerdict.
Import Js Scrape.

Section WithWorld.
Variable w : World.

(** The first error of a sequence of calls, in their order. *)
Fixpoint firstError (l : list (option string)) : option string :=
  match l with
  | [] => None
  | Some e :: _ => Some e
  | None :: l' => firstError l'
  end.

(** The error with which each step of the [try] block ends the run, if
    it does, as the browser and the site decide it. *)
Definition revealError : option string :=
  match revealWait w, revealClick w with
  | None, None => None
  | _, _ =>
      Some match buttonsOnPage w with
           | Ok texts => revealMessage (buttonLabels texts)
           | Throw e => e
           end
  end.

Definition usernameError : option string :=
  match inputWait w, inputFill w with
  | None, None => None
  | _, _ =>
      Some match inputsOnPage w with
           | Ok inputs => inputMessage inputs
           | Throw e => e
           end
  end.

Definition continueError : option string :=
  continueMessage <$> firstError [continueWait w; continueClick w; continueSleep w].

(** The search for the confirmation button ends without one. *)
Definition searchError : option string :=
  if confirmButton w then None
  else Some match debugButtons w with
            | Ok _ => noConfirmButton
            | Throw e => e
            end.

Definition confirmError : option string :=
  confirmMessage <$>
    firstError [profileSleep w; searchError; confirmClick w; confirmSleep w].

Definition resultsWaitError : option string :=
  match pollCards (ticks w) 0 0 with
  | CardsFound _ _ => None
  | GaveUp _ _ => Some timeoutMessage
  | SleepFailed _ _ e => Some e
  end.

Definition cardDataError : option string :=
  match cardData w with
  | Ok _ => None
  | Throw e => Some e
  end.

Definition debugError : option string :=
  if debugScrape w then debugDump w else None.

Definition bodyError : option string :=
  firstError [goto w; revealError; usernameError; continueError; confirmError;
              resultsWaitError; cardDataError; debugError; closeBrowser w].

(** The error [scrape] rejects with, or [None] when it returns: a
    failure to launch the browser or to open the page is thrown as it
    is; an error of the [try] block is thrown on after the browser is
    closed, unless closing fails, whose error then takes its place. *)
Definition verdict : option string :=
  firstError [launch w; newPage w;
              (λ e, default e (closeAfterError w)) <$> bodyError].

(** Every step that can end the run succeeds. *)
Definition completes : Prop :=
  launch w = None ∧ newPage w = None ∧ goto w = None
  ∧ revealWait w = None ∧ revealClick w = None
  ∧ inputWait w = None ∧ inputFill w = None
  ∧ continueWait w = None ∧ continueClick w = None ∧ continueSleep w = None
  ∧ profileSleep w = None ∧ confirmButton w = true
  ∧ confirmClick w = None ∧ confirmSleep w = None
  ∧ (∃ passes t, pollCards (ticks w) 0 0 = CardsFound passes t)
  ∧ (∃ data, cardData w = Ok data)
  ∧ (debugScrape w = true -> debugDump w = None)
  ∧ closeBrowser w = None.
End WithWorld.

(** The stages in the order in which a run captures them. *)
Definition stageOrder : list string :=
  ["landing"; "username-entry"; "analyzing"; "profile-confirm"; "processing";
   "results"; "full-report"].
End RunVerdict.

Module RunTriples.
Import Js Scrape RunSpec.

(** [triple P m Q E]: from a state in [P], [m] ends in a state in [Q]
    when it returns and in a state in [E] when it throws. *)
Definition triple {A} (P : Run -> Prop) (m : M A) (Q : A -> Run -> Prop)
    (E : string -> Run -> Prop) : Prop :=
  ∀ st, P st ->
    wp m (λ o st', match o with Ok a => Q a st' | Throw e => E e st' end) st.

(** A program whose outcome does not depend on the state: it throws
    [msg], or it returns. *)
Definition decided {A} (m : M A) (e : option string) : Prop :=
  ∀ st, match e with
        | Some msg => (m st).2 = Throw msg
        | None => ∃ a, (m st).2 = Ok a
        end.

(** The names of the steps so far occur in [l], in its order. *)
Definition within (l : list string) (st : Run) : Prop :=
  map name (steps st) `sublist_of` l.

(** No document of the run is completed. *)
Definition uncompleted (username : string) (run : Z) (db : Mongo.Db) : Prop :=
  ∀ d, d ∈ Mongo.docs db -> Mongo.matchesRun username run d = true ->
       Mongo.status d = Mongo.Processing.
End RunTriples.

Module QueueCalls.
Import Queue.

Section WithResult.
Context {R : Type}.

(** The usernames of the calls of [enqueue] in a history, call by call. *)
Definition asked (evs : list (Event R)) : list string :=
  omap (λ ev, match ev with Enqueue u => Some u | _ => None end) evs.

(** The call number [k] was made for the username [names !! k], and the
    promise it holds is that of an execution for this username. *)
Definition answers (names : list string) (st : State R) : Prop :=
  length (callers st) = length names
  ∧ ∀ k u p, names !! k = Some u -> callers st !! k = Some p ->
             user <$> executions st !! p = Some u.
End WithResult.
End QueueCalls.

(* ===================================================================== *)
(** ** scrape.js: the cards read off the page *)
(* ===================================================================== *)

Module Cards.
Import Js.

(** The lazy body [(.*?)] and what closes it, an optional quote and a
    closing parenthesis: the shortest run without a line terminator
    behind which the close stands, and the text behind the close. *)
Fixpoint lazyUntilClose (s : string) : option (string * string) :=
  match s with
  | EmptyString => None
  | String c s' =>
      if isQuote c && startsWith ")" s' then
        Some (EmptyString, match s' with String _ r => r | EmptyString => EmptyString end)
      else if Ascii.eqb c ")" then Some (EmptyString, s')
      else if isLineTerm c then None
      else match lazyUntilClose s' with
           | Some (body, rest) => Some (String c body, rest)
           | None => None
           end
  end.

(** The pattern url, open parenthesis, optional quote, lazy body (group
    1), optional quote, close parenthesis at the head of [s]: group 1
    and what follows the match. *)
Definition matchCssUrlAt (s : string) : option (string * string) :=
  match stripPrefix "url(" s with
  | Some r =>
      match r with
      | String c r' => if isQuote c then lazyUntilClose r' else lazyUntilClose r
      | EmptyString => None
      end
  | None => None
  end.

(** [s.replace(/url\(["']?(.*?)["']?\)/, "$1")]: the leftmost match is
    replaced by its group 1. *)
Fixpoint unwrapUrl (s : string) : string :=
  match matchCssUrlAt s with
  | Some (body, rest) => body +:+ rest
  | None =>
      match s with
      | EmptyString => EmptyString
      | String c s' => String c (unwrapUrl s')
      end
  end.

(** The [image] of a card: [backgroundImage] is the value of
    [imageDiv.style.backgroundImage], [None] when the card has no
    styled element; [None] is [null]. *)
Definition cardImage (backgroundImage : option string) : option string :=
  match backgroundImage with
  | Some s => if isEmpty (unwrapUrl s) then None else Some (unwrapUrl s)
  | None => None
  end.

(** The object built for a card: [heading] is the text of its h4, if it
    has one. *)
Definition cardOf (heading backgroundImage : option string) : Mongo.Card :=
  {| Mongo.cardUsername := trim <$> heading;
     Mongo.cardImage := cardImage backgroundImage |}.
End Cards.

(* ===================================================================== *)
(** ** server.js: the customer of a payment session *)
(* ===================================================================== *)

Module Payment.
Import Js.

Fixpoint keepChars (cls : ascii -> bool) (s : string) : string :=
  match s with
  | EmptyString => EmptyString
  | String c s' => if cls c then String c (keepChars cls s') else keepChars cls s'
  end.

Fixpoint mapChars (f : ascii -> ascii) (s : string) : string :=
  match s with
  | EmptyString => EmptyString
  | String c s' => String (f c) (mapChars f s')
  end.

Definition isAlnum (c : ascii) : bool := isLower c || isUpper c || isDigit c.

(** [phoneNumber.replace(/[^0-9]/g, '')] and the country code put in
    front of it. *)
Definition formatPhone (phoneNumber : string) : string :=
  let phone := keepChars isDigit phoneNumber in
  if String.length phone =? 10 then "91" +:+ phone
  else if negb (startsWith "91" phone) then "91" +:+ phone
  else phone.

(** [email.replace(/[^a-zA-Z0-9]/g, '_').toLowerCase()], and
    [customer_] with the time when that is empty.  After the
    replacement only the letters A-Z are changed by [toLowerCase]. *)
Definition customerId (email : string) (now : Z) : string :=
  let id := mapChars lower (mapChars (fun c => if isAlnum c then c else "_"%char) email) in
  if isEmpty id then "customer_" +:+ pretty now else id.

(** The characters of a customer id. *)
Definition isIdChar (c : ascii) : bool := isLower c || isDigit c || Ascii.eqb c "_".

Record Customer := {
  customer_id : string;
  customer_name : string;
  customer_email : string;
  customer_phone : string;
}.

(** A field of the request body that is present and not empty. *)
Definition nonEmptyField (x : option string) : option string :=
  match x with
  | Some s => if isEmpty s then None else Some s
  | None => None
  end.

(** [customer_details] of the payment request; [None] is the answer
    400 that the handler gives when a field is missing or empty. *)
Definition customerDetails (email fullName phoneNumber : option string) (now : Z)
  : option Customer :=
  match nonEmptyField email, nonEmptyField fullName, nonEmptyField phoneNumber with
  | Some e, Some n, Some p =>
      Some {| customer_id := customerId e now; customer_name := n;
              customer_email := e; customer_phone := formatPhone p |}
  | _, _, _ => None
  end.
End Payment.

(* ===================================================================== *)
(** ** parseFullReport.js: the rest of the report *)
(* ===================================================================== *)

Module FullReport.
Import Js Dom.

(** [doc.body], for a document given by its root element: the first
    child that is a body or a frameset. *)
Definition body (doc : node) : option node :=
  List.find (hasTag ["body"; "frameset"]) (childNodes doc).

(** The elements below [n]: what [n.querySelector] looks at. *)
Definition descendants (n : node) : list node :=
  match elements n with
  | _ :: l => l
  | [] => []
  end.

Definition selHeading (n : node) : bool :=
  hasTag ["h1"; "h2"] n || selAttrContains "class" "heading" n
  || selAttrContains "class" "title" n.

Definition selCard (n : node) : bool := hasTag ["div"; "section"; "article"] n.

Definition selCardTitle (n : node) : bool :=
  hasTag ["h3"; "h4"; "strong"; "b"] n || selAttrContains "class" "title" n.

Definition selCta (n : node) : bool :=
  hasTag ["button"] n
  || (hasTag ["a"] n && selAttrContains "class" "button" n)
  || selAttrContains "class" "cta" n.

(** *** The feature cards *)

(** [re.test(s)] for a pattern given by its match at the head. *)
Fixpoint testAnywhere (at_ : string -> bool) (s : string) : bool :=
  at_ s ||
  match s with
  | EmptyString => false
  | String _ s' => testAnywhere at_ s'
  end.

(** [.*lit] at the head of [s], under the [i] flag: [lit] stands at the
    head or behind characters that are no line terminators. *)
Fixpoint laterOnLine (lit s : string) : bool :=
  startsWithCi lit s ||
  match s with
  | EmptyString => false
  | String c s' => if isLineTerm c then false else laterOnLine lit s'
  end.

(** [a.*b] at the head of [s] *)
Definition twoOnLine (a b s : string) : bool :=
  match stripPrefixCi a s with
  | Some r => laterOnLine b r
  | None => false
  end.

(** [.*b.*c] at the head of [s] *)
Fixpoint laterTwoOnLine (b c s : string) : bool :=
  twoOnLine b c s ||
  match s with
  | EmptyString => false
  | String ch s' => if isLineTerm ch then false else laterTwoOnLine b c s'
  end.

(** [a.*b.*c] at the head of [s] *)
Definition threeOnLine (a b c s : string) : bool :=
  match stripPrefixCi a s with
  | Some r => laterTwoOnLine b c r
  | None => false
  end.

Record FeaturePattern := {
  patternTitle : string;
  desc : string -> bool;
}.

Definition featurePatterns : list FeaturePattern :=
  [ {| patternTitle := "Story Repeats";
       desc := testAnywhere (fun s => twoOnLine "viewed" "re-viewed" s
                                      || twoOnLine "re-viewed" "stories" s) |};
    {| patternTitle := "Visit Tracking";
       desc := testAnywhere (fun s => twoOnLine "visiting" "profile" s
                                      || twoOnLine "who" "visiting" s) |};
    {| patternTitle := "Mention Tracking";
       desc := testAnywhere (fun s => twoOnLine "followers" "talk" s
                                      || threeOnLine "talk" "about" "you" s) |};
    {| patternTitle := "Who's Watching You";
       desc := testAnywhere (fun s => startsWithCi "screenshots" s
                                      || twoOnLine "screenshot" "profile" s) |} ].

Record Feature := {
  featureTitle : string;
  description : string;
}.

(** [s.replace(lit, "")] for a string [lit]: its first occurrence goes. *)
Fixpoint removeFirst (lit s : string) : string :=
  match stripPrefix lit s with
  | Some rest => rest
  | None =>
      match s with
      | EmptyString => EmptyString
      | String c s' => String c (removeFirst lit s')
      end
  end.

(** The body of the [forEach] over the patterns: the feature pushed for
    [pattern], if a card is found. *)
Definition featureOf (allCards : list node) (pattern : FeaturePattern) : option Feature :=
  match List.find (fun el => desc pattern (textContent el)
                             || includes (patternTitle pattern) (textContent el))
                  allCards with
  | Some card =>
      let title :=
        ParseSnapshots.orElse ((fun n => trim (textContent n))
                     <$> List.find selCardTitle (descendants card))
                  (patternTitle pattern) in
      Some {| featureTitle := title;
              description := trim (removeFirst title (textContent card)) |}
  | None => None
  end.

Definition defaultFeatures : list Feature :=
  [ {| featureTitle := "Story Repeats";
       description := "People who viewed and re-viewed your stories" |};
    {| featureTitle := "Visit Tracking";
       description := "Discover who is visiting your profile" |};
    {| featureTitle := "Mention Tracking";
       description := "Find out which followers talk about you the most" |};
    {| featureTitle := "Who's Watching You";
       description := "See who took SCREENSHOTS of your profile and stories" |} ].

Definition featuresOf (doc : node) : list Feature :=
  let features := omap (featureOf (querySelectorAll selCard doc)) featurePatterns in
  if 0 <? length features then features else defaultFeatures.

(** *** Prices, discount and countdown *)

(** A number of the record: a literal of the source, or [parseInt] of
    matched digits. *)
Inductive amount :=
| Literal (n : Z)
| ParseInt (digits : string).

(** [/(\d+)\s*USD/i] at the head of [s]: group 1. *)
Definition amountAt (s : string) : option string :=
  let '(digits, r) := span isDigit s in
  if isEmpty digits then None
  else let '(_, r1) := span isSpace r in
       if startsWithCi "USD" r1 then Some digits else None.

(** [/from\s*(\d+)\s*USD/i] at the head of [s]: group 1. *)
Definition fromAmountAt (s : string) : option string :=
  match stripPrefixCi "from" s with
  | Some r => let '(_, r1) := span isSpace r in amountAt r1
  | None => None
  end.

(** [/(\d+)%\s*off/i] at the head of [s]: group 1. *)
Definition discountAt (s : string) : option string :=
  let '(digits, r) := span isDigit s in
  if isEmpty digits then None
  else match stripPrefix "%" r with
       | Some r1 =>
           let '(_, r2) := span isSpace r1 in
           if startsWithCi "off" r2 then Some digits else None
       | None => None
       end.

(** [/(\d{1,2}):(\d{2})/] at the head of [s]: groups 1 and 2.  Two
    digits are tried before one. *)
Definition timerAt (s : string) : option (string * string) :=
  match s with
  | String d1 (String d2 (String c (String a (String b _)))) =>
      if isDigit d1 && isDigit d2 && Ascii.eqb c ":" && isDigit a && isDigit b
      then Some (String d1 (String d2 EmptyString), String a (String b EmptyString))
      else if isDigit d1 && Ascii.eqb d2 ":" && isDigit c && isDigit a
      then Some (String d1 EmptyString, String c (String a EmptyString))
      else None
  | String d1 (String c (String a (String b EmptyString))) =>
      if isDigit d1 && Ascii.eqb c ":" && isDigit a && isDigit b
      then Some (String d1 EmptyString, String a (String b EmptyString))
      else None
  | _ => None
  end.

Record Pricing := {
  original : amount;
  current : amount;
  discount : amount;
  countdown : string;
}.

Definition numberOr (m : option string) (d : Z) : amount :=
  match m with
  | Some digits => ParseInt digits
  | None => Literal d
  end.

Definition pricingOf (priceText : string) : Pricing :=
  {| original := numberOr (findFirst fromAmountAt priceText) 1299;
     current := numberOr (findFirst amountAt priceText) 199;
     discount := numberOr (findFirst discountAt priceText) 80;
     countdown := match findFirst timerAt priceText with
                  | Some (m, s) => m +:+ ":" +:+ s
                  | None => "14:59"
                  end |}.

(** *** Marketing copy, bonus and guarantee *)

Record Marketing := {
  systemMessage : string;
  emotionalAppeal : string;
  disappointment : string;
  goalMessage : string;
  directionMessage : string;
  certaintyMessage : string;
}.

Definition notDot (c : ascii) : bool := negb (Ascii.eqb c ".").
Definition notColon (c : ascii) : bool := negb (Ascii.eqb c ":").
(** The class of every character but the full stop, the exclamation
    mark and the question mark. *)
Definition notSentenceEnd (c : ascii) : bool :=
  negb (Ascii.eqb c "." || Ascii.eqb c "!" || Ascii.eqb c "?").
Definition isDashOrSpace (c : ascii) : bool := Ascii.eqb c "-" || isSpace c.

(** [/Our reporting system[^.]*\./] at the head of [s]: match[0]. *)
Definition systemAt (s : string) : option string :=
  match stripPrefix "Our reporting system" s with
  | Some r =>
      let '(run, r1) := span notDot r in
      if startsWith "." r1 then Some ("Our reporting system" +:+ run +:+ ".") else None
  | None => None
  end.

Definition marketingOf (bodyText : string) : Marketing :=
  {| systemMessage :=
       if includes "only truly functional" bodyText then
         match findFirst systemAt bodyText with
         | Some m => m
         | None =>
             "Our reporting system is the only truly functional system on the market."
         end
       else "Our reporting system is the only truly functional system on the market.";
     emotionalAppeal :=
       "We could charge what you've already spent on dates, clothes and dinners that never led to anything.";
     disappointment := "Where you only got disappointed.";
     goalMessage := "We want you to have a goal";
     directionMessage :=
       "We're here giving you the only thing you're still missing, direction.";
     certaintyMessage :=
       "It's not worth humiliating yourself for someone who doesn't want you, this is your chance to have certainty." |}.

(** The last character of a string, as a string. *)
Fixpoint lastChar (s : string) : string :=
  match s with
  | EmptyString => EmptyString
  | String c EmptyString => s
  | String _ s' => lastChar s'
  end.

(** [/[Bb]onus[^:]*:\s*([^.!?]+)/] at the head of [s]: group 1.  When
    nothing but the end of a sentence follows the white space, the
    white space gives back its last character to the group. *)
Definition bonusAt (s : string) : option string :=
  match s with
  | String b r0 =>
      if Ascii.eqb b "B" || Ascii.eqb b "b" then
        match stripPrefix "onus" r0 with
        | Some r =>
            let '(_, r1) := span notColon r in
            match stripPrefix ":" r1 with
            | Some r2 =>
                let '(white, r3) := span isSpace r2 in
                let '(group, _) := span notSentenceEnd r3 in
                if negb (isEmpty group) then Some group
                else if negb (isEmpty white) then Some (lastChar white)
                else None
            | None => None
            end
        | None => None
        end
      else None
  | EmptyString => None
  end.

(** [[^.!?]*[Gg]uarantee] at the head of [s] *)
Fixpoint reachesGuarantee (s : string) : bool :=
  startsWith "Guarantee" s || startsWith "guarantee" s ||
  match s with
  | EmptyString => false
  | String c s' => notSentenceEnd c && reachesGuarantee s'
  end.

(** [/(\d+)[-\s]*[Dd]ay[^.!?]*[Gg]uarantee/] at the head of [s]: group 1. *)
Definition guaranteeAt (s : string) : option string :=
  let '(digits, r) := span isDigit s in
  if isEmpty digits then None
  else let '(_, r1) := span isDashOrSpace r in
       match r1 with
       | String d r2 =>
           if Ascii.eqb d "D" || Ascii.eqb d "d" then
             match stripPrefix "ay" r2 with
             | Some r3 => if reachesGuarantee r3 then Some digits else None
             | None => None
             end
           else None
       | EmptyString => None
       end.

Definition bonusOf (bodyText : string) : string :=
  match findFirst bonusAt bodyText with
  | Some group => trim group
  | None => "Ebook: Manual for attraction and re-attraction"
  end.

Definition guaranteeOf (bodyText : string) : string :=
  match findFirst guaranteeAt bodyText with
  | Some digits => digits +:+ "-Day Guarantee"
  | None => "14-Day Guarantee"
  end.

(** *** parseFullReport *)

Record Report := {
  avatar : option string;
  heading : string;
  features : list Feature;
  marketing : Marketing;
  pricing : Pricing;
  cta : string;
  bonus : string;
  guarantee : string;
}.

Section WithParser.
(** [new DOMParser().parseFromString(html, "text/html")] *)
Variable parse : string -> node.

(** [None] is [null]: for markup that is empty, and from the catch
    branch, which a document without body leads to. *)
Definition parseFullReport (html : string) : option Report :=
  if isEmpty html then None
  else
    let doc := parse html in
    match body doc with
    | None => None
    | Some b =>
        let bodyText := textContent b in
        Some {| avatar := ParseFullReport.extractAvatar parse html;
                heading :=
                  ParseSnapshots.orElse ((fun n => trim (textContent n))
                               <$> querySelector selHeading doc)
                            "Unlock Complete Report";
                features := featuresOf doc;
                marketing := marketingOf bodyText;
                pricing := pricingOf bodyText;
                cta :=
                  ParseSnapshots.orElse ((fun n => trim (textContent n)) <$> querySelector selCta doc)
                            "I want the complete report";
                bonus := bonusOf bodyText;
                guarantee := guaranteeOf bodyText |}
    end.
End WithParser.
End FullReport.

Module ReportWords.
Import Js.
Definition notDigit (c : ascii) : bool := negb (isDigit c).

(** The first run of digits of [s]. *)
Definition firstNumber (s : string) : string :=
  (span isDigit (span notDigit s).2).1.
End ReportWords.

(* ===================================================================== *)
(** ** Concrete inputs *)
(* ===================================================================== *)

Module SnapshotSamples.
Import Js Dom.
Definition nestedItem : node :=
  Elem "li" [] [Elem "span" [] [Text "People visited your profile 5 times"]].
Definition nestedDoc : node :=
  Elem "html" [] [Elem "head" [] []; Elem "body" [] [Elem "ul" [] [nestedItem]]].
Definition emptyDoc : node :=
  Elem "html" [] [Elem "head" [] []; Elem "body" [] []].
Definition factItem : node :=
  Elem "li" [] [Text "3 people took a screenshot of your profile "; Elem "b" [] [Text "yesterday"]].
Definition shortItem : node := Elem "li" [] [Text "short"].
Definition plainItem : node := Elem "li" [] [Text "This line is long enough but says nothing."].
Definition fiveItemsDoc : node :=
  Elem "html" [] [Elem "head" [] [];
    Elem "body" [] [Elem "ul" [] [shortItem; factItem; nestedItem; factItem; plainItem]]].

(** A profile page whose handle runs into the greeting. *)
Definition handleSpan : node := Elem "span" [] [Text " @john_doeHello "].
Definition handleDoc : node :=
  Elem "html" [] [Elem "head" [] [];
    Elem "body" [] [Elem "div" [] [Text "@john_doeHello, is this you?"; handleSpan];
                    Elem "p" [] [Text "Is this your profile?"]]].
End SnapshotSamples.

Module ReportSamples.
Import Js Dom Text ParseFullReport.
Definition payload : string := replicate (Z.to_nat 10000) "A".
Definition image : string := "data:image/png;base64," +:+ payload.

(** An image tag carrying the picture: no style attribute anywhere. *)
Definition imgHtml : string := "<html><body><img src='" +:+ image +:+ "'></body></html>".
Definition imgDoc : node :=
  Elem "html" [] [Elem "head" [] []; Elem "body" [] [Elem "img" [("src", image)] []]].

(** The picture as the background of a container without the class hint. *)
Definition styledHtml : string :=
  "<html><body><div class='avatar' style='background-image: url(" +:+ image
    +:+ ")'></div></body></html>".
Definition styledDoc : node :=
  Elem "html" [] [Elem "head" [] [];
    Elem "body" [] [Elem "div" [("class", "avatar");
                                ("style", "background-image: url(" +:+ image +:+ ")")] []]].

Definition plainHtml : string := "<html><body><p>No picture here</p></body></html>".
Definition plainDoc : node :=
  Elem "html" [] [Elem "head" [] []; Elem "body" [] [Elem "p" [] [Text "No picture here"]]].
End ReportSamples.

Module RunSamples.
Import Js Scrape.
Local Open Scope Z_scope.

Definition visibleCard : Rect := {| width := 120; height := 160 |}.

(** The cards show at the fourth pass. *)
Definition ticksFound (n : nat) : Tick :=
  {| cardRects := if (3 <=? n)%nat then Ok [visibleCard] else Ok [];
     evalMs := 3; sleepError := None; oversleepMs := 1 |}.

(** The cards never show; the clock is exact. *)
Definition ticksNever (_ : nat) : Tick :=
  {| cardRects := Ok []; evalMs := 0; sleepError := None; oversleepMs := 0 |}.

(** The cards never show, and the page takes ninety seconds to answer
    each check. *)
Definition ticksSlow (_ : nat) : Tick :=
  {| cardRects := Ok []; evalMs := 90000; sleepError := None; oversleepMs := 0 |}.

(** The page is closed during the third sleep. *)
Definition ticksClosed (n : nat) : Tick :=
  {| cardRects := Ok []; evalMs := 3;
     sleepError := if (2 <=? n)%nat then Some "Target closed" else None;
     oversleepMs := 0 |}.

Definition textInput : InputDesc :=
  {| inputType := "text"; placeholder := "username"; inputName := "";
     inputId := "user"; className := "w-full" |}.

Definition someCard : Mongo.Card :=
  {| Mongo.cardUsername := Some "@alice"; Mongo.cardImage := None |}.

(** A world of the driven site, by what varies between the samples:
    whether the trigger and the username input show, whether a
    confirmation button shows, the passes of the wait, and the faults
    of the store. *)
Definition worldOf (revealWait' inputWait' : option string) (confirmVisible : bool)
    (ticks' : nat -> Tick) (fault : string -> Mongo.Fault) (resultFault' : Mongo.Fault)
    (closeAfterError' : option string)
  : World :=
  {| startTime := 1000; launch := None; newPage := None; runIdNow := 1005;
     goto := None; pageUrl := "https://oseguidorsecreto.com/pv-en";
     revealWait := revealWait'; revealClick := None;
     buttonsOnPage := Ok [" Start "; ""; "Help"];
     inputWait := inputWait'; inputFill := None;
     inputsOnPage := Ok [textInput];
     continueWait := None; continueClick := None; continueSleep := None;
     analyzingWait := None; profileSleep := None;
     handleText := Ok (Some " @bob ");
     confirmTry := fun _ => if confirmVisible then Ok true
                            else Throw "Timeout 3000ms exceeded";
     allButtons := Ok [(Ok false, Ok (Some "Help"))];
     debugButtons := Ok ["Help"];
     confirmClick := None; confirmSleep := None;
     processingWait := Some "Timeout 10000ms exceeded";
     ticks := ticks';
     cardData := Ok [someCard];
     reportWait := None; reportClick := None; reportSleep := None;
     debugScrape := false; debugDump := None;
     closeBrowser := None; closeAfterError := closeAfterError';
     content := fun _ => Ok "<html></html>";
     saveFault := fault; saveTime := fun _ => 2000; entryTime := fun _ => 2001;
     callbackThrows := fun _ => false;
     resultFault := resultFault'; resultTime := 9000;
     lookupFault := resultFault'; endTime := 9500 |}.

Definition world (revealWait' inputWait' : option string) (confirmVisible : bool)
    (ticks' : nat -> Tick) (fault : string -> Mongo.Fault) (resultFault' : Mongo.Fault)
  : World :=
  worldOf revealWait' inputWait' confirmVisible ticks' fault resultFault' None.

Definition noFault (_ : string) : Mongo.Fault := Mongo.NoFault.
Definition unreachable (_ : string) : Mongo.Fault := Mongo.Unreachable.

Definition happyWorld : World := world None None true ticksFound noFault Mongo.NoFault.
Definition noTriggerWorld : World :=
  world (Some "Timeout 10000ms exceeded") None true ticksFound noFault Mongo.NoFault.
Definition noInputWorld : World :=
  world None (Some "Timeout 8000ms exceeded") true ticksFound noFault Mongo.NoFault.
Definition noConfirmWorld : World := world None None false ticksFound noFault Mongo.NoFault.
Definition timeoutWorld : World := world None None true ticksNever noFault Mongo.NoFault.
Definition slowWorld : World := world None None true ticksSlow noFault Mongo.NoFault.
Definition closedWorld : World := world None None true ticksClosed noFault Mongo.NoFault.
(** The input does not show, and the browser does not close either. *)
Definition noCloseWorld : World :=
  worldOf None (Some "Timeout 8000ms exceeded") true ticksFound noFault Mongo.NoFault
          (Some "browser.close: Target closed").
Definition offlineWorld : World := world None None true ticksFound unreachable Mongo.Unreachable.
(** The read-back behind the write of the analyzing stage fails. *)
Definition readBackWorld : World :=
  world None None true ticksFound
        (fun stage => if String.eqb stage "analyzing" then Mongo.FindRejects else Mongo.NoFault)
        Mongo.NoFault.
End RunSamples.

Module StoreSamples.
Import Mongo StoreOps Scrape.
Local Open Scope Z_scope.

(** A run that saves two stages and completes. *)
Definition history : list Op :=
  [SaveStep NoFault 1000 "bob" 990 "landing" "<html>landing</html>" [];
   SaveStep NoFault 2000 "bob" 990 "results" "<html>results</html>" [];
   SaveResult NoFault 3000 "bob" 990 [RunSamples.someCard]].

(** The same run on a connection whose index could not be created. *)
Definition unindexedHistory : list Op :=
  [SaveStep IndexRejects 1000 "bob" 990 "landing" "<html>landing</html>" [];
   SaveStep NoFault 2000 "bob" 990 "results" "<html>results</html>" [];
   SaveResult NoFault 3000 "bob" 990 [RunSamples.someCard]].

(** A collection that came with a TTL index of one hour. *)
Definition hourlyDb : Db :=
  {| docs := []; nextId := 0; ttlIndex := Some 3600; client := false |}.

Definition noDoc : Doc :=
  {| Mongo._id := 0; Mongo.instagramUsername := EmptyString; Mongo.runId := 0;
     Mongo.createdAt := 0; Mongo.status := Processing; Mongo.steps := [];
     Mongo.cards := None; Mongo.completedAt := None |}.

Definition firstDoc (store : Db) : Doc := List.hd noDoc (docs store).

Definition noResult : Result.t :=
  {| Result.runId := 0; Result.snapshotId := None; Result.steps := [];
     Result.cards := []; Result.totalTime := 0 |}.

(** The run of the happy world on the empty store, what it returns and
    the document it leaves. *)
Definition happyRun : Run * outcome Result.t :=
  scrape "bob" false RunSamples.happyWorld emptyDb.

Definition happyResult : Result.t :=
  match happyRun.2 with
  | Ok r => r
  | Throw _ => noResult
  end.

Definition happyDoc : Doc := firstDoc (db happyRun.1).

Definition readBackRun : Run * outcome Result.t :=
  scrape "bob" false RunSamples.readBackWorld emptyDb.

Definition readBackResult : Result.t :=
  match readBackRun.2 with
  | Ok r => r
  | Throw _ => noResult
  end.

(** A second run under the runId of the first. *)
Definition repeatedRun : Run * outcome Result.t :=
  scrape "bob" false RunSamples.happyWorld (db happyRun.1).

Definition repeatedResult : Result.t :=
  match repeatedRun.2 with
  | Ok r => r
  | Throw _ => noResult
  end.
End StoreSamples.

Module QueueSamples.
Import Queue.

(** Two calls for the same username before the scrape is over, a call
    for another username, and a call after the first scrape is over. *)
Definition twoCallers (o : Scrape.outcome nat) : list (Event nat) :=
  [Enqueue "bob"; Enqueue "bob"; Enqueue "eve"; Settle 0 o; Notify 0; Finally 0;
   Enqueue "bob"].

Definition cards : Scrape.outcome nat := Scrape.Ok 7.
Definition failure : Scrape.outcome nat := Scrape.Throw "Navigation timeout".

Definition after (evs : list (Event nat)) : State nat :=
  default initial (run evs initial).
End QueueSamples.

Module SnapshotSamples2.
Import Js Dom.

(** A page whose heading is blank. *)
Definition blankHeadingDoc : node :=
  Elem "html" [] [Elem "head" [] [];
    Elem "body" [] [Elem "h1" [] [Text "  "]; Elem "p" [] [Text " "]]].

(** A handle that no word character follows. *)
Definition bareHandleDoc : node :=
  Elem "html" [] [Elem "head" [] [];
    Elem "body" [] [Elem "span" [] [Text "@ john"]]].

(** An avatar as a quoted background image, and an image behind it. *)
Definition avatarDoc : node :=
  Elem "html" [] [Elem "head" [] [];
    Elem "body" []
      [Elem "div" [("style", "background-image: url('https://cdn.example/a.png'); width: 40px")] [];
       Elem "img" [("src", "https://cdn.example/b.png")] []]].
End SnapshotSamples2.

(* ===================================================================== *)
(** * Properties *)
(* ===================================================================== *)

(** ** Strings *)

Module TextProps.
Import Js Text.

Lemma app_cons c s t : String c s +:+ t = String c (s +:+ t).
Proof. reflexivity. Qed.

Lemma app_nil_l t : EmptyString +:+ t = t.
Proof. reflexivity. Qed.

Lemma app_nil_r s : s +:+ EmptyString = s.
Proof. induction s as [|c s IH]; [done|]. by rewrite app_cons, IH. Qed.

Lemma app_assoc s t u : (s +:+ t) +:+ u = s +:+ t +:+ u.
Proof. induction s as [|c s IH]; [done|]. by rewrite !app_cons, IH. Qed.

Lemma length_app s t : String.length (s +:+ t) = String.length s + String.length t.
Proof. induction s as [|c s IH]; [done|]. rewrite app_cons. simpl. by rewrite IH. Qed.

Lemma stripPrefix_app p s : stripPrefix p (p +:+ s) = Some s.
Proof.
  induction p as [|c p IH]; [by destruct s|].
  rewrite app_cons. simpl. by rewrite Ascii.eqb_refl.
Qed.

Lemma span_app cls a b :
  allChars cls a = true -> stopsRun cls b = true -> span cls (a +:+ b) = (a, b).
Proof.
  induction a as [|c a IH].
  - intros _ Hb. rewrite app_nil_l. destruct b as [|c b]; [done|]. simpl in *.
    by destruct (cls c).
  - intros [Hc Ha]%andb_true_iff Hb. rewrite app_cons. simpl. by rewrite Hc, IH.
Qed.

Lemma includes_app_r p pre s : includes p s = true -> includes p (pre +:+ s) = true.
Proof.
  intros H. induction pre as [|c pre IH]; [done|].
  rewrite app_cons. cbn [includes]. rewrite IH. apply orb_true_r.
Qed.

Lemma startsWith_app p s : startsWith p (p +:+ s) = true.
Proof. unfold startsWith. by rewrite stripPrefix_app. Qed.

Lemma stripPrefix_app_l p s r post :
  stripPrefix p s = Some r -> stripPrefix p (s +:+ post) = Some (r +:+ post).
Proof.
  revert s. induction p as [|c p IH]; intros s.
  - destruct s; by intros [= <-].
  - destruct s as [|d s]; [done|]. rewrite app_cons. simpl.
    destruct (Ascii.eqb c d); [apply IH|done].
Qed.

Lemma startsWith_app_l p s post : startsWith p s = true -> startsWith p (s +:+ post) = true.
Proof.
  unfold startsWith. intros [r Hr]%bool_decide_eq_true.
  by rewrite (stripPrefix_app_l _ _ _ post Hr).
Qed.

Lemma includes_app_l p s post : includes p s = true -> includes p (s +:+ post) = true.
Proof.
  induction s as [|c s IH].
  - cbn [includes]. rewrite orb_false_r. intros H.
    apply (startsWith_app_l _ _ post) in H. rewrite app_nil_l in *.
    destruct post; cbn [includes]; by rewrite H.
  - rewrite app_cons. cbn [includes]. intros [H|H]%orb_true_iff.
    + apply (startsWith_app_l _ _ post) in H. rewrite app_cons in H. by rewrite H.
    + rewrite (IH H). apply orb_true_r.
Qed.

Lemma includes_self p : includes p p = true.
Proof.
  assert (startsWith p p = true) as H.
  { unfold startsWith. apply bool_decide_eq_true.
    induction p as [|c p IH]; simpl; [by eexists|]. by rewrite Ascii.eqb_refl. }
  destruct p; cbn [includes]; by rewrite H.
Qed.

Lemma includes_middle p a b : includes p (a +:+ p +:+ b) = true.
Proof. apply includes_app_r, includes_app_l, includes_self. Qed.

Lemma join_elem sep x l : x ∈ l -> ∃ a b, join sep l = a +:+ x +:+ b.
Proof.
  induction l as [|y l IH]; [by intros ?%elem_of_nil|].
  intros [->|Hx]%elem_of_cons.
  - destruct l as [|z l].
    + exists EmptyString, EmptyString. cbn [join]. by rewrite app_nil_l, app_nil_r.
    + exists EmptyString, (sep +:+ join sep (z :: l)).
      change (join sep (y :: z :: l)) with (y +:+ sep +:+ join sep (z :: l)).
      by rewrite app_nil_l.
  - destruct (IH Hx) as (a & b & Hab). destruct l as [|z l]; [by apply elem_of_nil in Hx|].
    exists (y +:+ sep +:+ a), b.
    change (join sep (y :: z :: l)) with (y +:+ sep +:+ join sep (z :: l)).
    rewrite Hab. by rewrite !app_assoc.
Qed.

Lemma includes_join sep x l pre post :
  x ∈ l -> includes x (pre +:+ join sep l +:+ post) = true.
Proof.
  intros (a & b & ->)%(join_elem sep).
  apply includes_app_r. rewrite !app_assoc. apply includes_middle.
Qed.
End TextProps.
(** ** The display handle *)

Module HandleProps.
Import Js Dom Text TextProps ParseSnapshots SortKeys.

Lemma keyLe_total ka kb : compareKeys ka kb = Gt -> keyLe kb ka.
Proof.
  unfold keyLe. destruct ka as [x|], kb as [y|]; simpl; try congruence.
  intros H%Nat.compare_gt_iff Hc%Nat.compare_gt_iff. lia.
Qed.

Lemma keyLe_trans ka kb kc : keyLe ka kb -> keyLe kb kc -> keyLe ka kc.
Proof.
  unfold keyLe. destruct ka as [x|], kb as [y|], kc as [z|]; simpl; try congruence.
  rewrite !Nat.compare_gt_iff. lia.
Qed.

Section Sorting.
Context {A : Type} (key : A -> option nat).
Let cmp (a b : A) : comparison := compareKeys (key a) (key b).
Let le (a b : A) : Prop := keyLe (key a) (key b).

Lemma insertSorted_perm x l : insertSorted cmp x l ≡ₚ x :: l.
Proof.
  induction l as [|y l IH]; simpl; [done|].
  destruct (cmp x y); try done.
  rewrite IH. apply Permutation_swap.
Qed.

Lemma sortBy_perm l : sortBy cmp l ≡ₚ l.
Proof.
  induction l as [|x l IH]; simpl; [done|].
  by rewrite insertSorted_perm, IH.
Qed.

Lemma insertSorted_sorted x l :
  StronglySorted le l -> StronglySorted le (insertSorted cmp x l).
Proof.
  induction 1 as [|y l Hs IH Hall]; simpl.
  - repeat constructor.
  - destruct (cmp x y) eqn:E.
    + constructor; [by constructor|].
      assert (le x y) as Hxy by (unfold le, keyLe; fold (cmp x y); congruence).
      constructor; [done|].
      eapply Forall_impl; [exact Hall|]. intros z Hz. eapply keyLe_trans; eauto.
    + constructor; [by constructor|].
      assert (le x y) as Hxy by (unfold le, keyLe; fold (cmp x y); congruence).
      constructor; [done|].
      eapply Forall_impl; [exact Hall|]. intros z Hz. eapply keyLe_trans; eauto.
    + constructor; [done|].
      rewrite insertSorted_perm. constructor; [|done].
      by apply keyLe_total.
Qed.

Lemma sortBy_sorted l : StronglySorted le (sortBy cmp l).
Proof.
  induction l as [|x l IH]; simpl; [constructor|].
  by apply insertSorted_sorted.
Qed.

Lemma sortBy_head_least l x0 :
  head (sortBy cmp l) = Some x0 -> ∀ x, x ∈ l -> le x0 x.
Proof.
  intros Hh x Hx.
  pose proof (sortBy_sorted l) as Hs.
  rewrite <- (sortBy_perm l) in Hx.
  destruct (sortBy cmp l) as [|y s]; simplify_eq/=.
  apply StronglySorted_inv in Hs as [_ Hall].
  apply elem_of_cons in Hx as [->|Hx].
  - unfold le, keyLe. destruct (key x0) as [n|]; simpl; [|done].
    by rewrite Nat.compare_refl.
  - by eapply Forall_forall in Hall.
Qed.
Lemma cmp_flip a b : cmp a b = Gt -> cmp b a = Lt.
Proof.
  unfold cmp. destruct (key a) as [x|], (key b) as [y|]; simpl; try congruence.
  rewrite Nat.compare_gt_iff, Nat.compare_lt_iff. lia.
Qed.

Lemma insertSorted_head x l :
  head (insertSorted cmp x l)
  = match l with
    | [] => Some x
    | y :: _ => if decide (cmp x y = Gt) then Some y else Some x
    end.
Proof.
  destruct l as [|y l]; [done|]. simpl. case_decide as H; [by rewrite H|].
  by destruct (cmp x y).
Qed.

(** The sort is stable: its first element is the first of the least. *)
Lemma sortBy_head_first l x0 :
  head (sortBy cmp l) = Some x0 ->
  ∃ before after, l = before ++ x0 :: after
    ∧ (∀ x, x ∈ before -> cmp x0 x = Lt)
    ∧ (∀ x, x ∈ after -> le x0 x).
Proof.
  revert x0. induction l as [|x l IH]; intros x0; [done|].
  cbn [sortBy]. rewrite insertSorted_head.
  destruct (sortBy cmp l) as [|y s] eqn:Hs.
  - intros [= <-]. exists [], l. split; [done|]. split; [by intros ? ?%elem_of_nil|].
    intros z Hz. rewrite <- (sortBy_perm l), Hs in Hz. by apply elem_of_nil in Hz.
  - case_decide as Hgt; intros [= <-].
    + destruct (IH y eq_refl) as (before & after & -> & Hb & Ha).
      exists (x :: before), after. split; [done|]. split; [|done].
      intros z [->|Hz]%elem_of_cons; [by apply cmp_flip|by apply Hb].
    + exists [], l. split; [done|]. split; [by intros ? ?%elem_of_nil|].
      intros z Hz. apply (keyLe_trans _ (key y)); [exact Hgt|].
      apply (sortBy_head_least l y); [by rewrite Hs|done].
Qed.
End Sorting.

Lemma candidate_key n :
  isHandleText n = true ->
  lenOrInfinity (trimmedText n) = Some (String.length (trimmedText n)).
Proof.
  unfold isHandleText, lenOrInfinity.
  destruct (trimmedText n); [done|]. done.
Qed.

Lemma usernameCandidates_spec doc n :
  n ∈ usernameCandidates doc <->
  n ∈ querySelectorAll (hasTag ["span"; "div"; "p"]) doc ∧ startsWith "@" (trimmedText n) = true.
Proof.
  unfold usernameCandidates. rewrite !list_elem_of_In, filter_In. done.
Qed.

Lemma replaceStopSuffix_cut s :
  ∃ tail, s = replaceStopSuffix s +:+ tail ∧
          (tail = EmptyString ∨ ∃ w, w ∈ stoplist ∧ eqCi w tail = true).
Proof.
  induction s as [|c s [tail [IH1 IH2]]].
  - exists EmptyString. split; [done|by left].
  - cbn [replaceStopSuffix].
    destruct (existsb (λ w, eqCi w (String c s)) stoplist) eqn:E.
    + exists (String c s). split; [done|]. right.
      apply existsb_exists in E as (w & Hw & Heq). exists w.
      by rewrite list_elem_of_In.
    + exists tail. split; [|done]. change (String c s = String c (replaceStopSuffix s +:+ tail)).
      by rewrite <- IH1.
Qed.

Lemma replaceStopSuffix_keeps_at run :
  replaceStopSuffix (String "@" run) = String "@" (replaceStopSuffix run).
Proof. reflexivity. Qed.

Lemma matchHandle_shape raw h :
  matchHandle raw = Some h -> ∃ run, h = String "@" run.
Proof.
  unfold matchHandle. destruct raw as [|c r]; [done|].
  destruct (Ascii.eqb c "@") eqn:E; [|done].
  apply Ascii.eqb_eq in E as ->.
  destruct (span isWord r) as [run rest]. destruct (isEmpty run); [done|].
  intros [= <-]. eauto.
Qed.

Lemma cleanUsername_matched n h :
  matchHandle (trimmedText n) = Some h ->
  cleanUsername (Some n) = replaceStopSuffix h.
Proof.
  intros Hm. unfold cleanUsername. rewrite Hm.
  destruct (matchHandle_shape _ _ Hm) as [run ->].
  by rewrite replaceStopSuffix_keeps_at.
Qed.

Lemma sorted_weaken {A} (R R' : A -> A -> Prop) l :
  StronglySorted R l ->
  (∀ a b, a ∈ l -> b ∈ l -> R a b -> R' a b) ->
  StronglySorted R' l.
Proof.
  induction 1 as [|x l Hs IH Hall]; intros Himp; constructor.
  - apply IH. intros a b Ha Hb. apply Himp; by right.
  - apply Forall_forall. intros y Hy. apply Himp; [by left|by right|].
    by eapply Forall_forall in Hall.
Qed.

Lemma keyLe_lengths a b :
  isHandleText a = true -> isHandleText b = true ->
  keyLe (lenOrInfinity (trimmedText a)) (lenOrInfinity (trimmedText b)) ->
  String.length (trimmedText a) ≤ String.length (trimmedText b).
Proof.
  intros Ha Hb. rewrite !candidate_key by done. unfold keyLe. simpl.
  rewrite Nat.compare_gt_iff. lia.
Qed.


Lemma replaceStopSuffix_leftmost s a b :
  s = a +:+ b -> (∃ w, w ∈ stoplist ∧ eqCi w b = true) ->
  String.length (replaceStopSuffix s) ≤ String.length a.
Proof.
  revert a. induction s as [|c s IH]; intros a Hs Hb; [simpl; lia|].
  cbn [replaceStopSuffix].
  destruct (existsb (λ w, eqCi w (String c s)) stoplist) eqn:E; [simpl; lia|].
  destruct a as [|c' a].
  - rewrite app_nil_l in Hs. subst b. destruct Hb as (w & Hw & Heq).
    assert (existsb (λ w, eqCi w (String c s)) stoplist = true) as E'; [|congruence].
    apply existsb_exists. exists w. by rewrite <- list_elem_of_In.
  - rewrite app_cons in Hs. injection Hs as -> Hs. cbn [String.length].
    specialize (IH a Hs Hb). lia.
Qed.

Lemma beforeStop_cut s :
  ∃ tail, s = beforeStop s +:+ tail ∧
          (tail = EmptyString ∨ ∃ w, w ∈ stoplist ∧ startsWithCi w tail = true).
Proof.
  induction s as [|c s [tail [IH1 IH2]]].
  - exists EmptyString. split; [done|by left].
  - cbn [beforeStop].
    destruct (existsb (λ w, startsWithCi w (String c s)) stoplist) eqn:E.
    + exists (String c s). split; [done|]. right.
      apply existsb_exists in E as (w & Hw & Heq). exists w.
      by rewrite list_elem_of_In.
    + exists tail. split; [|done].
      change (String c s = String c (beforeStop s +:+ tail)). by rewrite <- IH1.
Qed.

Lemma beforeStop_leftmost s a b :
  s = a +:+ b -> (∃ w, w ∈ stoplist ∧ startsWithCi w b = true) ->
  String.length (beforeStop s) ≤ String.length a.
Proof.
  revert a. induction s as [|c s IH]; intros a Hs Hb; [simpl; lia|].
  cbn [beforeStop].
  destruct (existsb (λ w, startsWithCi w (String c s)) stoplist) eqn:E; [simpl; lia|].
  destruct a as [|c' a].
  - rewrite app_nil_l in Hs. subst b. destruct Hb as (w & Hw & Heq).
    assert (existsb (λ w, startsWithCi w (String c s)) stoplist = true) as E'; [|congruence].
    apply existsb_exists. exists w. by rewrite <- list_elem_of_In.
  - rewrite app_cons in Hs. injection Hs as -> Hs. cbn [String.length].
    specialize (IH a Hs Hb). lia.
Qed.

Lemma matchHandle_word_run run rest :
  run ≠ EmptyString -> allChars isWord run = true -> stopsRun isWord rest = true ->
  matchHandle (String "@" (run +:+ rest)) = Some (String "@" run).
Proof.
  intros Hne Hrun Hrest. unfold matchHandle. cbn [Ascii.eqb Bool.eqb].
  rewrite (span_app isWord run rest Hrun Hrest). by destruct run.
Qed.

Lemma matchHandle_no_run rest :
  stopsRun isWord rest = true -> matchHandle (String "@" rest) = None.
Proof.
  intros Hrest. unfold matchHandle. cbn [Ascii.eqb Bool.eqb].
  rewrite <- (app_nil_l rest), (span_app isWord EmptyString rest eq_refl Hrest). done.
Qed.

Lemma compareKeys_lt a b :
  isHandleText a = true -> isHandleText b = true ->
  compareKeys (lenOrInfinity (trimmedText a)) (lenOrInfinity (trimmedText b)) = Lt ->
  String.length (trimmedText a) < String.length (trimmedText b).
Proof.
  intros Ha Hb. rewrite !candidate_key by done. simpl. by rewrite Nat.compare_lt_iff.
Qed.


End HandleProps.

(** ** The bullets *)

Module BulletProps.
Import Js Dom ParseSnapshots Dedup.

Lemma indexOf_None x l : indexOf x l = None <-> x ∉ l.
Proof.
  induction l as [|y l IH]; simpl.
  - split; [intros _; apply not_elem_of_nil|done].
  - destruct (String.eqb y x) eqn:E.
    + apply String.eqb_eq in E as ->. split; [done|]. intros []. by left.
    + apply String.eqb_neq in E. rewrite fmap_None, IH, not_elem_of_cons.
      split; [intros ?; split; [congruence|done]|by intros [_ ?]].
Qed.

Lemma indexOf_lt x l i : indexOf x l = Some i -> i < length l.
Proof.
  revert i. induction l as [|y l IH]; intros i; simpl; [done|].
  destruct (String.eqb y x); [intros [= <-]; lia|].
  destruct (indexOf x l) as [j|]; simpl; [|done].
  intros [= <-]. specialize (IH j eq_refl). lia.
Qed.

Lemma indexOf_app x pre l :
  indexOf x (pre ++ l) =
    match indexOf x pre with
    | Some i => Some i
    | None => (λ j, length pre + j) <$> indexOf x l
    end.
Proof.
  induction pre as [|y pre IH]; simpl.
  - by destruct (indexOf x l).
  - destruct (String.eqb y x); [done|]. rewrite IH.
    destruct (indexOf x pre); [done|]. by destruct (indexOf x l).
Qed.

Lemma indexOf_head x l : indexOf x (x :: l) = Some 0.
Proof. simpl. by rewrite String.eqb_refl. Qed.

Lemma omap_cons {A B} (f : A -> option B) a l :
  omap f (a :: l) = match f a with Some y => y :: omap f l | None => omap f l end.
Proof. reflexivity. Qed.

Lemma firstOccurrences_from pre l :
  omap (λ '(index, text),
          if bool_decide (indexOf text (pre ++ l) = Some index) then Some text else None)
       (imap (λ j, pair (length pre + j)) l)
  = keepFirst pre l.
Proof.
  revert pre. induction l as [|x l IH]; intros pre; [done|].
  cbn [imap keepFirst].
  replace (pre ++ x :: l) with ((pre ++ [x]) ++ l) by (by rewrite <- app_assoc).
  rewrite <- (IH (pre ++ [x])).
  assert (Hshift : imap ((λ j, pair (length pre + j)) ∘ S) l
                   = imap (λ j, pair (length (pre ++ [x]) + j)) l).
  { apply imap_ext. intros j y _. simpl. rewrite length_app. simpl. f_equal. lia. }
  rewrite Hshift, Nat.add_0_r, omap_cons.
  rewrite (indexOf_app x (pre ++ [x]) l), (indexOf_app x pre [x]), indexOf_head.
  destruct (indexOf x pre) as [i|] eqn:E.
  - assert (x ∈ pre) by (destruct (decide (x ∈ pre)); [done|]; apply indexOf_None in n; congruence).
    apply indexOf_lt in E as Hlt.
    rewrite bool_decide_eq_false_2 by (intros [=]; lia).
    by rewrite bool_decide_eq_true_2.
  - apply indexOf_None in E. simpl. rewrite Nat.add_0_r.
    rewrite bool_decide_eq_true_2 by done.
    by rewrite bool_decide_eq_false_2.
Qed.

Lemma firstOccurrences_keepFirst arr : firstOccurrences arr = keepFirst [] arr.
Proof. apply (firstOccurrences_from [] arr). Qed.

Lemma keepFirst_elem seen l x : x ∈ keepFirst seen l <-> x ∈ l ∧ x ∉ seen.
Proof.
  revert seen. induction l as [|y l IH]; intros seen; simpl.
  - split; [by intros ?%elem_of_nil|]. by intros [?%elem_of_nil _].
  - case_bool_decide as Hy.
    + rewrite IH, elem_of_cons, not_elem_of_app, list_elem_of_singleton.
      split; [naive_solver|]. intros [[->|?] ?]; [done|]. split; [done|].
      split; [done|]. intros ->. done.
    + rewrite elem_of_cons, IH, elem_of_cons, not_elem_of_app, list_elem_of_singleton.
      split; [|destruct (decide (x = y)); naive_solver].
      intros [->|?]; naive_solver.
Qed.

Lemma keepFirst_NoDup seen l : NoDup (keepFirst seen l).
Proof.
  revert seen. induction l as [|y l IH]; intros seen; simpl; [constructor|].
  case_bool_decide; [done|]. constructor; [|done].
  rewrite keepFirst_elem, not_elem_of_app, list_elem_of_singleton. naive_solver.
Qed.

Lemma keepFirst_sublist seen l : keepFirst seen l `sublist_of` l.
Proof.
  revert seen. induction l as [|y l IH]; intros seen; simpl; [constructor|].
  case_bool_decide; [by apply sublist_cons|by apply sublist_skip].
Qed.

Lemma liBullet_spec li t :
  liBullet li = Some t <->
    20 < String.length (directText li)
    ∧ t = (if String.length (trim (textContent li)) <? 200
           then trim (textContent li) else directText li)
    ∧ t ≠ EmptyString ∧ keywordTest t = true.
Proof.
  unfold liBullet.
  set (text := if String.length (trim (textContent li)) <? 200
               then trim (textContent li) else directText li).
  destruct (20 <? String.length (directText li)) eqn:Hlen.
  - apply Nat.ltb_lt in Hlen.
    assert (isEmpty (directText li) = false) as -> by (destruct (directText li); [simpl in Hlen; lia|done]).
    simpl. split.
    + destruct (isEmpty text) eqn:He, (keywordTest text) eqn:Hk; simpl; try done.
      intros [= <-]. repeat split; try done. by destruct text.
    + intros (_ & -> & Hne & ->). destruct text; [done|]. by rewrite andb_true_r.
  - apply Nat.ltb_ge in Hlen. rewrite andb_false_r. split; [done|]. lia.
Qed.

Lemma liBullet_empty_direct li : directText li = EmptyString -> liBullet li = None.
Proof. unfold liBullet. by intros ->. Qed.

Lemma pBullet_spec p t :
  pBullet p = Some t <->
    t = trim (textContent p) ∧ 20 < String.length t < 200 ∧ keywordTest t = true.
Proof.
  unfold pBullet. set (text := trim (textContent p)). split.
  - destruct (20 <? String.length text) eqn:H1, (String.length text <? 200) eqn:H2,
             (keywordTest text) eqn:H3; simpl; try done.
    apply Nat.ltb_lt in H1, H2. intros [= <-]. done.
  - intros (-> & [H1 H2] & ->). apply Nat.ltb_lt in H1, H2. by rewrite H1, H2.
Qed.

(** C8, amended.  Bullet extraction prefers list items and gates them
    on their direct text: a list item yields a bullet exactly when its
    direct text (the trimmed text of its own text nodes) is longer than
    20 characters; the bullet is then the full trimmed text of the item
    when that is shorter than 200 characters and the direct text
    otherwise, and it must be non-empty and match the keyword list.  A
    list item whose direct text is empty yields nothing: there is no
    fall-back to the nested text.  A paragraph yields its trimmed text
    when that is longer than 20 and shorter than 200 characters and
    matches the keywords.  Paragraphs are used only when no list item
    yields a bullet.  The result keeps the first occurrence of each
    text, in order, and only texts shorter than 200 characters; so when
    the document has 5 list items of which two qualify with the same
    text, the result is that one bullet. *)
Theorem C8_bullets_gate_on_direct_text (doc : node) :
  (∀ li t, liBullet li = Some t <->
     20 < String.length (directText li)
     ∧ t = (if String.length (trim (textContent li)) <? 200
            then trim (textContent li) else directText li)
     ∧ t ≠ EmptyString ∧ keywordTest t = true)
  ∧ (∀ li, directText li = EmptyString -> liBullet li = None)
  ∧ (∀ p t, pBullet p = Some t <->
       t = trim (textContent p) ∧ 20 < String.length t < 200 ∧ keywordTest t = true)
  ∧ collectBullets doc =
      (if decide (omap liBullet (listItems doc) = [])
       then omap pBullet (paragraphs doc) else omap liBullet (listItems doc))
  ∧ bullets (parseProcessingDocument doc) =
      List.filter (λ t, String.length t <? 200) (keepFirst [] (collectBullets doc))
  ∧ NoDup (bullets (parseProcessingDocument doc))
  ∧ bullets (parseProcessingDocument doc) `sublist_of` collectBullets doc
  ∧ (∀ t, t ∈ bullets (parseProcessingDocument doc) <->
          t ∈ collectBullets doc ∧ String.length t < 200)
  ∧ (∀ t, length (listItems doc) = 5 ->
          omap liBullet (listItems doc) = [t; t] ->
          String.length t < 200 ->
          bullets (parseProcessingDocument doc) = [t]).
Proof.
  assert (Hb : bullets (parseProcessingDocument doc) =
               List.filter (λ t, String.length t <? 200) (keepFirst [] (collectBullets doc))).
  { cbn [bullets parseProcessingDocument]. unfold uniqueBullets.
    by rewrite firstOccurrences_keepFirst. }
  split; [apply liBullet_spec|].
  split; [apply liBullet_empty_direct|].
  split; [apply pBullet_spec|].
  split.
  { unfold collectBullets. destruct (omap liBullet (listItems doc)); by case_decide. }
  split; [done|].
  split.
  { rewrite Hb. apply NoDup_ListNoDup, List.NoDup_filter, NoDup_ListNoDup, keepFirst_NoDup. }
  split.
  { rewrite Hb. trans (keepFirst [] (collectBullets doc)); [|apply keepFirst_sublist].
    generalize (keepFirst [] (collectBullets doc)). intros l.
    induction l as [|x l IH]; simpl; [constructor|].
    destruct (_ <? 200); [by apply sublist_skip|by apply sublist_cons]. }
  split.
  { intros t. rewrite Hb, list_elem_of_In, filter_In, <- list_elem_of_In, keepFirst_elem.
    rewrite Nat.ltb_lt. pose proof (not_elem_of_nil t). tauto. }
  intros t _ Hitems Hlen.
  rewrite Hb. unfold collectBullets. rewrite Hitems. simpl.
  rewrite (bool_decide_eq_true_2 (t ∈ [t])) by set_solver. simpl.
  by apply Nat.ltb_lt in Hlen as ->.
Qed.

Lemma C8_bullets_witness :
  bullets (parseProcessingDocument SnapshotSamples.fiveItemsDoc)
  = ["3 people took a screenshot of your profile yesterday"].
Proof.
  destruct (C8_bullets_gate_on_direct_text SnapshotSamples.fiveItemsDoc)
    as (_ & _ & _ & _ & _ & _ & _ & _ & H).
  apply H; [reflexivity|reflexivity|vm_compute; lia].
Defined.

(** C8, as stated, fails: a list item whose text sits in a nested
    element has empty direct text; the rule with the fall-back to the
    nested text takes it, the parser returns no bullet. *)
Lemma C8_nested_only_item_is_skipped :
  listItems SnapshotSamples.nestedDoc = [SnapshotSamples.nestedItem]
  ∧ directText SnapshotSamples.nestedItem = EmptyString
  ∧ SpecWords.specText SnapshotSamples.nestedItem = "People visited your profile 5 times"
  ∧ SpecWords.specQualifies (SpecWords.specText SnapshotSamples.nestedItem) = true
  ∧ SpecWords.specBullets SnapshotSamples.nestedDoc = ["People visited your profile 5 times"]
  ∧ bullets (parseProcessingDocument SnapshotSamples.nestedDoc) = []
  ∧ bullets (parseProcessingDocument SnapshotSamples.nestedDoc) ≠ SpecWords.specBullets SnapshotSamples.nestedDoc.
Proof. vm_compute. repeat split; congruence. Qed.
End BulletProps.

(** ** The defaults of the profile record *)

Module ProfileProps.
Import Js Dom ParseSnapshots.

Lemma find_none_of {A} (f : A -> bool) l :
  (∀ x, x ∈ l -> f x = false) -> List.find f l = None.
Proof.
  induction l as [|x l IH]; intros H; simpl; [done|].
  rewrite (H x) by (by left). apply IH. intros y Hy. apply H. by right.
Qed.

Lemma filter_none_of {A} (f : A -> bool) l :
  (∀ x, x ∈ l -> f x = false) -> List.filter f l = [].
Proof.
  induction l as [|x l IH]; intros H; simpl; [done|].
  rewrite (H x) by (by left). apply IH. intros y Hy. apply H. by right.
Qed.

(** C10.  On any markup, whatever document the parser builds from it,
    [parseProfileSnapshot] returns a record, and each field has its
    default when extraction finds nothing: the progress is the number 55
    when no styled element's style matches a width percentage, the
    username is the empty string when no span, div or p has trimmed text
    starting with '@', the greeting is 'Hello' when there is no h1 or
    h2, the question is 'Is this your profile?' when no p or span
    mentions 'profile', and the two button texts are 'Continue, the
    profile is correct' and 'No, I want to correct it' when the first,
    respectively the second, button is missing. *)
Theorem C10_profile_defaults (parse : string -> node) (html : string) :
  ∃ r, parseProfileSnapshot parse (Some html) = Some r
    ∧ ((∀ n, n ∈ querySelectorAll selStyled (parse html) ->
           findFirst (matchWidthAt isDigit) (default EmptyString (getAttribute "style" n)) = None) ->
       progressPercent r = NumLit 55)
    ∧ ((∀ n, n ∈ querySelectorAll (hasTag ["span"; "div"; "p"]) (parse html) ->
           startsWith "@" (trim (textContent n)) = false) ->
       username r = EmptyString)
    ∧ (querySelectorAll (hasTag ["h1"; "h2"]) (parse html) = [] ->
       greeting r = "Hello")
    ∧ ((∀ n, n ∈ querySelectorAll (hasTag ["p"; "span"]) (parse html) ->
           includesCi "profile" (trim (textContent n)) = false) ->
       question r = "Is this your profile?")
    ∧ (querySelectorAll (hasTag ["button"]) (parse html) !! 0 = None ->
       primaryCta r = "Continue, the profile is correct")
    ∧ (querySelectorAll (hasTag ["button"]) (parse html) !! 1 = None ->
       secondaryCta r = "No, I want to correct it").
Proof.
  eexists. split; [reflexivity|].
  cbn [progressPercent username greeting question primaryCta secondaryCta parseProfileDocument].
  repeat split.
  - intros H. unfold progressPercentOf, progressNode.
    rewrite find_none_of; [done|]. intros n Hn. by rewrite (H n Hn).
  - intros H. unfold usernameNodes, usernameCandidates.
    rewrite filter_none_of; [done|]. intros n Hn. by apply H.
  - intros H. unfold greetingNode, querySelector. by rewrite H.
  - intros H. unfold questionNode. rewrite find_none_of; [done|]. done.
  - intros H. unfold buttons. by rewrite H.
  - intros H. unfold buttons. by rewrite H.
Qed.

Lemma C10_profile_defaults_witness :
  parseProfileSnapshot (λ _, SnapshotSamples.emptyDoc) (Some "<html></html>")
  = Some {| avatar := None; progressPercent := NumLit 55; username := EmptyString;
            greeting := "Hello"; question := "Is this your profile?";
            primaryCta := "Continue, the profile is correct";
            secondaryCta := "No, I want to correct it" |}.
Proof.
  destruct (C10_profile_defaults (λ _, SnapshotSamples.emptyDoc) "<html></html>")
    as (r & Hr & Hp & Hu & Hg & Hq & Hb1 & Hb2).
  rewrite Hr. f_equal.
  assert (avatar r = None) as Ha by (by injection Hr as <-).
  destruct r as [a p u g qn c1 c2]; simpl in *.
  rewrite Ha, Hp, Hu, Hg, Hq, Hb1, Hb2; try reflexivity.
  all: intros n Hn; vm_compute in Hn; by repeat (apply elem_of_cons in Hn as [->|Hn]; [reflexivity|]);
       apply elem_of_nil in Hn.
Defined.
End ProfileProps.

(** ** The avatar of the full report *)

Module FullReportProps.
Import Js Dom Text TextProps ParseFullReport.

Lemma tokenAt_image mime payload post :
  isEmpty mime = false ->
  allChars notSemicolon mime = true ->
  allChars isBase64 payload = true ->
  minLength ≤ String.length payload ->
  stopsRun isBase64 post = true ->
  tokenAt (("data:image/" +:+ mime +:+ ";base64," +:+ payload) +:+ post)
  = Some ("data:image/" +:+ mime +:+ ";base64," +:+ payload, post).
Proof.
  intros Hm Hmime Hpay Hlen Hpost. unfold tokenAt.
  rewrite !app_assoc, stripPrefix_app.
  rewrite (span_app notSemicolon mime) by done.
  rewrite Hm, stripPrefix_app, (span_app isBase64 payload) by done.
  by apply Nat.leb_le in Hlen as ->.
Qed.

Lemma tokenAt_needs_prefix s : startsWith "data:image/" s = false -> tokenAt s = None.
Proof.
  unfold startsWith, tokenAt. destruct (stripPrefix "data:image/" s); [|done].
  intros H. apply bool_decide_eq_false in H. destruct H. eauto.
Qed.

Lemma scanTokens_found s m rest :
  tokenAt s = Some (m, rest) ->
  scanTokens 0 s = if largeLength <? String.length m then Some m
                   else match s with
                        | EmptyString => None
                        | String _ s' => scanTokens (String.length m - 1) s'
                        end.
Proof. intros H. destruct s; cbn [scanTokens]; by rewrite H. Qed.

Lemma scanTokens_image pre token post :
  clearBefore "data:image/" pre (token +:+ post) = true ->
  tokenAt (token +:+ post) = Some (token, post) ->
  largeLength < String.length token ->
  scanTokens 0 (pre +:+ token +:+ post) = Some token.
Proof.
  intros Hclear Htok Hlen. induction pre as [|c pre IH].
  - rewrite app_nil_l, (scanTokens_found _ _ _ Htok). by apply Nat.ltb_lt in Hlen as ->.
  - simpl in Hclear. apply andb_true_iff in Hclear as [Hc Hclear].
    apply negb_true_iff in Hc.
    rewrite app_cons in *. cbn [scanTokens].
    rewrite (tokenAt_needs_prefix _ Hc). by apply IH.
Qed.

Lemma firstSome_nil {A B} (f : A -> option B) : firstSome f [] = None.
Proof. done. Qed.

Lemma firstSome_none {A B} (f : A -> option B) l :
  (∀ x, x ∈ l -> f x = None) -> firstSome f l = None.
Proof.
  induction l as [|x l IH]; intros H; simpl; [done|].
  rewrite (H x) by (by left). apply IH. intros y Hy. apply H. by right.
Qed.

Lemma firstSome_some {A B} (f : A -> option B) l b :
  firstSome f l = Some b -> ∃ x, x ∈ l ∧ f x = Some b.
Proof.
  induction l as [|x l IH]; simpl; [done|].
  destruct (f x) eqn:E.
  - intros [= ->]. exists x. split; [by left|done].
  - intros (y & Hy & Hf)%IH. exists y. split; [by right|done].
Qed.

Lemma completeBase64_length u : completeBase64 u = true -> minLength < String.length u.
Proof.
  unfold completeBase64. intros [_ H]%andb_true_iff. by apply Nat.ltb_lt.
Qed.

Lemma method1_complete doc a :
  method1 doc = Some a ->
  completeBase64 a = true
  ∧ ∃ div, div ∈ querySelectorAll selRoundedFull doc ∧ roundedFullAvatar div = Some a.
Proof.
  intros (div & Hdiv & Ha)%firstSome_some. split; [|eauto].
  unfold roundedFullAvatar in Ha.
  destruct (_ && _); [|done]. destruct (findFirst bgMatchAt _); [|done].
  destruct (completeBase64 _) eqn:E; [|done]. by injection Ha as <-.
Qed.

Lemma method2_complete doc a :
  method2 doc = Some a ->
  completeBase64 a = true
  ∧ ∃ el, el ∈ querySelectorAll selBackground doc ∧ backgroundAvatar el = Some a.
Proof.
  intros (el & Hel & Ha)%firstSome_some. split; [|eauto].
  unfold backgroundAvatar in Ha. destruct (includes _ _); [|done].
  apply firstSome_some in Ha as (pat & _ & Ha). unfold tryPattern in Ha.
  destruct (findFirst pat _); [|done].
  destruct (completeBase64 _) eqn:E; [|done]. by injection Ha as <-.
Qed.

Lemma scanTokens_large skip s a : scanTokens skip s = Some a -> largeLength < String.length a.
Proof.
  revert skip. induction s as [|c s IH]; intros skip; destruct skip; cbn [scanTokens];
    try done; try apply IH.
  all: match goal with |- context [tokenAt ?x] => destruct (tokenAt x) as [[m r]|] end;
    try done; try apply IH.
  all: destruct (largeLength <? String.length m) eqn:E; try done; try apply IH.
  all: intros [= <-]; by apply Nat.ltb_lt.
Qed.

Lemma qsa_elements sel doc n : n ∈ querySelectorAll sel doc -> n ∈ elements doc.
Proof. unfold querySelectorAll. rewrite !list_elem_of_In, filter_In. tauto. Qed.

Lemma extractAvatar_unfold parse html :
  extractAvatar parse html =
    match method1 (parse html) with
    | Some a => Some a
    | None =>
        match method2 (parse html) with
        | Some a => Some a
        | None => if includes "data:image" html then method3 html else None
        end
    end.
Proof.
  unfold extractAvatar. destruct (method1 (parse html)); [done|]. simpl.
  destruct (method2 (parse html)); [done|]. simpl. by destruct (includes _ _).
Qed.



End FullReportProps.

(** ** The wait for the result cards *)

Module PollProps.
Import Scrape Timing.
Local Open Scope Z_scope.

Lemma pollCards_step ticks i e :
  pollCards ticks i e =
    if decide (e < maxWaitTime) then
      if tickReady (ticks i) then CardsFound i (e + Z.of_N (evalMs (ticks i)))
      else match sleepError (ticks i) with
           | Some msg => SleepFailed i (e + Z.of_N (evalMs (ticks i))) msg
           | None =>
               pollCards ticks (S i) (e + Z.of_N (evalMs (ticks i)) + sleepMs (ticks i))
           end
    else GaveUp i e.
Proof.
  rewrite (pollCards_equation_1 ticks i e). unfold pollCards_unfold_clause_1.
  destruct (Z_lt_dec e maxWaitTime); case_decide; try lia; [|done].
  unfold pollCards_unfold_clause_1_clause_2, pollCards_unfold_clause_1_clause_2_clause_2.
  destruct (tickReady (ticks i)); [done|].
  by destruct (sleepError (ticks i)).
Qed.

Lemma elapsedAfter_snoc ticks i e n :
  elapsedAfter ticks i e (S n) =
    elapsedAfter ticks i e n + Z.of_N (evalMs (ticks (i + n)%nat)) + sleepMs (ticks (i + n)%nat).
Proof.
  revert i e. induction n as [|n IH]; intros i e.
  - simpl. by rewrite Nat.add_0_r.
  - change (elapsedAfter ticks i e (S (S n)))
      with (elapsedAfter ticks (S i) (e + Z.of_N (evalMs (ticks i)) + sleepMs (ticks i)) (S n)).
    rewrite IH. simpl. by replace (S (i + n)) with (i + S n)%nat by lia.
Qed.

Lemma elapsedAfter_lower ticks i e n :
  e + pollInterval * Z.of_nat n ≤ elapsedAfter ticks i e n.
Proof.
  revert i e. induction n as [|n IH]; intros i e; simpl elapsedAfter; [lia|].
  specialize (IH (S i) (e + Z.of_N (evalMs (ticks i)) + sleepMs (ticks i))).
  unfold sleepMs, pollInterval in *. lia.
Qed.

Lemma pollCards_post ticks i e : pollPost ticks i e (pollCards ticks i e).
Proof.
  remember (Z.to_nat (maxWaitTime - e)) as fuel eqn:Hfuel.
  revert i e Hfuel. induction fuel as [fuel IH] using lt_wf_ind. intros i e ->.
  rewrite pollCards_step. case_decide as Hlt.
  - destruct (tickReady (ticks i)) eqn:Hready.
    + exists 0%nat. split; [lia|]. rewrite Nat.add_0_r. simpl. done.
    + destruct (sleepError (ticks i)) as [msg|] eqn:Hsleep.
      { exists 0%nat. split; [lia|]. rewrite Nat.add_0_r. simpl. done. }
      set (e' := e + Z.of_N (evalMs (ticks i)) + sleepMs (ticks i)).
      assert (Hdec : (Z.to_nat (maxWaitTime - e') < Z.to_nat (maxWaitTime - e))%nat).
      { unfold e', sleepMs, pollInterval, maxWaitTime in *. lia. }
      destruct (IH _ Hdec (S i) e' eq_refl) as (n & Hbefore & Hend).
      exists (S n). split.
      * intros [|m] Hm.
        -- rewrite Nat.add_0_r. done.
        -- replace (i + S m)%nat with (S i + m)%nat by lia. apply Hbefore. lia.
      * replace (i + S n)%nat with (S i + n)%nat by lia. done.
  - exists 0%nat. split; [lia|]. rewrite Nat.add_0_r. simpl. repeat split. lia.
Qed.

Lemma cardsVisible_spec rects :
  cardsVisible rects = true <-> ∃ r, r ∈ rects ∧ 0 < width r ∧ 0 < height r.
Proof.
  unfold cardsVisible. destruct rects as [|r0 rects].
  - simpl. split; [done|]. intros (r & Hr & _). by apply elem_of_nil in Hr.
  - cbn [length Nat.eqb]. rewrite existsb_exists. split.
    + intros (r & Hr & [?%Z.ltb_lt ?%Z.ltb_lt]%andb_true_iff).
      exists r. by rewrite list_elem_of_In.
    + intros (r & Hr & Hw & Hh). exists r. rewrite <- list_elem_of_In.
      split; [done|]. apply andb_true_iff. by rewrite !Z.ltb_lt.
Qed.
End PollProps.

(** ** Reasoning about runs *)

Module RunLogic.
Import Js Scrape.
Export RunSpec.
Local Open Scope nat_scope.

Lemma wp_bind {A B} (m : M A) (f : A -> M B) Q st :
  wp m (λ o st', match o with
                 | Ok a => wp (f a) Q st'
                 | Throw e => Q (Throw e) st'
                 end) st ->
  wp (m ≫= f) Q st.
Proof.
  unfold wp, mbind, M_bind. destruct (m st) as [st' [a|e]]; simpl; [|done].
  by destruct (f a st').
Qed.

Lemma wp_tryCatch {A} (body : M A) (handler : string -> M A) Q st :
  wp body (λ o st', match o with
                    | Ok a => Q (Ok a) st'
                    | Throw e => wp (handler e) Q st'
                    end) st ->
  wp (tryCatch body handler) Q st.
Proof.
  unfold wp, tryCatch. destruct (body st) as [st' [a|e]]; simpl; [done|].
  by destruct (handler e st').
Qed.

Lemma wp_mono {A} (m : M A) (Q Q' : outcome A -> Run -> Prop) st :
  wp m Q st -> (∀ o st', Q o st' -> Q' o st') -> wp m Q' st.
Proof. unfold wp. auto. Qed.

Lemma wp_ret {A} (a : A) (Q : outcome A -> Run -> Prop) st : Q (Ok a) st -> wp (mret a) Q st.
Proof. done. Qed.

Lemma wp_throw {A} e (Q : outcome A -> Run -> Prop) st : Q (Throw e) st -> wp (throw e) Q st.
Proof. done. Qed.

Lemma wp_await {A} (o : outcome A) (Q : outcome A -> Run -> Prop) st :
  Q o st -> wp (await o) Q st.
Proof. done. Qed.

Lemma wp_awaitVoid o (Q : outcome unit -> Run -> Prop) st :
  match o with None => Q (Ok tt) st | Some e => Q (Throw e) st end ->
  wp (awaitVoid o) Q st.
Proof. by destruct o. Qed.

Lemma wp_ignore {A} (m : M A) (Q : outcome unit -> Run -> Prop) st :
  wp m (λ o st', match o with Ok _ => Q (Ok tt) st' | Throw e => Q (Throw e) st' end) st ->
  wp (ignore m) Q st.
Proof. intros H. apply wp_bind. eapply wp_mono; [exact H|]. by intros [a|e] st'. Qed.

Lemma keeps_bind {A B} I (m : M A) (f : A -> M B) :
  keeps I m -> (∀ a, keeps I (f a)) -> keeps I (m ≫= f).
Proof.
  intros Hm Hf st Hst. apply wp_bind. eapply wp_mono; [by apply Hm|].
  intros [a|e] st' Hst'; [by apply Hf|done].
Qed.

Lemma keeps_tryCatch {A} I (body : M A) handler :
  keeps I body -> (∀ e, keeps I (handler e)) -> keeps I (tryCatch body handler).
Proof.
  intros Hm Hf st Hst. apply wp_tryCatch. eapply wp_mono; [by apply Hm|].
  intros [a|e] st' Hst'; [done|by apply Hf].
Qed.

Lemma keeps_pure {A} I (m : M A) : (∀ st, (m st).1 = st) -> keeps I m.
Proof. intros H st Hst. unfold wp. by rewrite H. Qed.

Lemma keeps_ret {A} I (a : A) : keeps I (mret a).
Proof. by apply keeps_pure. Qed.
Lemma keeps_throw {A} I e : keeps I (throw (A:=A) e).
Proof. by apply keeps_pure. Qed.
Lemma keeps_await {A} I (o : outcome A) : keeps I (await o).
Proof. by apply keeps_pure. Qed.
Lemma keeps_awaitVoid I o : keeps I (awaitVoid o).
Proof. apply keeps_pure. by destruct o. Qed.
Lemma keeps_ignore {A} I (m : M A) : keeps I m -> keeps I (ignore m).
Proof. intros H. apply keeps_bind; [done|]. intros a. apply keeps_ret. Qed.

Create HintDb keeps.
#[export] Hint Resolve keeps_ret keeps_throw keeps_await keeps_awaitVoid : keeps.
#[export] Hint Extern 2 (keeps _ (ignore _)) => apply keeps_ignore : keeps.
#[export] Hint Extern 2 (keeps _ (_ ≫= _)) => apply keeps_bind; [|intros ?] : keeps.
#[export] Hint Extern 2 (keeps _ (tryCatch _ _)) => apply keeps_tryCatch; [|intros ?] : keeps.
#[export] Hint Extern 2 (keeps _ (if ?b then _ else _)) => destruct b : keeps.
#[export] Hint Extern 2 (keeps _ (match ?x with _ => _ end)) => destruct x : keeps.

Section Stages.
Variables (username : string) (onStep : bool) (w : World).
Variable I : Run -> Prop.
Hypothesis capture_keeps :
  ∀ stage fields, keeps I (captureStep username onStep w stage fields).

Local Hint Resolve capture_keeps : keeps.

Lemma stageLanding_keeps : keeps I (stageLanding username onStep w).
Proof. unfold stageLanding. auto 10 with keeps. Qed.
Lemma stageReveal_keeps : keeps I (stageReveal w).
Proof. unfold stageReveal. auto 10 with keeps. Qed.
Lemma stageUsername_keeps : keeps I (stageUsername username onStep w).
Proof. unfold stageUsername. auto 10 with keeps. Qed.
Lemma stageContinue_keeps : keeps I (stageContinue username onStep w).
Proof. unfold stageContinue. auto 10 with keeps. Qed.
Lemma stageProfileConfirm_keeps : keeps I (stageProfileConfirm username onStep w).
Proof. unfold stageProfileConfirm. auto 15 with keeps. Qed.
Lemma stageProcessing_keeps : keeps I (stageProcessing username onStep w).
Proof. unfold stageProcessing. auto 10 with keeps. Qed.
Lemma stageResultsWait_keeps : keeps I (stageResultsWait w).
Proof. unfold stageResultsWait. auto 10 with keeps. Qed.
Lemma stageResults_keeps : keeps I (stageResults username onStep w).
Proof. unfold stageResults. auto 10 with keeps. Qed.
Lemma stageFullReport_keeps : keeps I (stageFullReport username onStep w).
Proof. unfold stageFullReport. auto 10 with keeps. Qed.
Lemma stageDebug_keeps : keeps I (stageDebug w).
Proof. unfold stageDebug. auto 10 with keeps. Qed.

Lemma stageResults_data st :
  I st ->
  wp (stageResults username onStep w)
     (λ o st', I st' ∧ ∀ data, o = Ok data -> cardData w = Ok data) st.
Proof.
  intros Hst. unfold stageResults. apply wp_bind.
  eapply wp_mono; [by apply capture_keeps|].
  intros [a|e] st' Hst'; [|by split]. apply wp_await. split; [done|]. by intros data ->.
Qed.

Hypothesis saveResult_keeps :
  ∀ data, cardData w = Ok data -> keeps I (saveResult username w data).
Hypothesis lookup_keeps : keeps I (lookupSnapshotId username w).

(** The whole of [scrape] keeps [I], and what it returns is read off
    the final state. *)
Lemma scrapeM_keeps st :
  I st ->
  wp (scrapeM username onStep w)
     (λ o st', I st' ∧ ∀ r, o = Ok r ->
                 Result.steps r = steps st' ∧ Result.snapshotId r = snapshotId st'
                 ∧ Result.runId r = runId w ∧ cardData w = Ok (Result.cards r)) st.
Proof.
  intros Hst. unfold scrapeM.
  apply wp_bind, wp_awaitVoid. destruct (launch w); [by split|].
  apply wp_bind, wp_awaitVoid. destruct (newPage w); [by split|].
  apply wp_tryCatch.
  match goal with |- wp _ ?Q' _ => set (Q := Q') end.
  assert (Hthrow : ∀ e st', I st' -> Q (Throw e) st').
  { intros e st' Hst'. apply wp_bind, wp_awaitVoid.
    destruct (closeAfterError w); by split. }
  unfold scrapeBody.
  apply wp_bind; eapply wp_mono; [by apply stageLanding_keeps|].
  clear st Hst. intros [_|?] st Hst; [|auto].
  apply wp_bind; eapply wp_mono; [by apply stageReveal_keeps|].
  clear st Hst. intros [_|?] st Hst; [|auto].
  apply wp_bind; eapply wp_mono; [by apply stageUsername_keeps|].
  clear st Hst. intros [_|?] st Hst; [|auto].
  apply wp_bind; eapply wp_mono; [by apply stageContinue_keeps|].
  clear st Hst. intros [_|?] st Hst; [|auto].
  apply wp_bind; eapply wp_mono; [by apply stageProfileConfirm_keeps|].
  clear st Hst. intros [_|?] st Hst; [|auto].
  apply wp_bind; eapply wp_mono; [by apply stageProcessing_keeps|].
  clear st Hst. intros [_|?] st Hst; [|auto].
  apply wp_bind; eapply wp_mono; [by apply stageResultsWait_keeps|].
  clear st Hst. intros [_|?] st Hst; [|auto].
  apply wp_bind; eapply wp_mono; [by apply stageResults_data|].
  clear st Hst. intros [data|?] st [Hst Hdata]; [|auto].
  specialize (Hdata data eq_refl).
  apply wp_bind; eapply wp_mono; [by apply stageFullReport_keeps|].
  clear st Hst. intros [_|?] st Hst; [|auto].
  apply wp_bind; eapply wp_mono; [by apply stageDebug_keeps|].
  clear st Hst. intros [_|?] st Hst; [|auto].
  apply wp_bind; eapply wp_mono; [by apply keeps_awaitVoid|].
  clear st Hst. intros [_|?] st Hst; [|auto].
  apply wp_bind; eapply wp_mono; [by apply saveResult_keeps|].
  clear st Hst. intros [_|?] st Hst; [|auto].
  apply wp_bind; eapply wp_mono; [by apply lookup_keeps|].
  clear st Hst. intros [_|?] st Hst; [|auto].
  unfold Q, wp, returnResult. simpl. split; [done|]. by intros r [= <-].
Qed.
End Stages.
End RunLogic.

(** ** captureStep and the steps of a run *)

Module CaptureProps.
Import Js Scrape RunLogic Ledger.
Local Open Scope nat_scope.

Section WithWorld.
Variables (username : string) (onStep : bool) (w : World).

Abbreviation captureStep := (captureStep username onStep w).

Lemma captureStep_returns stage fields st :
  ∃ r, (captureStep stage fields st).2 = Ok r.
Proof.
  unfold Scrape.captureStep. destruct (content w stage); [|by eexists].
  destruct (Mongo.saveSnapshotStep _ _ _ _ _ _ _ _) as [db' [[sd [id|]]|]]; by eexists.
Qed.

Lemma wp_captureStep stage fields (Q : outcome (option StepEntry) -> Run -> Prop) st :
  (∀ r st', Q (Ok r) st') -> wp (captureStep stage fields) Q st.
Proof.
  intros H. unfold wp. destruct (captureStep_returns stage fields st) as [r ->]. apply H.
Qed.

(** What one call does to [steps], [emitted] and the log. *)
Lemma captureStep_effect stage fields st :
  let st' := (captureStep stage fields st).1 in
  match content w stage with
  | Throw _ =>
      steps st' = steps st ∧ emitted st' = emitted st
      ∧ logged st' = logged st ++ [CaptureFailed stage]
  | Ok html =>
      match savedId (Mongo.saveSnapshotStep (saveFault w stage) (saveTime w stage)
                       username (runId w) stage html fields (db st)).2 with
      | Some id =>
          ∃ entry, name entry = stage ∧ htmlPath entry = snapshotPath id stage
            ∧ steps st' = steps st ++ [entry]
            ∧ emitted st' = (if onStep then emitted st ++ [entry] else emitted st)
            ∧ omap savedEntry (logged st')
              = omap savedEntry (logged st) ++ [(stage, snapshotPath id stage)]
      | None =>
          steps st' = steps st ∧ emitted st' = emitted st
          ∧ logged st' = logged st ++ [SaveFailed stage]
      end
  end.
Proof.
  unfold Scrape.captureStep. destruct (content w stage) as [html|e]; [|done].
  destruct (Mongo.saveSnapshotStep _ _ _ _ _ _ _ _) as [db' [[sd [id|]]|]];
    cbn [fst snd savedId steps emitted logged]; try done.
  eexists. refine (conj _ (conj _ (conj eq_refl (conj eq_refl _)))); [done..|].
  rewrite omap_app. f_equal.
  by destruct (onStep && callbackThrows w stage).
Qed.

Lemma captureStep_keeps_ledger stage fields :
  keeps (stepsMatchLog onStep) (captureStep stage fields).
Proof.
  intros st [Hsteps Hem]. unfold wp, stepsMatchLog.
  pose proof (captureStep_effect stage fields st) as H. simpl in H.
  destruct (content w stage) as [html|e].
  - destruct (savedId _) as [id|].
    + destruct H as (entry & Hn & Hp & -> & -> & ->).
      rewrite map_app, Hsteps, Hem. cbn [map]. unfold nameAndPath. rewrite Hn, Hp.
      by destruct onStep.
    + destruct H as (-> & -> & ->). rewrite omap_app, Hsteps. simpl.
      by rewrite app_nil_r.
  - destruct H as (-> & -> & ->). rewrite omap_app, Hsteps. simpl.
    by rewrite app_nil_r.
Qed.

Lemma saveResult_keeps_ledger data : keeps (stepsMatchLog onStep) (saveResult username w data).
Proof.
  intros st H. unfold wp, saveResult.
  by destruct (Mongo.saveSnapshotResult _ _ _ _ _ _).
Qed.

Lemma lookupSnapshotId_keeps_ledger :
  keeps (stepsMatchLog onStep) (lookupSnapshotId username w).
Proof.
  intros st H. unfold wp, lookupSnapshotId. destruct (snapshotId st); [done|].
  by destruct (Mongo.getSnapshotByRunId _ _ _ _).
Qed.

Lemma scrape_ledger store :
  let run := scrape username onStep w store in
  stepsMatchLog onStep run.1 ∧ ∀ r, run.2 = Ok r -> Result.steps r = steps run.1.
Proof.
  pose proof (scrapeM_keeps username onStep w (stepsMatchLog onStep)
                captureStep_keeps_ledger (λ data _, saveResult_keeps_ledger data)
                lookupSnapshotId_keeps_ledger (initialRun store)) as H.
  destruct H as [HI Hr]; [split; [done|by destruct onStep]|].
  split; [done|]. intros r Hout. by apply Hr.
Qed.
End WithWorld.

End CaptureProps.

(** ** What decides the outcome of a run *)

Module RunOutcome.
Import Js Text TextProps Scrape RunLogic CaptureProps RunVerdict RunTriples.
Local Open Scope nat_scope.

Lemma decided_wp {A} (m : M A) e :
  (∀ st, wp m (λ o _, match e with
                      | Some msg => o = Throw msg
                      | None => ∃ a, o = Ok a
                      end) st) ->
  decided m e.
Proof. intros H st. specialize (H st). unfold wp in H. by destruct e. Qed.

Lemma decided_bind {A B} (m : M A) (f : A -> M B) e1 e2 :
  decided m e1 -> (∀ a, decided (f a) e2) ->
  decided (m ≫= f) (match e1 with Some e => Some e | None => e2 end).
Proof.
  intros Hm Hf st. specialize (Hm st). unfold mbind, M_bind.
  destruct (m st) as [st' o]. cbn [snd] in Hm. destruct e1 as [e|].
  - by rewrite Hm.
  - destruct Hm as [a ->]. apply Hf.
Qed.

Lemma decided_pass {A B} (m : M A) (f : A -> M B) e :
  decided m None -> (∀ a, decided (f a) e) -> decided (m ≫= f) e.
Proof. intros Hm Hf. apply (decided_bind m f None e Hm Hf). Qed.

Ltac run_rule :=
  first [ apply wp_bind | apply wp_tryCatch | apply wp_ignore
        | apply wp_captureStep; intros ? ?
        | apply wp_awaitVoid | apply wp_await | apply wp_ret | apply wp_throw ].

Ltac run_case :=
  match goal with
  | |- context [match ?x with Ok _ => _ | Throw _ => _ end] => destruct x
  | |- context [match ?x with Some _ => _ | None => _ end] => destruct x
  | |- context [if ?b then _ else _] => destruct b
  end.

Ltac run := repeat first [ progress cbn beta iota | run_rule | reflexivity | run_case ].

Section WithWorld.
Variables (username : string) (onStep : bool) (w : World).

Lemma stageLanding_decided : decided (stageLanding username onStep w) (goto w).
Proof.
  apply decided_wp. intros st. unfold stageLanding.
  destruct (goto w); run; eauto.
Qed.

Lemma stageReveal_decided : decided (stageReveal w) (revealError w).
Proof.
  apply decided_wp. intros st. unfold stageReveal, revealError.
  destruct (revealWait w), (revealClick w), (buttonsOnPage w); run; eauto.
Qed.

Lemma stageUsername_decided :
  decided (stageUsername username onStep w) (usernameError w).
Proof.
  apply decided_wp. intros st. unfold stageUsername, usernameError.
  destruct (inputWait w), (inputFill w), (inputsOnPage w); run; eauto.
Qed.

Lemma stageContinue_decided :
  decided (stageContinue username onStep w) (continueError w).
Proof.
  apply decided_wp. intros st. unfold stageContinue, continueError.
  destruct (continueWait w), (continueClick w), (continueSleep w), (analyzingWait w);
    cbn [firstError fmap option_fmap option_map]; run; eauto.
Qed.

Lemma stageProfileConfirm_decided :
  decided (stageProfileConfirm username onStep w) (confirmError w).
Proof.
  apply decided_wp. intros st. unfold stageProfileConfirm, confirmError, searchError.
  destruct (profileSleep w), (confirmButton w), (confirmClick w), (confirmSleep w),
    (debugButtons w), (handleText w);
    cbn [firstError fmap option_fmap option_map]; run; eauto.
Qed.

Lemma stageProcessing_decided : decided (stageProcessing username onStep w) None.
Proof.
  apply decided_wp. intros st. unfold stageProcessing.
  destruct (processingWait w); run; eauto.
Qed.

Lemma stageResultsWait_decided : decided (stageResultsWait w) (resultsWaitError w).
Proof.
  apply decided_wp. intros st. unfold stageResultsWait, resultsWaitError.
  destruct (pollCards (ticks w) 0 0); run; eauto.
Qed.

Lemma stageResults_decided : decided (stageResults username onStep w) (cardDataError w).
Proof.
  apply decided_wp. intros st. unfold stageResults, cardDataError.
  destruct (cardData w); run; eauto.
Qed.

Lemma stageFullReport_decided : decided (stageFullReport username onStep w) None.
Proof.
  apply decided_wp. intros st. unfold stageFullReport.
  destruct (reportWait w), (reportClick w), (reportSleep w); run; eauto.
Qed.

Lemma stageDebug_decided : decided (stageDebug w) (debugError w).
Proof.
  apply decided_wp. intros st. unfold stageDebug, debugError.
  destruct (debugScrape w), (debugDump w); run; eauto.
Qed.

Lemma awaitVoid_decided o : decided (awaitVoid o) o.
Proof. intros st. destruct o; simpl; eauto. Qed.

Lemma saveResult_decided data : decided (saveResult username w data) None.
Proof.
  intros st. unfold saveResult. destruct (Mongo.saveSnapshotResult _ _ _ _ _ _). eauto.
Qed.

Lemma lookupSnapshotId_decided : decided (lookupSnapshotId username w) None.
Proof.
  intros st. unfold lookupSnapshotId. destruct (snapshotId st); [eauto|].
  destruct (Mongo.getSnapshotByRunId _ _ _ _). eauto.
Qed.

Lemma returnResult_decided data : decided (returnResult w data) None.
Proof. intros st. unfold returnResult. eauto. Qed.

Lemma scrapeBody_decided : decided (scrapeBody username onStep w) (bodyError w).
Proof.
  unfold scrapeBody, bodyError. cbn [firstError].
  apply decided_bind; [apply stageLanding_decided|intros _].
  apply decided_bind; [apply stageReveal_decided|intros _].
  apply decided_bind; [apply stageUsername_decided|intros _].
  apply decided_bind; [apply stageContinue_decided|intros _].
  apply decided_bind; [apply stageProfileConfirm_decided|intros _].
  apply decided_pass; [apply stageProcessing_decided|intros _].
  apply decided_bind; [apply stageResultsWait_decided|intros _].
  apply decided_bind; [apply stageResults_decided|intros data].
  apply decided_pass; [apply stageFullReport_decided|intros _].
  apply decided_bind; [apply stageDebug_decided|intros _].
  apply (decided_bind _ _ _ None); [apply awaitVoid_decided|intros _].
  apply decided_pass; [apply saveResult_decided|intros _].
  apply decided_pass; [apply lookupSnapshotId_decided|intros _].
  apply returnResult_decided.
Qed.

Lemma scrapeM_decided : decided (scrapeM username onStep w) (verdict w).
Proof.
  intros st. unfold scrapeM, verdict. cbn [firstError].
  unfold mbind, M_bind, awaitVoid.
  destruct (launch w) as [e|]; [done|]. cbn [mret M_ret].
  destruct (newPage w) as [e|]; [done|]. cbn [mret M_ret].
  pose proof (scrapeBody_decided st) as Hbody. unfold tryCatch.
  destruct (scrapeBody username onStep w st) as [st' o]. cbn [snd] in Hbody.
  destruct (bodyError w) as [e|]; cbn [fmap option_fmap option_map].
  - rewrite Hbody. unfold throw. by destruct (closeAfterError w).
  - destruct Hbody as [r ->]. eauto.
Qed.

Lemma firstError_None l : firstError l = None <-> Forall (λ e, e = None) l.
Proof.
  induction l as [|[e|] l IH]; cbn [firstError].
  - split; [constructor|done].
  - split; [done|]. by intros [? _]%Forall_cons.
  - rewrite IH, Forall_cons. tauto.
Qed.

Lemma revealError_None : revealError w = None <-> revealWait w = None ∧ revealClick w = None.
Proof. unfold revealError. destruct (revealWait w), (revealClick w); naive_solver. Qed.

Lemma usernameError_None : usernameError w = None <-> inputWait w = None ∧ inputFill w = None.
Proof. unfold usernameError. destruct (inputWait w), (inputFill w); naive_solver. Qed.

Lemma continueError_None :
  continueError w = None
  <-> continueWait w = None ∧ continueClick w = None ∧ continueSleep w = None.
Proof.
  unfold continueError. rewrite fmap_None, firstError_None, !Forall_cons, Forall_nil. tauto.
Qed.

Lemma searchError_None : searchError w = None <-> confirmButton w = true.
Proof. unfold searchError. destruct (confirmButton w); naive_solver. Qed.

Lemma confirmError_None :
  confirmError w = None
  <-> profileSleep w = None ∧ confirmButton w = true
      ∧ confirmClick w = None ∧ confirmSleep w = None.
Proof.
  unfold confirmError.
  rewrite fmap_None, firstError_None, !Forall_cons, Forall_nil, searchError_None. tauto.
Qed.

Lemma resultsWaitError_None :
  resultsWaitError w = None <-> ∃ passes t, pollCards (ticks w) 0 0 = CardsFound passes t.
Proof.
  unfold resultsWaitError. destruct (pollCards (ticks w) 0 0) as [n t|n t|n t e].
  - split; [eauto|done].
  - split; [done|]. by intros (? & ? & ?).
  - split; [done|]. by intros (? & ? & ?).
Qed.

Lemma cardDataError_None : cardDataError w = None <-> ∃ data, cardData w = Ok data.
Proof.
  unfold cardDataError. destruct (cardData w) as [data|e].
  - split; [eauto|done].
  - split; [done|]. by intros (? & ?).
Qed.

Lemma debugError_None : debugError w = None <-> (debugScrape w = true -> debugDump w = None).
Proof. unfold debugError. destruct (debugScrape w); naive_solver. Qed.

Lemma verdict_completes : verdict w = None <-> completes w.
Proof.
  unfold verdict, completes, bodyError.
  rewrite firstError_None, !Forall_cons, Forall_nil.
  rewrite fmap_None, firstError_None, !Forall_cons, Forall_nil.
  rewrite revealError_None, usernameError_None, continueError_None, confirmError_None,
    resultsWaitError_None, cardDataError_None, debugError_None.
  tauto.
Qed.

(** The outcome of [scrape] is the verdict. *)
Lemma scrape_verdict store :
  match verdict w with
  | Some e => (scrape username onStep w store).2 = Throw e
  | None => ∃ r, (scrape username onStep w store).2 = Ok r
  end.
Proof. exact (scrapeM_decided (initialRun store)). Qed.

Lemma scrape_throws store e :
  verdict w = Some e -> (scrape username onStep w store).2 = Throw e.
Proof. intros He. pose proof (scrape_verdict store) as H. by rewrite He in H. Qed.
End WithWorld.
End RunOutcome.

(** ** Fatal stages *)

Module AbortProps.
Import Js Text TextProps Scrape RunLogic Timing PollProps CaptureProps RunVerdict RunOutcome.
Local Open Scope nat_scope.

Section WithWorld.
Variable w : World.

(** The error of the [try] block, thrown on by the [catch] unless
    closing the browser fails. *)
Lemma verdict_body e :
  launch w = None -> newPage w = None -> bodyError w = Some e ->
  verdict w = Some (default e (closeAfterError w)).
Proof. intros Hl Hn He. unfold verdict. by rewrite Hl, Hn, He. Qed.

Lemma reveal_verdict :
  reachesReveal w ->
  revealWait w ≠ None ∨ revealClick w ≠ None ->
  bodyError w = Some match buttonsOnPage w with
                     | Ok texts => revealMessage (buttonLabels texts)
                     | Throw e => e
                     end.
Proof.
  intros (Hl & Hn & Hg) Hfail. unfold bodyError, revealError. rewrite Hg.
  destruct (revealWait w), (revealClick w); try (destruct Hfail; congruence); done.
Qed.

Lemma username_verdict :
  reachesUsername w ->
  inputWait w ≠ None ∨ inputFill w ≠ None ->
  bodyError w = Some match inputsOnPage w with
                     | Ok inputs => inputMessage inputs
                     | Throw e => e
                     end.
Proof.
  intros ((Hl & Hn & Hg) & Hr1 & Hr2) Hfail.
  unfold bodyError, revealError, usernameError. rewrite Hg, Hr1, Hr2.
  destruct (inputWait w), (inputFill w); try (destruct Hfail; congruence); done.
Qed.

Lemma confirm_verdict :
  reachesConfirm w ->
  confirmButton w = false ->
  bodyError w = Some (confirmMessage match debugButtons w with
                                     | Ok _ => noConfirmButton
                                     | Throw e => e
                                     end).
Proof.
  intros (((Hl & Hn & Hg) & Hr1 & Hr2) & Hi1 & Hi2 & Hc1 & Hc2 & Hc3 & Hp) Hno.
  unfold bodyError, revealError, usernameError, continueError, confirmError, searchError.
  by rewrite Hg, Hr1, Hr2, Hi1, Hi2, Hc1, Hc2, Hc3, Hp, Hno.
Qed.

Lemma resultsWait_verdict :
  reachesResultsWait w ->
  (∀ passes t, pollCards (ticks w) 0 0 ≠ CardsFound passes t) ->
  bodyError w = Some match pollCards (ticks w) 0 0 with
                     | SleepFailed _ _ e => e
                     | _ => timeoutMessage
                     end.
Proof.
  intros ((((Hl & Hn & Hg) & Hr1 & Hr2) & Hi1 & Hi2 & Hc1 & Hc2 & Hc3 & Hp)
          & Hyes & Hclick & Hsleep) Hno.
  unfold bodyError, revealError, usernameError, continueError, confirmError, searchError,
    resultsWaitError.
  rewrite Hg, Hr1, Hr2, Hi1, Hi2, Hc1, Hc2, Hc3, Hp, Hyes, Hclick, Hsleep.
  cbn [firstError fmap option_fmap option_map].
  destruct (pollCards (ticks w) 0 0) as [j t|j t|j t e] eqn:E; [by destruct (Hno j t)|done..].
Qed.
End WithWorld.

Lemma stageResultsWait_outcome w st :
  stageResultsWait w st =
    (st, match pollCards (ticks w) 0 0 with
         | CardsFound _ _ => Ok tt
         | GaveUp _ _ => Throw timeoutMessage
         | SleepFailed _ _ e => Throw e
         end).
Proof. unfold stageResultsWait. by destruct (pollCards _ _ _). Qed.

Lemma passStart_succ ticks k :
  passStart ticks (S k)
  = (passStart ticks k + Z.of_N (evalMs (ticks k)) + sleepMs (ticks k))%Z.
Proof. unfold passStart. by rewrite elapsedAfter_snoc. Qed.

Lemma passStart_mono ticks j n : (passStart ticks j ≤ passStart ticks (j + n))%Z.
Proof.
  induction n as [|n IH]; [by rewrite Nat.add_0_r|].
  replace (j + S n) with (S (j + n)) by lia. rewrite passStart_succ.
  unfold sleepMs, pollInterval. lia.
Qed.

Lemma never_ready_never_found ticks :
  (∀ k, tickReady (ticks k) = false) ->
  ∀ passes t, pollCards ticks 0 0 ≠ CardsFound passes t.
Proof.
  intros Hnever passes t Hres. destruct (pollCards_post ticks 0 0%Z) as (n & _ & Hend).
  rewrite Hres in Hend. destruct Hend as (-> & Hrdy & _). simpl in Hrdy.
  by rewrite Hnever in Hrdy.
Qed.

Lemma never_ready_gives_up ticks :
  (∀ k, tickReady (ticks k) = false) -> (∀ k, sleepError (ticks k) = None) ->
  ∃ passes t, pollCards ticks 0 0 = GaveUp passes t.
Proof.
  intros Hnever Hsleep. destruct (pollCards_post ticks 0 0%Z) as (n & _ & Hend).
  destruct (pollCards ticks 0 0%Z) as [j t|j t|j t e] eqn:Hres; [|eauto|].
  - by destruct (never_ready_never_found ticks Hnever j t).
  - destruct Hend as (-> & _ & Hs & _). simpl in Hs. by rewrite Hsleep in Hs.
Qed.

(** C5, amended.  The wait for the result cards is a polling loop that
    is bounded in its passes.  For every sequence of passes the page and
    the clock can produce, the loop ends after at most 600 passes: with
    the cards found, or given up, or by the error of a sleep.  Every
    pass it makes begins less than [maxWaitTime] = 60000 ms after the
    start; between the check of one pass and the beginning of the next
    lie at least [pollInterval] = 100 ms of sleep.  The check succeeds
    exactly when some selected element has positive width and height.
    The loop reports success at the first pass whose check succeeds,
    provided that pass begins before the deadline and no sleep before
    it is rejected.  It gives up at the first test of the deadline that
    finds the clock at or past 60000 ms: that is when the last pass,
    which began before the deadline, has run its check and its sleep to
    their end, however long they take.  Giving up throws
    'Cards did not appear within timeout period' and a rejected sleep
    throws its own error; either ends the run of [scrape] with an
    error. *)
Theorem C5_results_wait_is_bounded (ticks : nat -> Tick) :
  ∃ passes t,
    (pollCards ticks 0 0 = CardsFound passes t ∨ pollCards ticks 0 0 = GaveUp passes t
     ∨ ∃ msg, pollCards ticks 0 0 = SleepFailed passes t msg)
    ∧ passes ≤ 600
    ∧ (∀ k, k < passes ->
         tickReady (ticks k) = false ∧ sleepError (ticks k) = None
         ∧ (passStart ticks k < maxWaitTime)%Z)
    ∧ (∀ k, (passStart ticks k + Z.of_N (evalMs (ticks k)) + pollInterval
             ≤ passStart ticks (S k))%Z)
    ∧ (pollCards ticks 0 0 = CardsFound passes t ->
         tickReady (ticks passes) = true
         ∧ (passStart ticks passes < maxWaitTime)%Z
         ∧ t = (passStart ticks passes + Z.of_N (evalMs (ticks passes)))%Z)
    ∧ (pollCards ticks 0 0 = GaveUp passes t ->
         t = passStart ticks passes ∧ (maxWaitTime ≤ t)%Z
         ∧ ∃ last, passes = S last
             ∧ (passStart ticks last < maxWaitTime)%Z
             ∧ t = (passStart ticks last + Z.of_N (evalMs (ticks last))
                    + pollInterval + Z.of_N (oversleepMs (ticks last)))%Z)
    ∧ (∀ msg, pollCards ticks 0 0 = SleepFailed passes t msg ->
         tickReady (ticks passes) = false ∧ sleepError (ticks passes) = Some msg
         ∧ (passStart ticks passes < maxWaitTime)%Z
         ∧ t = (passStart ticks passes + Z.of_N (evalMs (ticks passes)))%Z)
    ∧ (∀ j, tickReady (ticks j) = true ->
            (∀ k, k < j -> tickReady (ticks k) = false ∧ sleepError (ticks k) = None) ->
            (passStart ticks j < maxWaitTime)%Z ->
            passes = j ∧ pollCards ticks 0 0 = CardsFound passes t)
    ∧ ((∀ k, tickReady (ticks k) = false) -> (∀ k, sleepError (ticks k) = None) ->
       pollCards ticks 0 0 = GaveUp passes t)
    ∧ (∀ tk, tickReady tk = true <->
             ∃ rects r, cardRects tk = Ok rects ∧ r ∈ rects
                        ∧ (0 < width r)%Z ∧ (0 < height r)%Z)
    ∧ (∀ username onStep w store,
         Scrape.ticks w = ticks ->
         (∀ st, stageResultsWait w st =
                  (st, match pollCards ticks 0 0 with
                       | CardsFound _ _ => Ok tt
                       | GaveUp _ _ => Throw timeoutMessage
                       | SleepFailed _ _ e => Throw e
                       end))
         ∧ (reachesResultsWait w ->
            (∀ j t', pollCards ticks 0 0 ≠ CardsFound j t') ->
            (∃ e, (scrape username onStep w store).2 = Throw e)
            ∧ (closeAfterError w = None ->
               (scrape username onStep w store).2
               = Throw match pollCards ticks 0 0 with
                       | SleepFailed _ _ e => e
                       | _ => timeoutMessage
                       end))).
Proof.
  destruct (pollCards_post ticks 0 0%Z) as (n & Hbefore & Hend).
  fold (passStart ticks n) in Hend.
  assert (Hbound : ∀ m, m < n -> m < 600).
  { intros m Hm. destruct (Hbefore m Hm) as (_ & _ & Hlt).
    pose proof (elapsedAfter_lower ticks 0 0%Z m). unfold pollInterval, maxWaitTime in *. lia. }
  assert (Hn : n ≤ 600).
  { destruct n as [|n]; [lia|]. specialize (Hbound n). lia. }
  assert (Hready : ∀ tk, tickReady tk = true <->
             ∃ rects r, cardRects tk = Ok rects ∧ r ∈ rects
                        ∧ (0 < width r)%Z ∧ (0 < height r)%Z).
  { intros tk. unfold tickReady. destruct (cardRects tk) as [rects|e].
    - rewrite cardsVisible_spec. split.
      + intros (r & ?). by exists rects, r.
      + intros (rects' & r & [= <-] & ?). by exists r.
    - split; [done|]. by intros (? & ? & ? & _). }
  assert (Hgap : ∀ k, (passStart ticks k + Z.of_N (evalMs (ticks k)) + pollInterval
                       ≤ passStart ticks (S k))%Z).
  { intros k. rewrite passStart_succ. unfold sleepMs. lia. }
  assert (Hrun : ∀ username onStep w store, Scrape.ticks w = ticks ->
            (∀ st, stageResultsWait w st =
                     (st, match pollCards ticks 0 0 with
                          | CardsFound _ _ => Ok tt
                          | GaveUp _ _ => Throw timeoutMessage
                          | SleepFailed _ _ e => Throw e
                          end))
            ∧ (reachesResultsWait w ->
               (∀ j t', pollCards ticks 0 0 ≠ CardsFound j t') ->
               (∃ e, (scrape username onStep w store).2 = Throw e)
               ∧ (closeAfterError w = None ->
                  (scrape username onStep w store).2
                  = Throw match pollCards ticks 0 0 with
                          | SleepFailed _ _ e => e
                          | _ => timeoutMessage
                          end))).
  { intros username onStep w store <-.
    split; [intros st; apply stageResultsWait_outcome|].
    intros Hreach Hno.
    pose proof (resultsWait_verdict w Hreach Hno) as Hbody.
    destruct Hreach as ((((Hl & Hnp & _) & _) & _) & _).
    pose proof (verdict_body w _ Hl Hnp Hbody) as Hv.
    split; [eexists; by apply scrape_throws|].
    intros Hclose. rewrite Hclose in Hv. by apply scrape_throws. }
  destruct (pollCards ticks 0 0%Z) as [j t|j t|j t e] eqn:Hres.
  - destruct Hend as (-> & Hrdy & Hlt & ->). simpl in *.
    exists n, (passStart ticks n + Z.of_N (evalMs (ticks n)))%Z.
    split; [by left|]. split; [done|]. split; [apply Hbefore|].
    split; [done|]. split; [done|]. split; [done|]. split; [done|].
    split; [|split; [|split; [done|done]]].
    + intros j Hj Hfirst Hstart. split; [|done].
      destruct (Nat.lt_trichotomy n j) as [Hlt'|[->|Hgt]]; [|done|].
      * destruct (Hfirst n Hlt') as [Hf _]. congruence.
      * destruct (Hbefore j Hgt) as [Hf _]. simpl in Hf. congruence.
    + intros Hnever. rewrite Hnever in Hrdy. done.
  - destruct Hend as (-> & -> & Hge). simpl in *.
    exists n, (passStart ticks n). split; [right; by left|]. split; [done|].
    split; [apply Hbefore|]. split; [done|]. split; [done|].
    split; [|split; [done|split; [|split; [done|split; [done|done]]]]].
    + intros _. split; [done|]. split; [done|].
      destruct n as [|last].
      { unfold passStart, maxWaitTime in Hge. simpl in Hge. lia. }
      exists last. split; [done|]. destruct (Hbefore last) as (_ & _ & Hlt); [lia|].
      split; [exact Hlt|]. rewrite passStart_succ. unfold sleepMs. lia.
    + intros j Hj Hfirst Hstart. exfalso.
      destruct (Nat.lt_ge_cases j n) as [Hlt'|Hge'].
      * destruct (Hbefore j Hlt') as [Hf _]. simpl in Hf. congruence.
      * pose proof (passStart_mono ticks n (j - n)) as Hm.
        replace (n + (j - n)) with j in Hm by lia. lia.
  - destruct Hend as (-> & Hrdy & Hs & Hlt & ->). simpl in *.
    exists n, (passStart ticks n + Z.of_N (evalMs (ticks n)))%Z.
    split; [right; right; by exists e|]. split; [done|]. split; [apply Hbefore|].
    split; [done|]. split; [done|]. split; [done|].
    split; [by intros msg [= <-]|].
    split; [|split; [|split; [done|done]]].
    + intros j Hj Hfirst Hstart. exfalso.
      destruct (Nat.lt_trichotomy n j) as [Hlt'|[->|Hgt]].
      * destruct (Hfirst n Hlt') as [_ Hf]. congruence.
      * congruence.
      * destruct (Hbefore j Hgt) as [Hf _]. simpl in Hf. congruence.
    + intros _ Hsleep. rewrite Hsleep in Hs. done.
Qed.

Lemma C5_never_ready_gives_up :
  pollCards (ticks RunSamples.timeoutWorld) 0 0 = GaveUp 600 60000
  ∧ (scrape "bob" false RunSamples.timeoutWorld Mongo.emptyDb).2 = Throw timeoutMessage.
Proof.
  destruct (C5_results_wait_is_bounded (ticks RunSamples.timeoutWorld))
    as (passes & t & _ & _ & _ & _ & _ & _ & _ & _ & Hnever & _ & Hrun).
  assert (Hidle : ∀ k, tickReady (ticks RunSamples.timeoutWorld k) = false)
    by (intros k; reflexivity).
  assert (Hawake : ∀ k, sleepError (ticks RunSamples.timeoutWorld k) = None)
    by (intros k; reflexivity).
  specialize (Hnever Hidle Hawake).
  assert (E : pollCards (ticks RunSamples.timeoutWorld) 0 0 = GaveUp 600 60000)
    by (vm_compute; reflexivity).
  split; [exact E|].
  destruct (Hrun "bob" false RunSamples.timeoutWorld Mongo.emptyDb eq_refl) as [_ Habort].
  destruct Habort as [_ Hmsg].
  - vm_compute. repeat split.
  - intros j t' Hfound. rewrite E in Hfound. discriminate.
  - rewrite E in Hmsg. by apply Hmsg.
Defined.

(** C5, as stated, fails: a check that the page answers after ninety
    seconds begins before the deadline, and the loop ends when it and
    the sleep behind it are over, half a minute after the 60 seconds. *)
Lemma C5_slow_check_ends_after_the_deadline :
  (passStart (ticks RunSamples.slowWorld) 0 < maxWaitTime)%Z
  ∧ pollCards (ticks RunSamples.slowWorld) 0 0 = GaveUp 1 90100
  ∧ (maxWaitTime < 90100)%Z
  ∧ (scrape "bob" false RunSamples.slowWorld Mongo.emptyDb).2 = Throw timeoutMessage.
Proof. vm_compute. repeat split. Qed.

Lemma revealMessage_lists labels l :
  l ∈ labels -> includes l (revealMessage labels) = true.
Proof.
  intros Hl. unfold revealMessage.
  rewrite <- !TextProps.app_assoc, <- (app_nil_r (join ", " labels)).
  by apply includes_join.
Qed.

Lemma inputMessage_lists inputs i :
  i ∈ inputs -> includes (jsonInput i) (inputMessage inputs) = true.
Proof.
  intros Hi. unfold inputMessage, jsonInputs.
  rewrite <- (TextProps.app_assoc _ "["). apply includes_join.
  apply list_elem_of_fmap. eauto.
Qed.

(** C4, amended.  A readiness failure of a hard stage aborts the whole
    run with an error; what the error says depends on the stage and on
    the page still answering.  When the trigger button does not show or
    cannot be clicked, the message is
    'Could not find "Reveal Stalkers" button. Available buttons: '
    followed by the labels of the buttons on the page, each of which
    occurs in it.  When the username input does not show or cannot be
    filled, the message is
    'Could not find username input. Available inputs: ' followed by the
    JSON text of the inputs on the page, each of which occurs in it.
    When no confirmation button is found, the message is the fixed text
    'Could not find profile confirmation button: No profile confirmation
    button found', whatever buttons are on the page.  When the cards do
    not show before the deadline and no sleep of the wait is rejected,
    the message is the fixed text
    'Cards did not appear within timeout period'.  When the query for
    the buttons or inputs fails, its error is thrown in place of the
    message (behind 'Could not find profile confirmation button: ' in
    the confirmation stage); when a sleep of the wait is rejected, its
    error is thrown; and when closing the browser fails in the catch
    block, the error of the closing is thrown in place of any of
    these. *)
Theorem C4_hard_stage_failure_aborts (username : string) (onStep : bool)
    (w : World) (store : Mongo.Db) :
  let outcome := (scrape username onStep w store).2 in
  (reachesReveal w -> revealWait w ≠ None ∨ revealClick w ≠ None ->
     (∃ e, outcome = Throw e)
     ∧ (∀ texts, buttonsOnPage w = Ok texts -> closeAfterError w = None ->
          outcome = Throw (revealMessage (buttonLabels texts))
          ∧ ∀ l, l ∈ buttonLabels texts ->
                 includes l (revealMessage (buttonLabels texts)) = true)
     ∧ (∀ e, buttonsOnPage w = Throw e -> closeAfterError w = None -> outcome = Throw e)
     ∧ (∀ e, closeAfterError w = Some e -> outcome = Throw e))
  ∧ (reachesUsername w -> inputWait w ≠ None ∨ inputFill w ≠ None ->
     (∃ e, outcome = Throw e)
     ∧ (∀ inputs, inputsOnPage w = Ok inputs -> closeAfterError w = None ->
          outcome = Throw (inputMessage inputs)
          ∧ ∀ i, i ∈ inputs -> includes (jsonInput i) (inputMessage inputs) = true)
     ∧ (∀ e, inputsOnPage w = Throw e -> closeAfterError w = None -> outcome = Throw e)
     ∧ (∀ e, closeAfterError w = Some e -> outcome = Throw e))
  ∧ (reachesConfirm w -> confirmButton w = false ->
     (∃ e, outcome = Throw e)
     ∧ (∀ present, debugButtons w = Ok present -> closeAfterError w = None ->
          outcome
          = Throw "Could not find profile confirmation button: No profile confirmation button found")
     ∧ (∀ e, debugButtons w = Throw e -> closeAfterError w = None ->
          outcome = Throw ("Could not find profile confirmation button: " +:+ e))
     ∧ (∀ e, closeAfterError w = Some e -> outcome = Throw e))
  ∧ (reachesResultsWait w -> (∀ k, tickReady (ticks w k) = false) ->
     (∃ e, outcome = Throw e)
     ∧ ((∀ k, sleepError (ticks w k) = None) -> closeAfterError w = None ->
        outcome = Throw "Cards did not appear within timeout period")
     ∧ (∀ passes t e, pollCards (ticks w) 0 0 = SleepFailed passes t e ->
          closeAfterError w = None -> outcome = Throw e)
     ∧ (∀ e, closeAfterError w = Some e -> outcome = Throw e)).
Proof.
  intros outcome.
  assert (Hall : ∀ b, launch w = None -> newPage w = None -> bodyError w = Some b ->
            (∃ e, outcome = Throw e)
            ∧ (closeAfterError w = None -> outcome = Throw b)
            ∧ (∀ e, closeAfterError w = Some e -> outcome = Throw e)).
  { intros b Hl Hn Hb. pose proof (verdict_body w b Hl Hn Hb) as Hv.
    split; [eexists; by apply scrape_throws|]. split.
    - intros Hc. rewrite Hc in Hv. by apply scrape_throws.
    - intros e Hc. rewrite Hc in Hv. by apply scrape_throws. }
  repeat apply conj.
  - intros Hreach Hfail. pose proof (reveal_verdict w Hreach Hfail) as Hb.
    destruct Hreach as (Hl & Hn & _).
    destruct (Hall _ Hl Hn Hb) as (Habort & Hmsg & Hclose).
    split; [done|]. split; [|split; [|done]].
    + intros texts Ht Hc. rewrite Ht in Hmsg. split; [by apply Hmsg|].
      intros l. apply revealMessage_lists.
    + intros e He Hc. rewrite He in Hmsg. by apply Hmsg.
  - intros Hreach Hfail. pose proof (username_verdict w Hreach Hfail) as Hb.
    destruct Hreach as ((Hl & Hn & _) & _).
    destruct (Hall _ Hl Hn Hb) as (Habort & Hmsg & Hclose).
    split; [done|]. split; [|split; [|done]].
    + intros inputs Hi Hc. rewrite Hi in Hmsg. split; [by apply Hmsg|].
      intros i. apply inputMessage_lists.
    + intros e He Hc. rewrite He in Hmsg. by apply Hmsg.
  - intros Hreach Hno. pose proof (confirm_verdict w Hreach Hno) as Hb.
    destruct Hreach as (((Hl & Hn & _) & _) & _).
    destruct (Hall _ Hl Hn Hb) as (Habort & Hmsg & Hclose).
    split; [done|]. split; [|split; [|done]].
    + intros present Hd Hc. rewrite Hd in Hmsg. by apply Hmsg.
    + intros e He Hc. rewrite He in Hmsg. by apply Hmsg.
  - intros Hreach Hnever.
    pose proof (resultsWait_verdict w Hreach (never_ready_never_found _ Hnever)) as Hb.
    destruct Hreach as ((((Hl & Hn & _) & _) & _) & _).
    destruct (Hall _ Hl Hn Hb) as (Habort & Hmsg & Hclose).
    split; [done|]. split; [|split; [|done]].
    + intros Hsleep Hc.
      destruct (never_ready_gives_up _ Hnever Hsleep) as (passes & t & Hgave).
      rewrite Hgave in Hmsg. by apply Hmsg.
    + intros passes t e Hp Hc. rewrite Hp in Hmsg. by apply Hmsg.
Qed.

Lemma C4_missing_input_message :
  (scrape "bob" false RunSamples.noInputWorld Mongo.emptyDb).2
  = Throw (inputMessage [RunSamples.textInput])
  ∧ includes (jsonInput RunSamples.textInput) (inputMessage [RunSamples.textInput]) = true
  ∧ (scrape "bob" false RunSamples.noCloseWorld Mongo.emptyDb).2
    = Throw "browser.close: Target closed"
  ∧ (scrape "bob" false RunSamples.closedWorld Mongo.emptyDb).2 = Throw "Target closed".
Proof.
  destruct (C4_hard_stage_failure_aborts "bob" false RunSamples.noInputWorld Mongo.emptyDb)
    as (_ & H & _).
  destruct H as (_ & Hmsg & _).
  { vm_compute. repeat split. }
  { left. vm_compute. congruence. }
  destruct (Hmsg [RunSamples.textInput] eq_refl eq_refl) as [Hrun Hlist].
  split; [exact Hrun|]. split; [apply Hlist; by left|].
  split.
  - destruct (C4_hard_stage_failure_aborts "bob" false RunSamples.noCloseWorld Mongo.emptyDb)
      as (_ & H & _).
    destruct H as (_ & _ & _ & Hclose).
    { vm_compute. repeat split. }
    { left. vm_compute. congruence. }
    by apply Hclose.
  - destruct (C4_hard_stage_failure_aborts "bob" false RunSamples.closedWorld Mongo.emptyDb)
      as (_ & _ & _ & H).
    destruct H as (_ & _ & Hsleep & _).
    { vm_compute. repeat split. }
    { intros k. reflexivity. }
    apply (Hsleep 2 (passStart RunSamples.ticksClosed 2 + 3)%Z); [|reflexivity].
    vm_compute. reflexivity.
Defined.

(** C4, as stated, fails: a hidden button is on the page when the
    confirmation stage gives up, and the error names no element. *)
Lemma C4_confirm_message_lists_nothing :
  debugButtons RunSamples.noConfirmWorld = Ok ["Help"]
  ∧ (scrape "bob" false RunSamples.noConfirmWorld Mongo.emptyDb).2
    = Throw "Could not find profile confirmation button: No profile confirmation button found"
  ∧ includes "Help"
      "Could not find profile confirmation button: No profile confirmation button found"
    = false.
Proof. vm_compute. repeat split. Qed.
End AbortProps.

(** ** The snapshot store *)

Module StoreProps.
Import Js Server Mongo StoreOps StoreOrder.
Local Open Scope Z_scope.

Lemma updateFirst_ids sel f ds :
  (∀ d, _id (f d) = _id d) -> map _id (updateFirst sel f ds) = map _id ds.
Proof.
  intros Hf. induction ds as [|d ds IH]; simpl; [done|].
  destruct (sel d); simpl; [by rewrite Hf|by rewrite IH].
Qed.

Lemma updateFirst_elem sel f ds d' :
  d' ∈ updateFirst sel f ds -> d' ∈ ds ∨ ∃ d, d ∈ ds ∧ sel d = true ∧ d' = f d.
Proof.
  induction ds as [|d ds IH]; simpl; [by left|].
  destruct (sel d) eqn:E.
  - intros [->|H]%elem_of_cons; [right; exists d|left]; set_solver.
  - intros [->|H]%elem_of_cons; [left; set_solver|].
    destruct (IH H) as [?|(d0 & ? & ? & ?)]; [left|right; exists d0]; set_solver.
Qed.

Lemma updateFirst_nil sel f ds : updateFirst sel f ds = [] <-> ds = [].
Proof. destruct ds as [|d ds]; simpl; [done|]. by destruct (sel d). Qed.

Lemma unique_id ds d d' :
  NoDup (map _id ds) -> d ∈ ds -> d' ∈ ds -> _id d = _id d' -> d = d'.
Proof.
  induction ds as [|x ds IH]; [by intros _ ?%elem_of_nil|].
  cbn [map]. intros [Hx Hnd]%NoDup_cons [->|Hd]%elem_of_cons [->|Hd']%elem_of_cons Hid.
  - done.
  - destruct Hx. rewrite Hid. apply list_elem_of_fmap. eauto.
  - destruct Hx. rewrite <- Hid. apply list_elem_of_fmap. eauto.
  - by apply IH.
Qed.

Ltac store_cases db fault :=
  unfold saveSnapshotStep, saveSnapshotResult, getSnapshotStep, getSnapshotByRunId,
    getRecentSnapshot, connectDB, upsertStep, setupTTLIndex, withDocs;
  destruct (client db) eqn:?, fault; cbn [negb fst snd docs nextId client ttlIndex];
  repeat match goal with
    | |- context [existsb ?f ?l] => destruct (existsb f l) eqn:?
    | |- context [List.find ?f ?l] => destruct (List.find f l) eqn:?
    end;
  cbn [negb fst snd docs nextId client ttlIndex].

Lemma connectDB_docs fault db :
  docs (connectDB fault db).1 = docs db ∧ nextId (connectDB fault db).1 = nextId db.
Proof. unfold connectDB. by destruct (client db), fault. Qed.

Lemma connectDB_ok fault db :
  (connectDB fault db).2 = false <-> client db = false ∧ fault = Unreachable.
Proof. unfold connectDB. destruct (client db), fault; simpl; naive_solver. Qed.

(** What a call does to the link: nothing when a client is held or the
    server is out of reach; else a client is held afterwards, and the
    index is set up unless [createIndex] rejects. *)
Lemma connectDB_link fault db :
  let db' := (connectDB fault db).1 in
  if client db then client db' = true ∧ ttlIndex db' = ttlIndex db
  else match fault with
       | Unreachable => client db' = false ∧ ttlIndex db' = ttlIndex db
       | IndexRejects => client db' = true ∧ ttlIndex db' = ttlIndex db
       | _ => client db' = true
              ∧ ttlIndex db' = Some (default expireAfterSeconds (ttlIndex db))
       end.
Proof.
  unfold connectDB, setupTTLIndex.
  destruct (client db) eqn:Hc, fault, (ttlIndex db) eqn:Ht; cbn; rewrite ?Hc, ?Ht; done.
Qed.

(** The link after an operation is that of [connectDB], whatever the
    operation goes on to do. *)
Lemma applyOp_connect db op :
  client (applyOp db op) = match faultOf op with
                           | Some fault => client (connectDB fault db).1
                           | None => client db
                           end
  ∧ ttlIndex (applyOp db op) = match faultOf op with
                               | Some fault => ttlIndex (connectDB fault db).1
                               | None => ttlIndex db
                               end.
Proof.
  destruct op as [fault now user run name html meta|fault now user run cs
                 |fault id name|fault user run|fault now user maxAge|now];
    cbn [applyOp faultOf].
  1-5: store_cases db fault; done.
  unfold ttlMonitor. destruct (ttlIndex db) eqn:E; [|done]. unfold withDocs; cbn. by rewrite E.
Qed.

Lemma applyOp_link db op : linkStep db (applyOp db op).
Proof.
  destruct (applyOp_connect db op) as [Hc Ht]. unfold linkStep. rewrite Hc, Ht.
  destruct (faultOf op) as [fault|]; [|by left].
  pose proof (connectDB_link fault db) as H. cbv zeta in H.
  destruct (client db) eqn:Ec; [left; by destruct H|].
  destruct fault, (ttlIndex db) eqn:Et; destruct H as [H1 H2]; rewrite ?H1, ?H2;
    cbn [default from_option id]; auto 10.
Qed.

Lemma applyOp_docs db op : docsStep db (applyOp db op).
Proof.
  destruct op as [fault now user run name html meta|fault now user run cs
                 |fault id name|fault user run|fault now user maxAge|now]; cbn [applyOp].
  - store_cases db fault;
      first [ by apply docs_same
            | by eapply docs_updated
            | by eapply docs_inserted ].
  - store_cases db fault;
      first [ by apply docs_same | by eapply docs_updated ].
  - store_cases db fault; by apply docs_same.
  - store_cases db fault; by apply docs_same.
  - store_cases db fault; by apply docs_same.
  - unfold ttlMonitor. destruct (ttlIndex db) as [secs|] eqn:E; [|by apply docs_same].
    by eapply docs_expired.
Qed.

Lemma filter_sub {A} (f : A -> bool) l x : x ∈ List.filter f l -> x ∈ l.
Proof. rewrite !list_elem_of_In, filter_In. tauto. Qed.

Lemma applyOp_wellFormed db op : wellFormed db -> wellFormed (applyOp db op).
Proof.
  intros Hwf. pose proof (applyOp_docs db op) as Hdocs.
  destruct Hwf as (Hnd & Hlt).
  set (db' := applyOp db op) in *. split.
  - destruct Hdocs as [Hd _|sel f Hd _ Hf _|d Hd Hn Hid _|secs now Hi Hd _].
    + by rewrite Hd.
    + rewrite Hd, updateFirst_ids; [done|]. intros d. apply Hf.
    + rewrite Hd, map_app. apply NoDup_app. split; [done|]. split; [|apply NoDup_singleton].
      intros i Hi Hi'. cbn [map] in Hi'. apply list_elem_of_singleton in Hi' as ->.
      apply list_elem_of_fmap in Hi as (d0 & Hid0 & Hd0).
      specialize (Hlt d0 Hd0). lia.
    + rewrite Hd. clear -Hnd. induction (docs db) as [|d ds IH]; [done|].
      cbn [map] in Hnd. apply NoDup_cons in Hnd as [Hd Hnd]. simpl.
      destruct (negb _); [|by apply IH]. cbn [map]. apply NoDup_cons. split; [|by apply IH].
      intros (d0 & Hid & Hd0%filter_sub)%list_elem_of_fmap. apply Hd.
      apply list_elem_of_fmap. eauto.
  - intros d' Hd'.
    destruct Hdocs as [Hd Hn|sel f Hd Hn Hf _|d Hd Hn Hid _|secs now Hi Hd Hn]; rewrite Hn.
    + apply Hlt. by rewrite <- Hd.
    + rewrite Hd in Hd'. apply updateFirst_elem in Hd' as [?|(d0 & ? & _ & ->)]; [by apply Hlt|].
      destruct (Hf d0) as [-> _]. by apply Hlt.
    + rewrite Hd in Hd'. apply elem_of_app in Hd' as [Hold|Hnew].
      * specialize (Hlt d' Hold). lia.
      * apply list_elem_of_singleton in Hnew as ->. lia.
    + rewrite Hd in Hd'. apply filter_sub in Hd'. by apply Hlt.
Qed.

Lemma emptyDb_wellFormed : wellFormed emptyDb.
Proof. split; [constructor|by intros d ?%elem_of_nil]. Qed.

Lemma fold_wellFormed ops db : wellFormed db -> wellFormed (fold_left applyOp ops db).
Proof.
  revert db. induction ops as [|op ops IH]; intros db Hwf; [done|].
  simpl. by apply IH, applyOp_wellFormed.
Qed.

Lemma storeAfter_wellFormed ops : wellFormed (storeAfter ops).
Proof. apply fold_wellFormed, emptyDb_wellFormed. Qed.

(** An index found on the collection stays; where there was none,
    there is none or the one of 600 seconds. *)
Lemma fold_index ops db :
  ttlIndex (fold_left applyOp ops db) = ttlIndex db
  ∨ (ttlIndex db = None ∧ ttlIndex (fold_left applyOp ops db) = Some expireAfterSeconds).
Proof.
  revert db. induction ops as [|op ops IH]; intros db; [by left|]. simpl.
  destruct (applyOp_link db op) as [[_ Hi]|(_ & _ & [Hi|[Hn Hi]])].
  - rewrite <- Hi. apply IH.
  - rewrite <- Hi. apply IH.
  - right. split; [done|]. destruct (IH (applyOp db op)) as [->|[? _]]; congruence.
Qed.

(** Where a document of the store after an operation comes from. *)
Lemma applyOp_origin db op d' :
  d' ∈ docs (applyOp db op) ->
  (∃ d, d ∈ docs db ∧ _id d = _id d' ∧ createdAt d = createdAt d')
  ∨ (∃ fault now user run name html meta,
       op = SaveStep fault now user run name html meta
       ∧ createdAt d' = now ∧ matchesRun user run d' = true
       ∧ existsb (matchesRun user run) (docs db) = false
       ∧ _id d' = nextId db).
Proof.
  assert (Hupd : ∀ sel f, (∀ d, _id (f d) = _id d ∧ createdAt (f d) = createdAt d) ->
            d' ∈ updateFirst sel f (docs db) ->
            ∃ d, d ∈ docs db ∧ _id d = _id d' ∧ createdAt d = createdAt d').
  { intros sel f Hf [?|(d0 & ? & _ & ->)]%updateFirst_elem; [by exists d'|].
    exists d0. destruct (Hf d0) as [-> ->]. done. }
  destruct op as [fault now user run name html meta|fault now user run cs
                 |fault id name|fault user run|fault now user maxAge|now]; cbn [applyOp].
  - store_cases db fault; intros Hd'; try (left; by exists d');
      try (left; by eapply Hupd; [|exact Hd']).
    all: apply elem_of_app in Hd' as [?|Hnew]; [left; by exists d'|].
    all: apply list_elem_of_singleton in Hnew as ->.
    all: right; do 7 eexists; split; [done|]; unfold matchesRun;
      cbn [instagramUsername runId createdAt _id]; rewrite String.eqb_refl, Z.eqb_refl; done.
  - store_cases db fault; intros Hd'; try (left; by exists d');
      left; by eapply Hupd; [|exact Hd'].
  - store_cases db fault; intros Hd'; left; by exists d'.
  - store_cases db fault; intros Hd'; left; by exists d'.
  - store_cases db fault; intros Hd'; left; by exists d'.
  - unfold ttlMonitor, withDocs. destruct (ttlIndex db); cbn [docs]; intros Hd'; left;
      exists d'; (split; [|done]); first [done|by eapply filter_sub].
Qed.

Lemma newest_elem ds r : newest ds = Some r -> r ∈ ds.
Proof.
  revert r. induction ds as [|d ds IH]; intros r; simpl; [done|].
  destruct (newest ds) as [e|].
  - destruct (createdAt d <? createdAt e)%Z; intros [= <-]; [right; by apply IH|by left].
  - intros [= <-]. by left.
Qed.

Lemma find_elem {A} (f : A -> bool) l x : List.find f l = Some x -> x ∈ l ∧ f x = true.
Proof. intros H%find_some. by rewrite list_elem_of_In. Qed.

Lemma ttlMonitor_at now db secs d :
  ttlIndex db = Some secs -> d ∈ docs db ->
  (d ∈ docs (ttlMonitor now db) <-> (now < createdAt d + secs * 1000)%Z).
Proof.
  intros Hidx Hd. unfold ttlMonitor. rewrite Hidx.
  unfold withDocs. cbn [docs]. rewrite list_elem_of_In, filter_In, <- list_elem_of_In.
  unfold expired. rewrite negb_true_iff, Z.leb_gt. tauto.
Qed.

Lemma ttlMonitor_docs now db d :
  ttlIndex db = Some expireAfterSeconds -> d ∈ docs db ->
  (d ∈ docs (ttlMonitor now db) <-> (now < expiresAt d)%Z).
Proof. apply ttlMonitor_at. Qed.

Lemma ttlMonitor_none now db : ttlIndex db = None -> ttlMonitor now db = db.
Proof. intros H. unfold ttlMonitor. by rewrite H. Qed.

Lemma ttlMonitor_sub now db d : d ∈ docs (ttlMonitor now db) -> d ∈ docs db.
Proof.
  unfold ttlMonitor, withDocs. destruct (ttlIndex db); cbn [docs]; [apply filter_sub|done].
Qed.

Lemma isRead_docs db op : isRead op = true -> docs (applyOp db op) = docs db.
Proof.
  destruct op as [| |fault id name|fault user run|fault now user maxAge|]; try done; intros _;
    cbn [applyOp]; by store_cases db fault.
Qed.

Lemma getSnapshotStep_absent fault id name db :
  (∀ d, d ∈ docs db -> _id d ≠ id) -> (getSnapshotStep fault id name db).2 = None.
Proof.
  intros Habs.
  assert (List.find (λ d, (_id d =? id)%nat) (docs db) = None) as Hfind.
  { destruct (List.find _ _) as [x|] eqn:E; [|done].
    apply find_elem in E as [Hx Hid%Nat.eqb_eq]. by destruct (Habs x Hx). }
  unfold getSnapshotStep, connectDB, setupTTLIndex.
  destruct (client db), fault; cbn [negb fst snd docs]; by rewrite ?Hfind.
Qed.

Lemma getRecentSnapshot_elem fault now user maxAge db r :
  (getRecentSnapshot fault now user maxAge db).2 = Some r ->
  r ∈ docs db
  ∧ instagramUsername r = user ∧ status r = Completed
  ∧ (now - maxAge * 60 * 1000 ≤ createdAt r)%Z.
Proof.
  assert (Hin : ∀ ds, newest (List.filter (recentFilter user (now - maxAge * 60 * 1000)) ds)
                      = Some r ->
            r ∈ ds ∧ instagramUsername r = user ∧ status r = Completed
            ∧ (now - maxAge * 60 * 1000 ≤ createdAt r)%Z).
  { intros ds Hn%newest_elem. apply list_elem_of_In, filter_In in Hn as [Hr Hf].
    rewrite <- list_elem_of_In in Hr. split; [done|]. unfold recentFilter in Hf.
    apply andb_true_iff in Hf as [[Hu Hc]%andb_true_iff Hs].
    apply String.eqb_eq in Hu. apply Z.leb_le in Hc.
    destruct (status r); [done|]. done. }
  unfold getRecentSnapshot, connectDB, setupTTLIndex.
  destruct (client db), fault; cbn [negb fst snd docs]; try done; apply Hin.
Qed.

Lemma find_app_l {A} (sel : A -> bool) l1 l2 :
  List.find sel (l1 ++ l2) =
    match List.find sel l1 with
    | Some x => Some x
    | None => List.find sel l2
    end.
Proof. induction l1 as [|x l1 IH]; simpl; [done|]. by destruct (sel x). Qed.

Lemma find_existsb {A} (sel : A -> bool) l :
  existsb sel l = bool_decide (is_Some (List.find sel l)).
Proof.
  induction l as [|x l IH]; simpl; [done|].
  by destruct (sel x).
Qed.

Lemma find_updateFirst sel (f : Doc -> Doc) l :
  (∀ d, sel (f d) = sel d) ->
  List.find sel (updateFirst sel f l) = f <$> List.find sel l.
Proof.
  intros Hf. induction l as [|x l IH]; simpl; [done|].
  destruct (sel x) eqn:E; simpl.
  - by rewrite Hf, E.
  - by rewrite E.
Qed.

Lemma updateFirst_other sel (f : Doc -> Doc) l d :
  sel d = false -> (∀ x, sel (f x) = sel x) ->
  d ∈ updateFirst sel f l <-> d ∈ l.
Proof.
  intros Hd Hf. induction l as [|x l IH]; simpl; [done|].
  destruct (sel x) eqn:E.
  - rewrite !elem_of_cons. split; intros [->|?]; auto.
    + rewrite Hf in Hd. congruence.
    + congruence.
  - rewrite !elem_of_cons, IH. done.
Qed.

Lemma updateFirst_found sel (f : Doc -> Doc) l d :
  List.find sel l = Some d -> f d ∈ updateFirst sel f l.
Proof.
  induction l as [|x l IH]; simpl; [done|].
  destruct (sel x) eqn:E.
  - intros [= ->]. by left.
  - intros H. right. by apply IH.
Qed.

Lemma updateFirst_none sel (f : Doc -> Doc) l :
  List.find sel l = None -> updateFirst sel f l = l.
Proof.
  induction l as [|x l IH]; simpl; [done|].
  destruct (sel x) eqn:E; [done|]. intros H. by rewrite IH.
Qed.

(** What a successful [saveSnapshotStep] has done to the store. *)
Lemma saveSnapshotStep_done fault now user run name html meta db db' sd sid :
  saveSnapshotStep fault now user run name html meta db = (db', Some (sd, sid)) ->
  sd = {| stepName := name; stepHtml := html; capturedAt := now;
          stepMeta := {| metaFields := meta; metaCapturedAt := now |} |}
  ∧ nextId db' = (if existsb (matchesRun user run) (docs db) then nextId db
                  else S (nextId db))
  ∧ match List.find (matchesRun user run) (docs db) with
    | Some d =>
        docs db' = updateFirst (matchesRun user run) (pushStep sd) (docs db)
        ∧ sid = Some (_id d)
    | None =>
        docs db' = docs db ++
                     [{| _id := nextId db; instagramUsername := user; runId := run;
                         createdAt := now; status := Processing; steps := [sd];
                         cards := None; completedAt := None |}]
        ∧ sid = Some (nextId db)
    end.
Proof.
  unfold saveSnapshotStep.
  destruct (connectDB_docs fault db) as [Hdocs Hnext].
  destruct (connectDB fault db) as [db1 ok]. cbn [fst] in Hdocs, Hnext.
  destruct ok; cbn [negb]; [|done].
  unfold upsertStep. rewrite Hdocs, Hnext, find_existsb.
  destruct (List.find (matchesRun user run) (docs db)) as [d|] eqn:Hfind.
  - rewrite bool_decide_eq_true_2 by eauto.
    destruct fault; try done.
    all: intros [= <- <- <-]; cbn [docs withDocs nextId].
    all: rewrite find_updateFirst, Hfind by done; done.
  - rewrite bool_decide_eq_false_2 by (by intros [? ?]).
    destruct fault; try done.
    all: by intros [= <- <- <-].
Qed.

Lemma saveSnapshotStep_frame fault now user run name html meta db db' sd sid :
  saveSnapshotStep fault now user run name html meta db = (db', Some (sd, sid)) ->
  (∀ d, List.find (matchesRun user run) (docs db) = Some d ->
       sid = Some (_id d)
       ∧ List.find (matchesRun user run) (docs db') = Some (pushStep sd d)
       ∧ steps (pushStep sd d) = steps d ++ [sd]
       ∧ createdAt (pushStep sd d) = createdAt d
       ∧ status (pushStep sd d) = status d
       ∧ length (docs db') = length (docs db))
  ∧ (List.find (matchesRun user run) (docs db) = None ->
       sid = Some (nextId db)
       ∧ ∃ d', List.find (matchesRun user run) (docs db') = Some d'
               ∧ _id d' = nextId db ∧ steps d' = [sd] ∧ createdAt d' = now
               ∧ status d' = Processing ∧ cards d' = None
               ∧ docs db' = docs db ++ [d'])
  ∧ stepName sd = name ∧ stepHtml sd = html.
Proof.
  intros Hsave.
  destruct (saveSnapshotStep_done _ _ _ _ _ _ _ _ _ _ _ Hsave) as (-> & _ & Hcase).
  set (sd := {| stepName := name |}) in *.
  repeat apply conj; [| |done|done].
  - intros d Hd. rewrite Hd in Hcase. destruct Hcase as [-> ->].
    split; [done|]. split; [by rewrite find_updateFirst, Hd|].
    do 3 (split; [done|]).
    rewrite <- !(length_map _id). by rewrite updateFirst_ids.
  - intros Hnone. rewrite Hnone in Hcase. destruct Hcase as [-> ->].
    split; [done|]. eexists. split.
    { rewrite find_app_l, Hnone. simpl. unfold matchesRun. simpl.
      by rewrite String.eqb_refl, Z.eqb_refl. }
    repeat split.
Qed.

Lemma find_by_id ds d :
  NoDup (map _id ds) -> d ∈ ds -> List.find (λ x, (_id x =? _id d)%nat) ds = Some d.
Proof.
  intros Hnd Hd. destruct (List.find (λ x, (_id x =? _id d)%nat) ds) as [x|] eqn:Hfind.
  - apply find_elem in Hfind as [Hx Hid%Nat.eqb_eq]. f_equal. by eapply unique_id.
  - apply list_elem_of_In in Hd. eapply find_none in Hfind; [|done].
    by rewrite Nat.eqb_refl in Hfind.
Qed.

Lemma find_by_id_none ds id :
  (∀ d, d ∈ ds -> _id d ≠ id) -> List.find (λ x, (_id x =? id)%nat) ds = None.
Proof.
  intros Hall. destruct (List.find _ ds) as [x|] eqn:Hfind; [|done].
  apply find_elem in Hfind as [Hx Hid%Nat.eqb_eq]. by destruct (Hall x Hx).
Qed.

Lemma getSnapshotStep_found fault id name db d :
  fault ≠ FindRejects -> (client db = true ∨ fault ≠ Unreachable) ->
  NoDup (map _id (docs db)) -> d ∈ docs db -> _id d = id ->
  (getSnapshotStep fault id name db).2
  = stepHtml <$> List.find (λ s, String.eqb (stepName s) name) (steps d).
Proof.
  intros Hf Hc Hnd Hd <-. unfold getSnapshotStep.
  destruct (connectDB_docs fault db) as [Hdocs _].
  pose proof (connectDB_ok fault db) as Hok.
  destruct (connectDB fault db) as [db1 ok]. cbn [fst snd] in *.
  destruct ok; [|destruct Hc as [Hc|Hc]; destruct Hok as [[? ?] _]; congruence].
  cbn [negb]. rewrite Hdocs, (find_by_id _ _ Hnd Hd). by destruct fault.
Qed.

Lemma saveSnapshotStep_client fault now user run name html meta db db' r :
  saveSnapshotStep fault now user run name html meta db = (db', Some r) -> client db' = true.
Proof.
  unfold saveSnapshotStep, connectDB, upsertStep, setupTTLIndex, withDocs.
  destruct (client db) eqn:Hc, fault; simpl; try done.
  all: destruct (existsb _ _); simpl; try done.
  all: try (by intros [= <- _]).
  all: by intros [= <-].
Qed.

Lemma newest_None ds : newest ds = None -> ds = [].
Proof.
  destruct ds as [|x ds]; [done|]. simpl.
  destruct (newest ds) as [e|]; [by destruct (createdAt x <? createdAt e)|done].
Qed.

Lemma newest_max ds r :
  newest ds = Some r -> ∀ d, d ∈ ds -> createdAt d ≤ createdAt r.
Proof.
  revert r. induction ds as [|x ds IH]; intros r; simpl; [done|].
  destruct (newest ds) as [e|] eqn:E.
  - destruct (createdAt x <? createdAt e) eqn:Hlt; intros [= <-] d [->|Hd]%elem_of_cons.
    + apply Z.ltb_lt in Hlt. lia.
    + by apply IH.
    + lia.
    + apply Z.ltb_ge in Hlt. specialize (IH e eq_refl d Hd). lia.
  - intros [= <-] d [->|Hd]%elem_of_cons; [lia|].
    apply newest_None in E as ->. by apply elem_of_nil in Hd.
Qed.


Lemma grows_refl d : grows d d.
Proof. by repeat split. Qed.

Lemma grows_trans d1 d2 d3 : grows d1 d2 -> grows d2 d3 -> grows d1 d3.
Proof.
  intros (? & ? & ? & ? & ? & ?) (? & ? & ? & ? & ? & ?).
  repeat split; try congruence; [by etrans|auto].
Qed.

Lemma grows_pushStep s d : grows d (pushStep s d).
Proof. repeat split; try done. by apply prefix_app_r. Qed.

Lemma grows_setResult cs now d : grows d (setResult cs now d).
Proof. by repeat split. Qed.


Lemma updateFirst_forward sel (f : Doc -> Doc) l d :
  d ∈ l -> d ∈ updateFirst sel f l ∨ f d ∈ updateFirst sel f l.
Proof.
  induction l as [|x l IH]; simpl; [by intros ?%elem_of_nil|].
  destruct (sel x) eqn:E.
  - intros [->|H]%elem_of_cons; [right; by left|left; by right].
  - intros [->|H]%elem_of_cons; [left; by left|].
    destruct (IH H); [left|right]; by right.
Qed.

(** No call of mongodb.js removes a document: each is still there
    afterwards, as it was or grown. *)
Lemma applyOp_forward db op d :
  faultOf op ≠ None -> d ∈ docs db -> ∃ d', d' ∈ docs (applyOp db op) ∧ grows d d'.
Proof.
  intros Hop Hd.
  assert (Hsame : ∀ db', docs db' = docs db -> ∃ d', d' ∈ docs db' ∧ grows d d').
  { intros db' ->. exists d. split; [done|apply grows_refl]. }
  assert (Hupd : ∀ sel f, (∀ x, grows x (f x)) ->
            ∃ d', d' ∈ updateFirst sel f (docs db) ∧ grows d d').
  { intros sel f Hf. destruct (updateFirst_forward sel f (docs db) d Hd);
      [exists d|exists (f d)]; (split; [done|]); [apply grows_refl|apply Hf]. }
  destruct op as [fault now user run name html meta|fault now user run cs
                 |fault id name|fault user run|fault now user maxAge|now]; cbn [applyOp].
  - store_cases db fault;
      first [ by apply Hsame
            | apply Hupd; intros ?; apply grows_pushStep
            | exists d; split; [apply elem_of_app; by left|apply grows_refl] ].
  - store_cases db fault;
      first [ by apply Hsame | apply Hupd; intros ?; apply grows_setResult ].
  - store_cases db fault; by apply Hsame.
  - store_cases db fault; by apply Hsame.
  - store_cases db fault; by apply Hsame.
  - by destruct Hop.
Qed.

(** The document a successful [saveSnapshotStep] names holds the step
    last. *)
Lemma saveSnapshotStep_stored fault now user run name html meta db db' sd id :
  saveSnapshotStep fault now user run name html meta db = (db', Some (sd, Some id)) ->
  sd = {| stepName := name; stepHtml := html; capturedAt := now;
          stepMeta := {| metaFields := meta; metaCapturedAt := now |} |}
  ∧ ∃ d, d ∈ docs db' ∧ _id d = id ∧ matchesRun user run d = true
         ∧ ∃ before, steps d = before ++ [sd].
Proof.
  intros Hsave.
  destruct (saveSnapshotStep_done _ _ _ _ _ _ _ _ _ _ _ Hsave) as (Hsd & _ & Hcase).
  split; [done|].
  destruct (List.find (matchesRun user run) (docs db)) as [d0|] eqn:Hfind.
  - destruct Hcase as [Hdocs [= ->]]. exists (pushStep sd d0).
    apply find_elem in Hfind as Hd0. destruct Hd0 as [_ Hk].
    rewrite Hdocs. split; [by apply updateFirst_found|]. split; [done|]. split; [done|].
    by exists (steps d0).
  - destruct Hcase as [Hdocs [= ->]]. eexists. rewrite Hdocs.
    split; [apply elem_of_app; right; by left|]. split; [done|].
    split; [unfold matchesRun; cbn; by rewrite String.eqb_refl, Z.eqb_refl|].
    by exists [].
Qed.

(** A save that returns no id has stored nothing, unless it is the
    read-back of the id that failed. *)
Lemma saveSnapshotStep_lost fault now user run name html meta db :
  let r := saveSnapshotStep fault now user run name html meta db in
  (∀ sd id, r.2 ≠ Some (sd, Some id)) -> fault ≠ FindRejects -> docs r.1 = docs db.
Proof.
  cbv zeta. unfold saveSnapshotStep.
  destruct (connectDB_docs fault db) as [Hdocs _].
  destruct (connectDB fault db) as [db1 ok]. cbn [fst] in Hdocs.
  destruct ok; cbn [negb fst snd]; [|done].
  unfold upsertStep. intros Hnone Hf.
  destruct (existsb (matchesRun user run) (docs db1)) eqn:E.
  - apply existsb_exists in E as (x & Hx & Hk).
    destruct fault; cbn [fst snd] in *; try done;
      (destruct (List.find (matchesRun user run)
                   (docs (withDocs db1 (updateFirst (matchesRun user run) _ (docs db1)))))
         as [y|] eqn:Ey;
       [cbn [fmap option_fmap option_map] in Hnone; exfalso; by eapply Hnone|]);
      exfalso; cbn [docs withDocs] in Ey; rewrite find_updateFirst in Ey;
      (destruct (List.find (matchesRun user run) (docs db1)) eqn:Ed; [done|]);
      (eapply find_none in Ed; [|exact Hx]); congruence.
  - destruct fault; cbn [fst snd] in *; try done.
    all: exfalso; by eapply Hnone.
Qed.

(** [findOne] under the sort finds a document as soon as the filter
    lets one through, and none is newer than it. *)
Lemma getRecentSnapshot_some fault now user maxAge db d :
  fault ≠ FindRejects -> (client db = true ∨ fault ≠ Unreachable) ->
  d ∈ docs db -> instagramUsername d = user -> status d = Completed ->
  (now - maxAge * 60 * 1000 ≤ createdAt d)%Z ->
  ∃ r, (getRecentSnapshot fault now user maxAge db).2 = Some r
       ∧ (createdAt d ≤ createdAt r)%Z.
Proof.
  intros Hf Hc Hd Hu Hs Hage.
  set (l := List.filter (recentFilter user (now - maxAge * 60 * 1000)) (docs db)).
  assert (Hin : d ∈ l).
  { unfold l. rewrite list_elem_of_In, filter_In, <- list_elem_of_In. split; [done|].
    unfold recentFilter. rewrite Hu, String.eqb_refl, Hs. apply Z.leb_le in Hage.
    by rewrite Hage. }
  assert (Hnew : ∃ r, newest l = Some r ∧ (createdAt d ≤ createdAt r)%Z).
  { destruct (newest l) as [r|] eqn:E.
    - exists r. split; [done|]. by apply (newest_max _ _ E).
    - apply newest_None in E. rewrite E in Hin. by apply elem_of_nil in Hin. }
  unfold getRecentSnapshot.
  destruct (connectDB_docs fault db) as [Hdocs _].
  pose proof (connectDB_ok fault db) as Hok.
  destruct (connectDB fault db) as [db1 ok]. cbn [fst snd] in *.
  destruct ok; [|destruct Hc as [Hc|Hc]; destruct Hok as [[? ?] _]; congruence].
  cbn [negb]. rewrite Hdocs. fold l. by destruct fault.
Qed.

(** C2, amended.  The expiry of a Run document is anchored at its
    creation, and it is the database's TTL monitor that carries it out,
    by the index it finds.  In every store that a history of calls of
    mongodb.js and of passes of the TTL monitor leads to, from a
    collection with unique ids:  an index found on the collection is
    still the one in force, and where there was none there is none or
    the one of 600 seconds on [createdAt]; the index is asked for by
    the call that opens the connection, a rejected [createIndex] is
    swallowed, and the index is not asked for again while the client is
    held; once there, it stays.  A document that an operation leaves in
    the store either was there before with the same [createdAt], or was
    inserted by a [saveSnapshotStep] for a (username, runId) pair
    without a document, with [createdAt] the time of that call; so no
    later append, no completion and no read changes [createdAt]; reads
    leave the documents as they are.  With an index of [secs] seconds,
    a pass of the TTL monitor at time [now] keeps a document exactly
    when [now < createdAt + secs * 1000] ms, whatever else the document
    holds; without an index, a pass removes nothing.  The reads do not
    look at the expiry: as long as a document is in the store,
    [getSnapshotStep] returns the markup of its steps and
    [getRecentSnapshot] returns a completed document of its user inside
    the age bound.  Once the monitor has passed at or after
    [createdAt + secs s], [getSnapshotStep] for the document's id
    returns [null], [getRecentSnapshot] never returns the document, the
    snapshot route answers 404 and not an error, and a cache check that
    finds nothing lets the handler go on. *)
Theorem C2_expiry_is_anchored_at_creation (start : Db) (ops : list Op) :
  wellFormed start ->
  let db := fold_left applyOp ops start in
  (ttlIndex db = ttlIndex start ∨ (ttlIndex start = None ∧ ttlIndex db = Some 600%Z))
  ∧ (∀ op secs, ttlIndex db = Some secs -> ttlIndex (applyOp db op) = Some secs)
  ∧ (∀ op, client db = true ->
       client (applyOp db op) = true ∧ ttlIndex (applyOp db op) = ttlIndex db)
  ∧ (∀ op fault, client db = false -> faultOf op = Some fault ->
       match fault with
       | Unreachable =>
           client (applyOp db op) = false ∧ ttlIndex (applyOp db op) = ttlIndex db
       | IndexRejects =>
           client (applyOp db op) = true ∧ ttlIndex (applyOp db op) = ttlIndex db
       | _ => client (applyOp db op) = true
              ∧ ttlIndex (applyOp db op) = Some (default 600%Z (ttlIndex db))
       end)
  ∧ (∀ op d', d' ∈ docs (applyOp db op) ->
       (∃ d, d ∈ docs db ∧ _id d = _id d' ∧ createdAt d = createdAt d')
       ∨ (∃ fault now user run name html meta,
            op = SaveStep fault now user run name html meta
            ∧ createdAt d' = now ∧ matchesRun user run d' = true
            ∧ existsb (matchesRun user run) (docs db) = false))
  ∧ (∀ op d d', d ∈ docs db -> d' ∈ docs (applyOp db op) -> _id d' = _id d ->
       createdAt d' = createdAt d)
  ∧ (∀ op, isRead op = true -> docs (applyOp db op) = docs db)
  ∧ (∀ now secs d, ttlIndex db = Some secs -> d ∈ docs db ->
       (d ∈ docs (ttlMonitor now db) <-> (now < createdAt d + secs * 1000)%Z))
  ∧ (∀ now, ttlIndex db = None -> ttlMonitor now db = db)
  ∧ (∀ d name, d ∈ docs db ->
       (getSnapshotStep NoFault (_id d) name db).2
       = stepHtml <$> List.find (λ s, String.eqb (stepName s) name) (steps d))
  ∧ (∀ now maxAge d, d ∈ docs db -> status d = Completed ->
       (now - maxAge * 60 * 1000 ≤ createdAt d)%Z ->
       ∃ r, (getRecentSnapshot NoFault now (instagramUsername d) maxAge db).2 = Some r
            ∧ (createdAt d ≤ createdAt r)%Z)
  ∧ (∀ now secs d, ttlIndex db = Some secs -> d ∈ docs db ->
       (createdAt d + secs * 1000 ≤ now)%Z ->
       (∀ fault name, (getSnapshotStep fault (_id d) name (ttlMonitor now db)).2 = None)
       ∧ (∀ fault now' user maxAge r,
            (getRecentSnapshot fault now' user maxAge (ttlMonitor now db)).2 = Some r ->
            _id r ≠ _id d)
       ∧ (∀ fault name, (snapshotRoute fault (_id d) name (ttlMonitor now db)).2 = NotFound))
  ∧ (∀ fault now user store,
       (getRecentSnapshot fault now user cacheMinutes store).2 = None ->
       (stalkersCache fault now user store).2 = None).
Proof.
  intros Hstart db. pose proof (fold_wellFormed ops start Hstart) as Hwf. fold db in Hwf.
  assert (Hgone : ∀ now secs d, ttlIndex db = Some secs -> d ∈ docs db ->
            (createdAt d + secs * 1000 ≤ now)%Z ->
            ∀ x, x ∈ docs (ttlMonitor now db) -> _id x ≠ _id d).
  { intros now secs d Hidx Hd Hexp x Hx Hid. pose proof (ttlMonitor_sub _ _ _ Hx) as Hx'.
    assert (x = d) as -> by (destruct Hwf as (Hnd & _); eapply unique_id; eauto).
    apply (ttlMonitor_at now db secs d Hidx Hd) in Hx. lia. }
  assert (Hlink : ∀ op fault, faultOf op = Some fault ->
            client (applyOp db op) = client (connectDB fault db).1
            ∧ ttlIndex (applyOp db op) = ttlIndex (connectDB fault db).1).
  { intros op fault Hf. destruct (applyOp_connect db op) as [-> ->]. by rewrite Hf. }
  repeat apply conj.
  - apply fold_index.
  - intros op secs Hidx. destruct (applyOp_link db op) as [[_ ->]|(_ & _ & [->|[? _]])];
      congruence.
  - intros op Hc. destruct (applyOp_link db op) as [[-> ->]|(? & _)]; [done|congruence].
  - intros op fault Hc Hf. destruct (Hlink op fault Hf) as [-> ->].
    pose proof (connectDB_link fault db) as H. cbv zeta in H. rewrite Hc in H.
    destruct fault; done.
  - intros op d' Hd'. destruct (applyOp_origin db op d' Hd') as [?|H]; [by left|right].
    destruct H as (fault & now & user & run & name & html & meta & ? & ? & ? & ? & _).
    by exists fault, now, user, run, name, html, meta.
  - intros op d d' Hd Hd' Hid.
    destruct (applyOp_origin db op d' Hd') as [(d0 & Hd0 & Hid0 & Hc)|H].
    + destruct Hwf as (Hnd & _).
      assert (d0 = d) as -> by (eapply unique_id; eauto; congruence). done.
    + destruct H as (? & ? & ? & ? & ? & ? & ? & _ & _ & _ & _ & Hnew).
      destruct Hwf as (_ & Hlt). specialize (Hlt d Hd). lia.
  - intros op. apply isRead_docs.
  - intros now secs d Hidx Hd. by apply ttlMonitor_at.
  - intros now. apply ttlMonitor_none.
  - intros d name Hd. destruct Hwf as (Hnd & _).
    apply getSnapshotStep_found; auto.
  - intros now maxAge d Hd Hs Hage. apply getRecentSnapshot_some; auto.
  - intros now secs d Hidx Hd Hexp. repeat apply conj.
    + intros fault name. apply getSnapshotStep_absent. intros x Hx. by eapply Hgone.
    + intros fault now' user maxAge r Hr%getRecentSnapshot_elem. destruct Hr as [Hr _].
      by eapply Hgone.
    + intros fault name. unfold snapshotRoute.
      pose proof (getSnapshotStep_absent fault (_id d) name (ttlMonitor now db)) as Habs.
      destruct (getSnapshotStep _ _ _ _) as [db' html]. simpl in *.
      rewrite Habs; [done|]. intros x Hx. by eapply Hgone.
  - intros fault now user store. unfold stalkersCache.
    destruct (getRecentSnapshot _ _ _ _ _) as [db' r]. simpl. by intros ->.
Qed.

Lemma C2_expired_document_is_not_found :
  let db := storeAfter StoreSamples.history in
  let d := StoreSamples.firstDoc db in
  createdAt d = 1000 ∧ ttlIndex db = Some 600%Z
  ∧ (getSnapshotStep NoFault (_id d) "landing" db).2 = Some "<html>landing</html>"
  ∧ d ∈ docs (ttlMonitor 600999 db)
  ∧ (d ∉ docs (ttlMonitor 601000 db))
  ∧ (getSnapshotStep NoFault (_id d) "landing" (ttlMonitor 601000 db)).2 = None
  ∧ (snapshotRoute NoFault (_id d) "landing" (ttlMonitor 601000 db)).2 = NotFound.
Proof.
  intros db d.
  destruct (C2_expiry_is_anchored_at_creation emptyDb StoreSamples.history
              emptyDb_wellFormed)
    as (_ & _ & _ & _ & _ & _ & _ & Hkeep & _ & Hread & _ & Hgone & _).
  assert (Hd : d ∈ docs db) by (vm_compute; by left).
  assert (Hidx : ttlIndex db = Some 600%Z) by reflexivity.
  destruct (Hgone 601000%Z 600%Z d Hidx Hd) as (Hstep & _ & Hroute);
    [vm_compute; congruence|].
  split; [reflexivity|]. split; [exact Hidx|]. split; [exact (Hread d "landing" Hd)|].
  split; [apply (Hkeep 600999%Z 600%Z d Hidx Hd); reflexivity|].
  split; [intros Hin; apply (Hkeep 601000%Z 600%Z d Hidx Hd) in Hin; vm_compute in Hin;
          congruence|].
  split; [apply Hstep|apply Hroute].
Defined.

(** C2, as stated, fails.  A document created at 1000 ms has expired at
    601000 ms; half a second later, no pass of the monitor having come,
    the reads still return it.  When [createIndex] was rejected as the
    connection was opened, a pass of the monitor long after the expiry
    removes nothing.  And on a collection that came with an index of one
    hour on [createdAt], that index stays in force and the document
    outlives the ten minutes. *)
Lemma C2_expired_document_is_still_served :
  let db := storeAfter StoreSamples.history in
  let d := StoreSamples.firstDoc db in
  let bare := storeAfter StoreSamples.unindexedHistory in
  let other := fold_left applyOp StoreSamples.history StoreSamples.hourlyDb in
  (ttlIndex db = Some 600%Z ∧ createdAt d = 1000 ∧ createdAt d + 600 * 1000 < 601500
   ∧ (getSnapshotStep NoFault (_id d) "landing" db).2 = Some "<html>landing</html>"
   ∧ (snapshotRoute NoFault (_id d) "landing" db).2 = Html "<html>landing</html>"
   ∧ (getRecentSnapshot NoFault 601500 "bob" 60 db).2 = Some d)
  ∧ (ttlIndex bare = None ∧ client bare = true
     ∧ map createdAt (docs bare) = [1000]
     ∧ docs (ttlMonitor 700000 bare) = docs bare
     ∧ (getSnapshotStep NoFault 0 "landing" (ttlMonitor 700000 bare)).2
       = Some "<html>landing</html>")
  ∧ (ttlIndex other = Some 3600%Z ∧ client other = true
     ∧ map createdAt (docs other) = [1000]
     ∧ docs (ttlMonitor 700000 other) = docs other).
Proof. vm_compute. repeat split. Qed.
End StoreProps.

(** ** The cache and the completed run *)

Module CacheProps.
Import Js Mongo StoreOps StoreProps Scrape RunLogic Ledger RunStore.
Local Open Scope Z_scope.

Lemma find_head_filter {A} (sel : A -> bool) l : List.find sel l = head (List.filter sel l).
Proof. induction l as [|x l IH]; simpl; [done|]. by destruct (sel x). Qed.

Lemma existsb_filter_nil {A} (sel : A -> bool) l :
  existsb sel l = false <-> List.filter sel l = [].
Proof.
  induction l as [|x l IH]; simpl; [done|].
  destruct (sel x); simpl; [split; done|done].
Qed.

Lemma filter_updateFirst sel (f : Doc -> Doc) l :
  (∀ d, sel (f d) = sel d) ->
  List.filter sel (updateFirst sel f l) =
    match List.filter sel l with
    | [] => []
    | d :: r => f d :: r
    end.
Proof.
  intros Hf. induction l as [|x l IH]; simpl; [done|].
  destruct (sel x) eqn:E; simpl.
  - by rewrite Hf, E.
  - by rewrite E, IH.
Qed.

Lemma filter_snoc {A} (sel : A -> bool) l x :
  List.filter sel (l ++ [x]) = List.filter sel l ++ (if sel x then [x] else []).
Proof. by rewrite List.filter_app. Qed.

Section ForRun.
Variables (username : string) (onStep : bool) (w : World).
Hypothesis readBack : ∀ stage, saveFault w stage ≠ FindRejects.

Abbreviation own := (ownDocs username w).
Abbreviation key := (matchesRun username (runId w)).

Lemma matchesRun_pushStep s d : key (pushStep s d) = key d.
Proof. done. Qed.
Lemma matchesRun_setResult cs now d : key (setResult cs now d) = key d.
Proof. done. Qed.

Lemma own_connectDB fault store : own (connectDB fault store).1 = own store.
Proof. unfold ownDocs. by destruct (connectDB_docs fault store) as [-> _]. Qed.

Lemma upsertStep_own now s store :
  let r := upsertStep username (runId w) now s store in
  match own store with
  | [] => ∃ d, own r.1 = [d] ∧ r.2 = Some (_id d) ∧ Mongo.steps d = [s]
               ∧ status d = Processing
  | d :: rest =>
      own r.1 = pushStep s d :: rest ∧ r.2 = None
      ∧ List.find key (docs r.1) = Some (pushStep s d)
  end.
Proof.
  unfold upsertStep, ownDocs.
  destruct (existsb key (docs store)) eqn:E; cbn [fst snd docs withDocs].
  - destruct (List.filter key (docs store)) as [|d rest] eqn:Ef.
    { apply existsb_filter_nil in Ef. congruence. }
    rewrite find_head_filter, filter_updateFirst, Ef by done. done.
  - apply existsb_filter_nil in E. rewrite E. eexists.
    rewrite filter_snoc, E. unfold matchesRun. cbn [instagramUsername Mongo.runId].
    rewrite String.eqb_refl, Z.eqb_refl. done.
Qed.

(** A step saved for this run, seen from [captureStep]. *)
Lemma saveSnapshotStep_own fault now name html meta store :
  fault ≠ FindRejects ->
  let r := saveSnapshotStep fault now username (runId w) name html meta store in
  match savedId r.2 with
  | None => own r.1 = own store
  | Some id =>
      ∃ s, storedFields s = (name, meta)
        ∧ match own store with
          | [] => ∃ d, own r.1 = [d] ∧ _id d = id ∧ Mongo.steps d = [s]
                       ∧ status d = Processing
          | d :: rest => own r.1 = pushStep s d :: rest ∧ _id d = id
          end
  end.
Proof.
  intros Hfault. unfold saveSnapshotStep.
  pose proof (own_connectDB fault store) as Hown.
  destruct (connectDB fault store) as [db1 ok]. cbn [fst] in Hown.
  destruct ok; cbn [negb]; [|done].
  set (s := {| stepName := name; stepHtml := html; capturedAt := now;
               stepMeta := {| metaFields := meta; metaCapturedAt := now |} |}).
  pose proof (upsertStep_own now s db1) as Hup. rewrite Hown in Hup.
  destruct (upsertStep username (runId w) now s db1) as [db' up]. cbn [fst snd] in Hup.
  destruct (own store) as [|d rest].
  - destruct Hup as (d & Hd & -> & Hs & Hst).
    destruct fault; cbn [fst snd savedId]; try done.
    all: exists s; split; [done|]; by exists d.
  - destruct Hup as (Hd & -> & Hfind).
    destruct fault; cbn [fst snd savedId]; try done.
    all: rewrite Hfind; cbn [fst snd savedId fmap option_fmap option_map].
    all: exists s; done.
Qed.

Lemma captureStep_keeps_mirror stage fields :
  keeps (mirrors username w) (captureStep username onStep w stage fields).
Proof.
  intros st [Hwf Hm]. unfold wp, Scrape.captureStep.
  destruct (content w stage) as [html|e]; [|by split].
  pose proof (saveSnapshotStep_own (saveFault w stage) (saveTime w stage) stage html fields
                (db st) (readBack stage)) as Hown.
  pose proof (applyOp_wellFormed (db st)
                (SaveStep (saveFault w stage) (saveTime w stage) username (runId w)
                          stage html fields) Hwf) as Hwf'.
  cbn [applyOp] in Hwf'.
  destruct (saveSnapshotStep _ _ _ _ _ _ _ _) as [db' [[sd [id|]]|]];
    cbn [fst snd savedId] in *; (split; [done|]).
  - destruct Hown as (s & Hs & Hown). cbn [db steps snapshotId].
    destruct Hm as [(Ho & Hsteps & Hid)|(d & Ho & Hid & Hnames & Hpaths & Hdone)];
      rewrite Ho in Hown; right.
    + destruct Hown as (d & Hd & Hidd & Hds & Hst). exists d.
      rewrite Hsteps, Hid, Hds, Hidd. repeat split; try done.
      * cbn [map app]. by rewrite Hs.
      * intros e ->%list_elem_of_singleton. done.
      * rewrite Hst. done.
    + destruct Hown as [Hd Hidd]. exists (pushStep s d). rewrite Hid. repeat split; try done.
      * cbn [pushStep Mongo.steps]. rewrite !map_app, Hnames. cbn [map]. by rewrite Hs.
      * intros e [He|He]%elem_of_app; [by apply Hpaths|].
        apply list_elem_of_singleton in He as ->. cbn. by rewrite Hidd.
  - cbn [db steps snapshotId]. by rewrite Hown.
  - cbn [db steps snapshotId]. by rewrite Hown.
Qed.

Lemma saveResult_keeps_mirror data :
  cardData w = Ok data -> keeps (mirrors username w) (saveResult username w data).
Proof.
  intros Hdata st [Hwf Hm]. unfold wp, saveResult.
  pose proof (applyOp_wellFormed (db st)
                (SaveResult (resultFault w) (resultTime w) username (runId w) data) Hwf)
    as Hwf'.
  cbn [applyOp] in Hwf'.
  assert (Hown : own (saveSnapshotResult (resultFault w) (resultTime w) username (runId w)
                        data (db st)).1 = own (db st)
                 ∨ own (saveSnapshotResult (resultFault w) (resultTime w) username (runId w)
                          data (db st)).1
                   = match own (db st) with
                     | [] => []
                     | d :: r => setResult data (resultTime w) d :: r
                     end).
  { unfold saveSnapshotResult, ownDocs.
    destruct (connectDB_docs (resultFault w) (db st)) as [Hdocs _].
    destruct (connectDB (resultFault w) (db st)) as [db1 ok]. cbn [fst] in Hdocs.
    destruct ok; cbn [negb fst snd]; [|left; by rewrite Hdocs].
    destruct (resultFault w); unfold withDocs; cbn [fst snd docs]; rewrite Hdocs; auto.
    all: right; by rewrite filter_updateFirst. }
  destruct (saveSnapshotResult _ _ _ _ _ _) as [db' res]. cbn [fst snd] in *.
  split; [done|]. cbn [db steps snapshotId].
  destruct Hm as [(Ho & Hsteps & Hid)|(d & Ho & Hid & Hnames & Hpaths & Hdone)];
    rewrite Ho in Hown.
  - left. by destruct Hown as [->| ->].
  - right. destruct Hown as [->| ->]; [by exists d|].
    exists (setResult data (resultTime w) d). repeat split; try done. eauto.
Qed.

Lemma lookupSnapshotId_keeps_mirror :
  keeps (mirrors username w) (lookupSnapshotId username w).
Proof.
  intros st [Hwf Hm]. unfold wp, lookupSnapshotId.
  destruct (snapshotId st) eqn:Hsid; [cbn [fst snd]; split; [done|]; by rewrite Hsid|].
  destruct Hm as [(Ho & Hsteps & Hid)|(d & Ho & Hid & _)]; [|congruence].
  pose proof (applyOp_wellFormed (db st) (GetByRunId (lookupFault w) username (runId w)) Hwf)
    as Hwf'.
  cbn [applyOp] in Hwf'.
  assert (Hnone : (getSnapshotByRunId (lookupFault w) username (runId w) (db st)).2 = None
                  ∧ own (getSnapshotByRunId (lookupFault w) username (runId w) (db st)).1
                    = own (db st)).
  { assert (List.find (λ d, key d && statusEqb (status d) Completed) (docs (db st)) = None)
      as Hfind.
    { destruct (List.find _ _) as [x|] eqn:E; [|done].
      apply find_elem in E as [Hx [Hk _]%andb_true_iff].
      assert (x ∈ own (db st)) as Hin
        by (unfold ownDocs; rewrite list_elem_of_In, filter_In, <- list_elem_of_In; done).
      rewrite Ho in Hin. by apply elem_of_nil in Hin. }
    unfold getSnapshotByRunId, ownDocs.
    destruct (connectDB_docs (lookupFault w) (db st)) as [Hdocs _].
    destruct (connectDB (lookupFault w) (db st)) as [db1 ok]. cbn [fst] in Hdocs.
    destruct ok; cbn [negb fst snd]; [|by rewrite Hdocs].
    destruct (lookupFault w); cbn [fst snd]; by rewrite Hdocs, ?Hfind. }
  destruct (getSnapshotByRunId _ _ _ _) as [db' saved]. cbn [fst snd] in *.
  destruct Hnone as [-> Hown]. split; [done|]. left. cbn. by rewrite Hown.
Qed.

(** What a returned result and a completed document of the run have
    in common. *)
Lemma scrape_mirror store st r d :
  wellFormed store ->
  existsb key (docs store) = false ->
  scrape username onStep w store = (st, Ok r) ->
  d ∈ docs (db st) -> key d = true -> status d = Completed ->
  wellFormed (db st)
  ∧ cards d = Some (Result.cards r)
  ∧ map storedFields (Mongo.steps d) = map entryFields (Result.steps r)
  ∧ (∀ e, e ∈ Result.steps r -> htmlPath e = snapshotPath (_id d) (name e))
  ∧ Result.snapshotId r = Some (_id d)
  ∧ Result.runId r = Mongo.runId d.
Proof.
  intros Hwf Hfresh Hrun Hd Hk Hdone.
  pose proof (scrapeM_keeps username onStep w (mirrors username w)
                captureStep_keeps_mirror saveResult_keeps_mirror
                lookupSnapshotId_keeps_mirror (initialRun store)) as H.
  unfold wp in H. unfold scrape in Hrun. rewrite Hrun in H. cbn [fst snd] in H.
  destruct H as [[Hwf' Hm] Hr].
  { split; [done|]. left. unfold ownDocs, initialRun. cbn [db steps snapshotId].
    by apply existsb_filter_nil in Hfresh as ->. }
  destruct (Hr r eq_refl) as (Hsteps & Hsid & Hrid & Hcards).
  assert (d ∈ own (db st)) as Hin
    by (unfold ownDocs; rewrite list_elem_of_In, filter_In, <- list_elem_of_In; done).
  destruct Hm as [(Ho & _)|(d0 & Ho & Hid & Hnames & Hpaths & Hcompleted)].
  { rewrite Ho in Hin. by apply elem_of_nil in Hin. }
  rewrite Ho in Hin. apply list_elem_of_singleton in Hin as ->.
  destruct (Hcompleted Hdone) as (cs & Hcs & Hcd).
  split; [done|]. split; [rewrite Hcd; congruence|].
  split; [by rewrite Hsteps|].
  split; [intros e He; apply Hpaths; by rewrite <- Hsteps|].
  split; [by rewrite Hsid|]. rewrite Hrid.
  unfold matchesRun in Hk. apply andb_true_iff in Hk as [_ Hk%Z.eqb_eq]. done.
Qed.
End ForRun.

Lemma newest_strict ds d :
  NoDup (map _id ds) -> d ∈ ds ->
  (∀ x, x ∈ ds -> _id x ≠ _id d -> createdAt x < createdAt d) ->
  newest ds = Some d.
Proof.
  intros Hnd Hd Hlt.
  destruct (newest ds) as [e|] eqn:E.
  - pose proof (newest_elem _ _ E) as He.
    destruct (decide (_id e = _id d)) as [Heq|Hne].
    + f_equal. by eapply unique_id.
    + specialize (Hlt e He Hne). pose proof (newest_max _ _ E d Hd). lia.
  - apply newest_None in E as ->. by apply elem_of_nil in Hd.
Qed.

Lemma NoDup_ids_filter (sel : Doc -> bool) ds :
  NoDup (map _id ds) -> NoDup (map _id (List.filter sel ds)).
Proof.
  induction ds as [|d ds IH]; [done|]. cbn [map]. intros [Hd Hnd]%NoDup_cons. simpl.
  destruct (sel d); [|by apply IH]. cbn [map]. apply NoDup_cons. split; [|by apply IH].
  intros (d0 & Hid & Hd0%filter_sub)%list_elem_of_fmap. apply Hd.
  apply list_elem_of_fmap. eauto.
Qed.

(** [findOne] under the sort returns the one document that is newer
    than every other the filter lets through. *)
Lemma getRecentSnapshot_newest fault now user maxAge db d :
  fault ≠ FindRejects -> (client db = true ∨ fault ≠ Unreachable) ->
  NoDup (map _id (docs db)) -> d ∈ docs db ->
  instagramUsername d = user -> status d = Completed ->
  now - maxAge * 60 * 1000 ≤ createdAt d ->
  (∀ d2, d2 ∈ docs db -> _id d2 ≠ _id d -> instagramUsername d2 = user ->
         status d2 = Completed -> createdAt d2 < createdAt d) ->
  (getRecentSnapshot fault now user maxAge db).2 = Some d.
Proof.
  intros Hf Hc Hnd Hd Hu Hs Hage Hnewest.
  assert (Hfilter : ∀ x, recentFilter user (now - maxAge * 60 * 1000) x = true <->
            instagramUsername x = user ∧ now - maxAge * 60 * 1000 ≤ createdAt x
            ∧ status x = Completed).
  { intros x. unfold recentFilter.
    rewrite !andb_true_iff, String.eqb_eq, Z.leb_le.
    destruct (status x); simpl; intuition congruence. }
  assert (newest (List.filter (recentFilter user (now - maxAge * 60 * 1000)) (docs db))
          = Some d) as Hnew.
  { apply newest_strict.
    - by apply NoDup_ids_filter.
    - rewrite list_elem_of_In, filter_In, <- list_elem_of_In. split; [done|].
      by apply Hfilter.
    - intros x Hx Hne. apply list_elem_of_In, filter_In in Hx as [Hx Hfx].
      apply Hfilter in Hfx as (? & ? & ?). rewrite <- list_elem_of_In in Hx.
      by apply Hnewest. }
  unfold getRecentSnapshot.
  destruct (connectDB_docs fault db) as [Hdocs _].
  pose proof (connectDB_ok fault db) as Hok.
  destruct (connectDB fault db) as [db1 ok]. cbn [fst snd] in *.
  destruct ok; [|destruct Hc as [Hc|Hc]; destruct Hok as [[? ?] _]; congruence].
  cbn [negb]. rewrite Hdocs. by destruct fault.
Qed.

(** What [findOne] returned is the newest the filter lets through. *)
Lemma getRecentSnapshot_max fault now user maxAge db r :
  (getRecentSnapshot fault now user maxAge db).2 = Some r ->
  ∀ d2, d2 ∈ docs db -> instagramUsername d2 = user -> status d2 = Completed ->
        now - maxAge * 60 * 1000 ≤ createdAt d2 -> createdAt d2 ≤ createdAt r.
Proof.
  intros Hr d2 Hd2 Hu2 Hs2 Hc2.
  assert (Hnew : newest (List.filter (recentFilter user (now - maxAge * 60 * 1000))
                                     (docs db)) = Some r).
  { revert Hr. unfold getRecentSnapshot.
    destruct (connectDB_docs fault db) as [Hdocs _].
    destruct (connectDB fault db) as [db1 ok]. cbn [fst] in Hdocs.
    destruct ok; cbn [negb snd]; [|done]. rewrite Hdocs. by destruct fault. }
  apply (newest_max _ _ Hnew). rewrite list_elem_of_In, filter_In, <- list_elem_of_In.
  split; [done|]. unfold recentFilter. rewrite Hu2, String.eqb_refl, Hs2.
  apply Z.leb_le in Hc2. by rewrite Hc2.
Qed.

(** C3, amended.  Let [scrape] return a result for a run whose runId is
    new to the store and none of whose stage writes failed at the
    read-back, and let the store hold the completed document [d] of the
    run.  Then the answer the cache branch builds from [d] has the cards
    of the result, its steps under the same names and paths and with the
    same meta fields, in the same order and no other, its runId and its
    snapshotId (and [cached: true]); the time stamps inside the meta are
    not compared, they are read from the clock twice.  In every later
    store that still holds [d], a lookup
    [getRecentSnapshot(username, maxAgeMinutes)] with the document not
    older than [maxAgeMinutes] and every other completed document of
    the user created earlier returns [d]; with the 60 minutes of the
    route the cache branch answers from it.  Whatever
    [getRecentSnapshot] returns is a completed document of the user
    inside the age bound, and no such document was created later.  At
    every time before [createdAt + 600 s] the document survives the TTL
    monitor and is inside the 60 minutes of the route.  Once the monitor
    has passed at or after [createdAt + 600 s], with the index in place,
    [getRecentSnapshot] does not return [d] any more, and returns
    [null] for the user when no completed document of the user was
    created later. *)
Theorem C3_cached_run_matches_completion (username : string) (onStep : bool)
    (w : World) (store : Db) (st : Run) (r : Result.t) (d : Doc) :
  wellFormed store ->
  existsb (matchesRun username (Scrape.runId w)) (docs store) = false ->
  (∀ stage, saveFault w stage ≠ FindRejects) ->
  scrape username onStep w store = (st, Ok r) ->
  d ∈ docs (db st) ->
  matchesRun username (Scrape.runId w) d = true ->
  status d = Completed ->
  (Server.cards (Server.cachedResponse d) = Result.cards r
   ∧ map cachedData (Server.steps (Server.cachedResponse d))
     = map entryData (Result.steps r)
   ∧ Some (Server.snapshotId (Server.cachedResponse d)) = Result.snapshotId r
   ∧ Server.runId (Server.cachedResponse d) = Result.runId r
   ∧ Server.cached (Server.cachedResponse d) = true)
  ∧ (∀ fault now maxAgeMinutes later,
       fault ≠ FindRejects -> (client later = true ∨ fault ≠ Unreachable) ->
       NoDup (map _id (docs later)) -> d ∈ docs later ->
       now - maxAgeMinutes * 60 * 1000 ≤ createdAt d ->
       (∀ d2, d2 ∈ docs later -> _id d2 ≠ _id d -> instagramUsername d2 = username ->
              status d2 = Completed -> createdAt d2 < createdAt d) ->
       (getRecentSnapshot fault now username maxAgeMinutes later).2 = Some d
       ∧ (maxAgeMinutes = 60 ->
          (Server.stalkersCache fault now username later).2
          = Some (Server.cachedResponse d)))
  ∧ (∀ fault now user maxAgeMinutes store' r',
       (getRecentSnapshot fault now user maxAgeMinutes store').2 = Some r' ->
       r' ∈ docs store' ∧ instagramUsername r' = user ∧ status r' = Completed
       ∧ now - maxAgeMinutes * 60 * 1000 ≤ createdAt r'
       ∧ ∀ d2, d2 ∈ docs store' -> instagramUsername d2 = user -> status d2 = Completed ->
               now - maxAgeMinutes * 60 * 1000 ≤ createdAt d2 ->
               createdAt d2 ≤ createdAt r')
  ∧ (∀ now, ownIndex (db st) -> now < createdAt d + 600 * 1000 ->
       d ∈ docs (ttlMonitor now (db st))
       ∧ NoDup (map _id (docs (ttlMonitor now (db st))))
       ∧ now - 60 * 60 * 1000 ≤ createdAt d)
  ∧ (∀ now, ttlIndex (db st) = Some 600 -> createdAt d + 600 * 1000 ≤ now ->
       (∀ fault now' user maxAgeMinutes r',
          (getRecentSnapshot fault now' user maxAgeMinutes (ttlMonitor now (db st))).2
          = Some r' -> _id r' ≠ _id d)
       ∧ ((∀ d2, d2 ∈ docs (db st) -> instagramUsername d2 = username ->
                 status d2 = Completed -> createdAt d2 ≤ createdAt d) ->
          ∀ fault now' maxAgeMinutes,
            (getRecentSnapshot fault now' username maxAgeMinutes
               (ttlMonitor now (db st))).2 = None
            ∧ (Server.stalkersCache fault now' username (ttlMonitor now (db st))).2
              = None)).
Proof.
  intros Hwf Hfresh Hback Hrun Hd Hk Hdone.
  destruct (scrape_mirror username onStep w Hback store st r d Hwf Hfresh Hrun Hd Hk Hdone)
    as (Hwf' & Hcards & Hnames & Hpaths & Hsid & Hrid).
  assert (Huser : instagramUsername d = username).
  { unfold matchesRun in Hk. by apply andb_true_iff in Hk as [?%String.eqb_eq _]. }
  repeat apply conj.
  - cbn. by rewrite Hcards.
  - cbn [Server.steps Server.cachedResponse]. rewrite map_map.
    transitivity (map (λ p : string * list (string * option string),
                         (p.1, snapshotPath (_id d) p.1, p.2))
                      (map storedFields (Mongo.steps d))).
    { by rewrite map_map. }
    rewrite Hnames, map_map. apply map_ext_in. intros e He%list_elem_of_In.
    unfold entryData, entryFields. cbn [fst snd]. by rewrite (Hpaths e He).
  - cbn. by rewrite Hsid.
  - cbn. by rewrite Hrid.
  - done.
  - intros fault now maxAge later Hf Hc Hnd Hin Hage Hnewest.
    assert (Hget : (getRecentSnapshot fault now username maxAge later).2 = Some d)
      by (by apply getRecentSnapshot_newest).
    split; [exact Hget|]. intros ->. unfold Server.stalkersCache, Server.cacheMinutes.
    destruct (getRecentSnapshot _ _ _ _ _) as [db' res]. cbn [snd] in *. by rewrite Hget.
  - intros fault now user maxAge store' r' Hr.
    destruct (getRecentSnapshot_elem _ _ _ _ _ _ Hr) as (Hin & Hu & Hs & Hc).
    repeat split; try done. by eapply getRecentSnapshot_max.
  - intros now Hown Hlive. split; [|split; [|lia]].
    + destruct Hown as [Hi|Hi]; [by rewrite ttlMonitor_none|].
      apply ttlMonitor_docs; [done|done|]. unfold expiresAt, expireAfterSeconds. lia.
    + by pose proof (applyOp_wellFormed (db st) (TtlMonitor now) Hwf') as (? & _).
  - intros now Hidx Hexp.
    assert (Hlive : ∀ x, x ∈ docs (ttlMonitor now (db st)) ->
              x ∈ docs (db st) ∧ now < createdAt x + 600 * 1000).
    { intros x Hx. pose proof (ttlMonitor_sub _ _ _ Hx) as Hx'. split; [done|].
      apply (ttlMonitor_docs now (db st) x Hidx Hx') in Hx.
      unfold expiresAt, expireAfterSeconds in Hx. lia. }
    split.
    + intros fault now' user maxAge r' Hr Hid.
      destruct (getRecentSnapshot_elem _ _ _ _ _ _ Hr) as (Hin & _).
      destruct (Hlive r' Hin) as [Hin' Hlt].
      assert (r' = d) as -> by (destruct Hwf' as (Hnd & _); eapply unique_id; eauto).
      lia.
    + intros Hlast fault now'.
      assert (Hnone : ∀ maxAge, (getRecentSnapshot fault now' username maxAge
                                   (ttlMonitor now (db st))).2 = None).
      { intros maxAge.
        destruct (getRecentSnapshot _ _ _ _ _).2 as [r'|] eqn:Hr; [|done].
        destruct (getRecentSnapshot_elem _ _ _ _ _ _ Hr) as (Hin & Hu & Hs & _).
        destruct (Hlive r' Hin) as [Hin' Hlt]. specialize (Hlast r' Hin' Hu Hs). lia. }
      intros maxAge. split; [apply Hnone|]. unfold Server.stalkersCache.
      specialize (Hnone Server.cacheMinutes).
      destruct (getRecentSnapshot _ _ _ _ _) as [db' res]. cbn [snd] in *. by rewrite Hnone.
Qed.

Lemma C3_cached_happy_run :
  (getRecentSnapshot NoFault 100000 "bob" 60
     (ttlMonitor 100000 (db StoreSamples.happyRun.1))).2 = Some StoreSamples.happyDoc
  ∧ Server.cards (Server.cachedResponse StoreSamples.happyDoc)
    = Result.cards StoreSamples.happyResult
  ∧ map cachedData (Server.steps (Server.cachedResponse StoreSamples.happyDoc))
    = map entryData (Result.steps StoreSamples.happyResult)
  ∧ (getRecentSnapshot NoFault 700000 "bob" 60
       (ttlMonitor 700000 (db StoreSamples.happyRun.1))).2 = None.
Proof.
  destruct (C3_cached_run_matches_completion "bob" false RunSamples.happyWorld emptyDb
              StoreSamples.happyRun.1 StoreSamples.happyResult StoreSamples.happyDoc)
    as ((Hcards & Hsteps & _) & Hget & _ & Hlive & Hgone).
  - apply emptyDb_wellFormed.
  - reflexivity.
  - intros stage. vm_compute. congruence.
  - vm_compute. reflexivity.
  - vm_compute. by left.
  - vm_compute. reflexivity.
  - vm_compute. reflexivity.
  - destruct (Hlive 100000) as (Hin & Hnd & _); [by right|vm_compute; reflexivity|].
    split; [|split; [exact Hcards|split; [exact Hsteps|]]].
    + apply (Hget NoFault 100000 60); [congruence|by right|exact Hnd|exact Hin
                                       |vm_compute; congruence|].
      intros d2 Hd2 Hne. vm_compute in Hd2. apply list_elem_of_singleton in Hd2 as ->.
      by destruct Hne.
    + destruct (Hgone 700000) as [_ Hnone]; [reflexivity|vm_compute; congruence|].
      apply Hnone. intros d2 Hd2 _ _. vm_compute in Hd2.
      apply list_elem_of_singleton in Hd2 as ->. vm_compute. congruence.
Defined.

(** C3, as stated, fails, in four ways.  When the read-back of the id
    fails behind a stage write, the stored run holds a step that the
    returned result lacks.  The time stamp in the meta of a step is read
    from the clock once for the store and once more for the entry of
    the result.  A run whose TTL has elapsed is still returned as long
    as the TTL monitor has not passed.  And when the runId was used
    before, the document holds the steps of both runs. *)
Lemma C3_cached_answer_differs :
  (StoreSamples.readBackRun.2 = Ok StoreSamples.readBackResult
   ∧ (getRecentSnapshot NoFault 100000 "bob" 60 (db StoreSamples.readBackRun.1)).2
     = Some (StoreSamples.firstDoc (db StoreSamples.readBackRun.1))
   ∧ map Server.name
       (Server.steps
          (Server.cachedResponse (StoreSamples.firstDoc (db StoreSamples.readBackRun.1))))
     = ["landing"; "username-entry"; "analyzing"; "profile-confirm"; "results";
        "full-report"]
   ∧ map name (Result.steps StoreSamples.readBackResult)
     = ["landing"; "username-entry"; "profile-confirm"; "results"; "full-report"])
  ∧ (StoreSamples.happyRun.2 = Ok StoreSamples.happyResult
     ∧ map (λ s, metaCapturedAt (Server.meta s))
         (Server.steps (Server.cachedResponse StoreSamples.happyDoc))
       = [2000; 2000; 2000; 2000; 2000; 2000]
     ∧ map (λ e, metaCapturedAt (meta e)) (Result.steps StoreSamples.happyResult)
       = [2001; 2001; 2001; 2001; 2001; 2001])
  ∧ (createdAt StoreSamples.happyDoc = 2000
     ∧ ttlIndex (db StoreSamples.happyRun.1) = Some 600
     ∧ createdAt StoreSamples.happyDoc + 600 * 1000 < 700000
     ∧ (getRecentSnapshot NoFault 700000 "bob" 60 (db StoreSamples.happyRun.1)).2
       = Some StoreSamples.happyDoc
     ∧ (Server.stalkersCache NoFault 700000 "bob" (db StoreSamples.happyRun.1)).2
       = Some (Server.cachedResponse StoreSamples.happyDoc))
  ∧ (StoreSamples.repeatedRun.2 = Ok StoreSamples.repeatedResult
     ∧ docs (db StoreSamples.repeatedRun.1)
       = [StoreSamples.firstDoc (db StoreSamples.repeatedRun.1)]
     ∧ status (StoreSamples.firstDoc (db StoreSamples.repeatedRun.1)) = Completed
     ∧ length (Result.steps StoreSamples.repeatedResult) = 6%nat
     ∧ length (Server.steps
                 (Server.cachedResponse
                    (StoreSamples.firstDoc (db StoreSamples.repeatedRun.1)))) = 12%nat).
Proof. vm_compute. repeat split. Qed.
End CacheProps.

(** ** The steps of a run and the store *)

Module PersistProps.
Import Js Mongo StoreOps StoreProps StoreOrder Scrape RunLogic Ledger RunStore CaptureProps.
Local Open Scope nat_scope.

Section ForRun.
Variables (username : string) (onStep : bool) (w : World).
(** The store the run started on. *)
Variable store : Db.

Abbreviation key := (matchesRun username (runId w)).

Abbreviation stored := (stored username w store).

Lemma grows_key d d' : grows d d' -> key d = true -> key d' = true.
Proof. intros (_ & Hu & Hr & _) Hk. unfold matchesRun in *. by rewrite Hu, Hr. Qed.

Lemma grows_step d d' s : grows d d' -> s ∈ Mongo.steps d -> s ∈ Mongo.steps d'.
Proof. intros (_ & _ & _ & _ & [k ->] & _) Hs. apply elem_of_app. by left. Qed.

(** Entries stay in the store over a call of mongodb.js. *)
Lemma persisted_over st st' op :
  db st' = applyOp (db st) op -> faultOf op ≠ None -> steps st' = steps st ->
  persisted username w st -> persisted username w st'.
Proof.
  intros Hdb Hop Hsteps Hp e He. rewrite Hsteps in He.
  destruct (Hp e He) as (d & s & Hd & Hk & Hpath & Hs & Hf).
  destruct (applyOp_forward (db st) op d Hop Hd) as (d' & Hd' & Hg).
  exists d', s. rewrite Hdb. split; [done|]. split; [by eapply grows_key|].
  destruct Hg as (Hid & Hrest). rewrite Hid. split; [done|].
  split; [|done]. eapply grows_step; [|done]. by split.
Qed.

(** What one call of [captureStep] does to the store. *)
Lemma captureStep_store stage fields st :
  let st' := (captureStep username onStep w stage fields st).1 in
  match content w stage with
  | Throw _ => db st' = db st
  | Ok html =>
      let saved := saveSnapshotStep (saveFault w stage) (saveTime w stage)
                     username (runId w) stage html fields (db st) in
      db st' = saved.1
      ∧ match savedId saved.2 with
        | Some id =>
            (∃ entry, steps st' = steps st ++ [entry] ∧ entryData entry
                      = (stage, snapshotPath id stage, fields))
            ∧ ∃ d before s,
                d ∈ docs (db st') ∧ _id d = id ∧ key d = true
                ∧ Mongo.steps d = before ++ [s]
                ∧ stepName s = stage ∧ stepHtml s = html
                ∧ metaFields (stepMeta s) = fields
        | None => saveFault w stage ≠ FindRejects -> docs (db st') = docs (db st)
        end
  end.
Proof.
  unfold Scrape.captureStep. destruct (content w stage) as [html|e]; [|done].
  pose proof (saveSnapshotStep_lost (saveFault w stage) (saveTime w stage) username
                (runId w) stage html fields (db st)) as Hlost.
  destruct (saveSnapshotStep _ _ _ _ _ _ _ _) as [db' [[sd [id|]]|]] eqn:Hsave;
    cbn [fst snd savedId db steps] in *; (split; [done|]).
  - split; [by eexists|].
    destruct (saveSnapshotStep_stored _ _ _ _ _ _ _ _ _ _ _ Hsave)
      as (-> & d & Hd & Hid & Hk & before & Hsteps).
    eexists d, before, _. split; [done|]. split; [done|]. split; [done|].
    split; [exact Hsteps|]. done.
  - intros Hf. by apply Hlost.
  - intros Hf. by apply Hlost.
Qed.

Lemma captureStep_keeps_stored stage fields :
  keeps stored (captureStep username onStep w stage fields).
Proof.
  intros st [Hwf Hp]. unfold wp.
  pose proof (captureStep_store stage fields st) as Hstore.
  pose proof (captureStep_effect username onStep w stage fields st) as Heff.
  cbv zeta in Hstore, Heff.
  set (st' := (captureStep username onStep w stage fields st).1) in *.
  destruct (content w stage) as [html|e].
  - destruct Hstore as [Hdb Hcase].
    set (op := SaveStep (saveFault w stage) (saveTime w stage) username (runId w)
                        stage html fields).
    assert (Hop : db st' = applyOp (db st) op) by done.
    split; [intros H; rewrite Hop; by apply applyOp_wellFormed, Hwf|].
    destruct (savedId _) as [id|].
    + destruct Hcase as [(entry & Hsteps & Hentry) (d & before & s & Hd & Hid & Hk & Hds & Hs)].
      intros e He. rewrite Hsteps in He. apply elem_of_app in He as [He|He].
      * destruct (Hp e He) as (d0 & s0 & Hd0 & Hk0 & Hpath & Hs0 & Hf0).
        destruct (applyOp_forward (db st) op d0) as (d' & Hd' & Hg); [done|done|].
        exists d', s0. rewrite Hop. split; [done|]. split; [by eapply grows_key|].
        destruct Hg as (Hid' & Hrest). rewrite Hid'. split; [done|].
        split; [|done]. eapply grows_step; [|done]. by split.
      * apply list_elem_of_singleton in He as ->. exists d, s.
        unfold entryData in Hentry. injection Hentry as Hn Hpath Hfields.
        split; [done|]. split; [done|]. split; [by rewrite Hid, Hn|].
        split; [rewrite Hds; apply elem_of_app; right; by left|].
        unfold storedFields, entryFields. destruct Hs as (-> & _ & ->). by rewrite Hn, Hfields.
    + destruct Heff as (Hsteps & _). by eapply (persisted_over st st' op).
  - destruct Heff as (Hsteps & _). split; [by rewrite Hstore|].
    intros x Hx. rewrite Hsteps in Hx. rewrite Hstore. by apply Hp.
Qed.

Lemma saveResult_keeps_stored data : keeps stored (saveResult username w data).
Proof.
  intros st [Hwf Hp]. unfold wp.
  set (op := SaveResult (resultFault w) (resultTime w) username (runId w) data).
  assert (Hop : db (saveResult username w data st).1 = applyOp (db st) op
                ∧ steps (saveResult username w data st).1 = steps st).
  { unfold saveResult, op. cbn [applyOp]. by destruct (saveSnapshotResult _ _ _ _ _ _). }
  destruct Hop as (Hdb & Hsteps). split.
  - intros H. rewrite Hdb. by apply applyOp_wellFormed, Hwf.
  - by eapply (persisted_over st _ op).
Qed.

Lemma lookupSnapshotId_keeps_stored : keeps stored (lookupSnapshotId username w).
Proof.
  intros st [Hwf Hp]. unfold wp, lookupSnapshotId.
  destruct (snapshotId st); [by split|].
  set (op := GetByRunId (lookupFault w) username (runId w)).
  pose proof (applyOp_wellFormed (db st) op) as Hwf'.
  pose proof (persisted_over st) as Hover. specialize (Hover) with (op := op).
  unfold op in *. cbn [applyOp] in *.
  destruct (getSnapshotByRunId _ _ _ _) as [db' saved]. cbn [fst snd] in *.
  split; [auto|]. by apply Hover.
Qed.

(** Every entry of the run's [steps] is in the store when the run
    ends, however it ends. *)
Lemma scrape_stored :
  let run := scrape username onStep w store in
  (wellFormed store -> wellFormed (db run.1)) ∧ persisted username w run.1.
Proof.
  pose proof (scrapeM_keeps username onStep w stored
                captureStep_keeps_stored (λ data _, saveResult_keeps_stored data)
                lookupSnapshotId_keeps_stored (initialRun store)) as H.
  destruct H as [HI _]; [|exact HI].
  split; [done|]. intros e He. by apply elem_of_nil in He.
Qed.
End ForRun.



End PersistProps.

(* ===================================================================== *)
(** * The queue: one execution per username                               *)
(* ===================================================================== *)

Module QueueProps.
Import Queue QueueState.

Section WithResult.
Context {R : Type}.
Implicit Types (st : State R) (ev : Event R) (es : list (Execution R)).

Lemma pending_live st p :
  pending st p = from_option (λ e, live (phase e)) false (executions st !! p).
Proof. unfold pending. by destruct (executions st !! p) as [[u []]|]. Qed.

Lemma setPhase_lookup p ph es u ph0 :
  es !! p = Some {| user := u; phase := ph0 |} ->
  setPhase p ph es !! p = Some {| user := u; phase := ph |}.
Proof.
  intros H. unfold setPhase. rewrite list_lookup_alter.
  case_decide; [|done]. by rewrite H.
Qed.

Lemma setPhase_lookup_ne p q ph es : p ≠ q -> setPhase p ph es !! q = es !! q.
Proof. intros H. unfold setPhase. by rewrite list_lookup_alter_ne. Qed.

Lemma setPhase_length p ph es : length (setPhase p ph es) = length es.
Proof. unfold setPhase. apply length_alter. Qed.

(** A reaction that keeps the promise pending changes nothing the
    map depends on. *)
Lemma setPhase_live st p ph u ph0 q :
  executions st !! p = Some {| user := u; phase := ph0 |} ->
  live ph0 = live ph ->
  from_option (λ e, live (phase e)) false (setPhase p ph (executions st) !! q)
  = from_option (λ e, live (phase e)) false (executions st !! q)
  ∧ user <$> setPhase p ph (executions st) !! q = user <$> executions st !! q.
Proof.
  intros Hp Hlive. destruct (decide (p = q)) as [<-|Hne].
  - rewrite (setPhase_lookup _ _ _ _ _ Hp), Hp. simpl. by rewrite Hlive.
  - by rewrite setPhase_lookup_ne.
Qed.

Lemma consistent_initial : consistent (initial (R := R)).
Proof.
  intros u p. unfold initial, pending. simpl. rewrite lookup_empty. naive_solver.
Qed.

Lemma enqueue_join st u p :
  processing st !! u = Some p ->
  enqueue u st =
    {| processing := processing st;
       waiting := <[u := S (default 0 (waiting st !! u))]> (waiting st);
       executions := executions st;
       callers := callers st ++ [p] |}.
Proof. intros H. unfold enqueue. by rewrite H. Qed.

Lemma enqueue_start st u :
  processing st !! u = None ->
  enqueue u st =
    {| processing := <[u := length (executions st)]> (processing st);
       waiting := waiting st;
       executions := executions st ++ [{| user := u; phase := Running |}];
       callers := callers st ++ [length (executions st)] |}.
Proof. intros H. unfold enqueue. by rewrite H. Qed.

Lemma consistent_bound st u p :
  consistent st -> processing st !! u = Some p -> p < length (executions st).
Proof.
  intros Hc [_ Hu]%Hc. apply lookup_lt_is_Some.
  destruct (executions st !! p); [eauto|done].
Qed.

Lemma enqueue_consistent st u : consistent st -> consistent (enqueue u st).
Proof.
  intros Hc. destruct (processing st !! u) as [p|] eqn:Hu.
  { rewrite (enqueue_join _ _ _ Hu). exact Hc. }
  rewrite (enqueue_start _ _ Hu). intros u' p'. rewrite pending_live. simpl.
  pose proof (Hc u' p') as Hc'.
  destruct (lt_eq_lt_dec p' (length (executions st))) as [[Hlt| ->]|Hgt].
  - rewrite lookup_app_l by done. rewrite <- pending_live, <- Hc'.
    destruct (decide (u = u')) as [<-|Hne].
    + rewrite lookup_insert_eq, Hu. split; [intros [=]; lia|done].
    + by rewrite lookup_insert_ne.
  - rewrite list_lookup_middle by done. simpl.
    destruct (decide (u = u')) as [<-|Hne].
    + rewrite lookup_insert_eq. naive_solver.
    + rewrite lookup_insert_ne by done. split; [|naive_solver].
      intros H%consistent_bound; [lia|done].
  - rewrite lookup_ge_None_2 by (rewrite length_app; simpl; lia). simpl.
    split; [|naive_solver]. destruct (decide (u = u')) as [<-|Hne].
    + rewrite lookup_insert_eq. intros [=]. lia.
    + rewrite lookup_insert_ne by done. intros H%consistent_bound; [lia|done].
Qed.

Lemma step_consistent ev st st' :
  consistent st -> step ev st = Some st' -> consistent st'.
Proof.
  intros Hc. destruct ev as [u|p o|p|p]; simpl.
  - intros [= <-]. by apply enqueue_consistent.
  - destruct (executions st !! p) as [[u []]|] eqn:Hp; try done. intros [= <-].
    intros u' p'. rewrite pending_live. simpl.
    destruct (setPhase_live st p (Settled o) u Running p' Hp eq_refl) as [-> ->].
    rewrite <- pending_live. apply (Hc u' p').
  - destruct (executions st !! p) as [[u [|o|o|o]]|] eqn:Hp; try done. intros [= <-].
    intros u' p'. rewrite pending_live. simpl.
    destruct (setPhase_live st p (Notified o) u (Settled o) p' Hp eq_refl) as [-> ->].
    rewrite <- pending_live. apply (Hc u' p').
  - destruct (executions st !! p) as [[u [|o|o|o]]|] eqn:Hp; try done. intros [= <-].
    assert (Hup : processing st !! u = Some p).
    { apply Hc. rewrite pending_live, Hp. done. }
    intros u' p'. rewrite pending_live. simpl.
    destruct (decide (p = p')) as [<-|Hne].
    + rewrite (setPhase_lookup _ _ _ _ _ Hp). simpl.
      split; [|naive_solver]. destruct (decide (u = u')) as [<-|Hu].
      * by rewrite lookup_delete_eq.
      * rewrite lookup_delete_ne by done. intros [_ Hu']%Hc.
        rewrite Hp in Hu'. naive_solver.
    + rewrite setPhase_lookup_ne by done. rewrite <- pending_live, <- (Hc u' p').
      destruct (decide (u = u')) as [<-|Hu].
      * rewrite lookup_delete_eq, Hup. naive_solver.
      * by rewrite lookup_delete_ne.
Qed.

Lemma run_consistent evs st st' :
  consistent st -> run evs st = Some st' -> consistent st'.
Proof.
  revert st. induction evs as [|ev evs IH]; intros st Hc; simpl.
  - by intros [= <-].
  - destruct (step ev st) as [st1|] eqn:Hstep; [|done].
    apply IH. by eapply step_consistent.
Qed.

Lemma step_callers ev st st' :
  step ev st = Some st' -> callers st `prefix_of` callers st'.
Proof.
  destruct ev as [u|p o|p|p]; simpl.
  - intros [= <-]. unfold enqueue.
    destruct (processing st !! u); simpl; by apply prefix_app_r.
  - destruct (executions st !! p) as [[u []]|]; try done. by intros [= <-].
  - destruct (executions st !! p) as [[u []]|]; try done. by intros [= <-].
  - destruct (executions st !! p) as [[u []]|]; try done. by intros [= <-].
Qed.

Lemma run_callers evs st st' :
  run evs st = Some st' -> callers st `prefix_of` callers st'.
Proof.
  revert st. induction evs as [|ev evs IH]; intros st; simpl.
  - by intros [= <-].
  - destruct (step ev st) as [st1|] eqn:Hstep; [|done].
    intros H. trans (callers st1); [by eapply step_callers|by apply IH].
Qed.

Lemma returned_initial : returned (initial (R := R)).
Proof. intros p. simpl. lia. Qed.

Lemma step_returned ev st st' :
  returned st -> step ev st = Some st' -> returned st'.
Proof.
  intros Hr. destruct ev as [u|p o|p|p]; simpl.
  - intros [= <-] q. unfold enqueue.
    destruct (processing st !! u); simpl.
    + intros Hq. apply elem_of_app. left. by apply Hr.
    + rewrite length_app. simpl. intros Hq. apply elem_of_app.
      destruct (decide (q = length (executions st))) as [->|Hne].
      * right. by left.
      * left. apply Hr. lia.
  - destruct (executions st !! p) as [[u []]|]; try done. intros [= <-] q.
    simpl. rewrite setPhase_length. apply Hr.
  - destruct (executions st !! p) as [[u []]|]; try done. intros [= <-] q.
    simpl. rewrite setPhase_length. apply Hr.
  - destruct (executions st !! p) as [[u []]|]; try done. intros [= <-] q.
    simpl. rewrite setPhase_length. apply Hr.
Qed.

Lemma run_returned evs st st' :
  returned st -> run evs st = Some st' -> returned st'.
Proof.
  revert st. induction evs as [|ev evs IH]; intros st Hr; simpl.
  - by intros [= <-].
  - destruct (step ev st) as [st1|] eqn:Hstep; [|done].
    apply IH. by eapply step_returned.
Qed.

Lemma outcomeOf_done st p o :
  outcomeOf st p = Some o <-> ∃ u, executions st !! p = Some {| user := u; phase := Done o |}.
Proof.
  unfold outcomeOf. destruct (executions st !! p) as [[u []]|]; naive_solver.
Qed.

(** A settled promise keeps its outcome. *)
Lemma step_outcome ev st st' p o :
  step ev st = Some st' -> outcomeOf st p = Some o -> outcomeOf st' p = Some o.
Proof.
  intros Hstep. rewrite !outcomeOf_done. intros [u Hp]. exists u.
  destruct ev as [u'|q o'|q|q]; simpl in Hstep.
  - injection Hstep as <-. unfold enqueue.
    destruct (processing st !! u'); simpl; [done|]. by apply lookup_app_l_Some.
  - destruct (executions st !! q) as [[u' []]|] eqn:Hq; try done.
    injection Hstep as <-. simpl. rewrite setPhase_lookup_ne; [done|]. intros ->. congruence.
  - destruct (executions st !! q) as [[u' []]|] eqn:Hq; try done.
    injection Hstep as <-. simpl. rewrite setPhase_lookup_ne; [done|]. intros ->. congruence.
  - destruct (executions st !! q) as [[u' []]|] eqn:Hq; try done.
    injection Hstep as <-. simpl. rewrite setPhase_lookup_ne; [done|]. intros ->. congruence.
Qed.

Lemma run_outcome evs st st' p o :
  run evs st = Some st' -> outcomeOf st p = Some o -> outcomeOf st' p = Some o.
Proof.
  revert st. induction evs as [|ev evs IH]; intros st; simpl.
  - by intros [= <-].
  - destruct (step ev st) as [st1|] eqn:Hstep; [|done].
    intros Hrun Hp. apply (IH st1 Hrun). by eapply step_outcome.
Qed.

Lemma inFlight_elem st u p :
  p ∈ inFlight st u <-> pending st p = true ∧ user <$> executions st !! p = Some u.
Proof.
  unfold inFlight. rewrite list_elem_of_In, filter_In, in_seq, andb_true_iff, bool_decide_eq_true.
  split; [tauto|]. intros [Hp Hu]. split; [|done]. split; [lia|]. simpl.
  apply lookup_lt_is_Some. destruct (executions st !! p); [eauto|done].
Qed.

Lemma inFlight_NoDup st u : NoDup (inFlight st u).
Proof. apply NoDup_ListNoDup, List.NoDup_filter, seq_NoDup. Qed.

Lemma at_most_one {A} (l : list A) :
  NoDup l -> (∀ x y, x ∈ l -> y ∈ l -> x = y) -> length l ≤ 1.
Proof.
  intros Hnd Heq. destruct l as [|a [|b l]]; simpl; [lia|lia|].
  apply NoDup_cons in Hnd as [Ha _]. destruct Ha.
  rewrite (Heq a b); [by left|by left|by right; left].
Qed.

Lemma step_settledWith ev st st' p o :
  step ev st = Some st' -> settledWith st p = Some o -> settledWith st' p = Some o.
Proof.
  intros Hstep. unfold settledWith.
  destruct (executions st !! p) as [[u ph]|] eqn:Hp; [|done]. simpl. intros Hph.
  destruct ev as [u'|q o'|q|q]; simpl in Hstep.
  - injection Hstep as <-. unfold enqueue. destruct (processing st !! u'); simpl.
    + by rewrite Hp.
    + by rewrite (lookup_app_l_Some _ _ _ _ Hp).
  - destruct (executions st !! q) as [[u' []]|] eqn:Hq; try done.
    injection Hstep as <-. simpl. destruct (decide (q = p)) as [->|Hne].
    + rewrite Hp in Hq. by injection Hq as -> ->.
    + by rewrite setPhase_lookup_ne, Hp.
  - destruct (executions st !! q) as [[u' []]|] eqn:Hq; try done.
    injection Hstep as <-. simpl. destruct (decide (q = p)) as [->|Hne].
    + rewrite (setPhase_lookup _ _ _ _ _ Hq). rewrite Hp in Hq.
      by injection Hq as -> ->.
    + by rewrite setPhase_lookup_ne, Hp.
  - destruct (executions st !! q) as [[u' []]|] eqn:Hq; try done.
    injection Hstep as <-. simpl. destruct (decide (q = p)) as [->|Hne].
    + rewrite (setPhase_lookup _ _ _ _ _ Hq). rewrite Hp in Hq.
      by injection Hq as -> ->.
    + by rewrite setPhase_lookup_ne, Hp.
Qed.

Lemma run_settledWith evs st st' p o :
  run evs st = Some st' -> settledWith st p = Some o -> settledWith st' p = Some o.
Proof.
  revert st. induction evs as [|ev evs IH]; intros st; simpl.
  - by intros [= <-].
  - destruct (step ev st) as [st1|] eqn:Hstep; [|done].
    intros Hrun Hp. apply (IH st1 Hrun). by eapply step_settledWith.
Qed.

Lemma settle_settledWith st st' p o :
  step (Settle p o) st = Some st' -> settledWith st' p = Some o.
Proof.
  simpl. destruct (executions st !! p) as [[u []]|] eqn:Hp; try done.
  intros [= <-]. unfold settledWith. simpl. by rewrite (setPhase_lookup _ _ _ _ _ Hp).
Qed.

Lemma outcomeOf_settledWith st p o :
  outcomeOf st p = Some o -> settledWith st p = Some o.
Proof. rewrite outcomeOf_done. intros [u Hp]. unfold settledWith. by rewrite Hp. Qed.

(** An entry leaves the map by the [finally] reaction of its own
    execution and in no other way. *)
Lemma step_entry ev st st' u p :
  consistent st -> step ev st = Some st' -> processing st !! u = Some p ->
  (ev = Finally p ∧ processing st' !! u = None
   ∧ ∃ o, settledWith st p = Some o ∧ outcomeOf st' p = Some o ∧ pending st' p = false)
  ∨ (ev ≠ Finally p ∧ processing st' !! u = Some p).
Proof.
  intros Hc Hstep Hu. destruct ev as [u'|q o'|q|q]; simpl in Hstep.
  - right. split; [done|]. injection Hstep as <-. unfold enqueue.
    destruct (processing st !! u') eqn:Hu'; simpl; [done|].
    rewrite lookup_insert_ne; [done|]. intros ->. congruence.
  - right. split; [done|].
    destruct (executions st !! q) as [[u' []]|]; try done. by injection Hstep as <-.
  - right. split; [done|].
    destruct (executions st !! q) as [[u' []]|]; try done. by injection Hstep as <-.
  - destruct (executions st !! q) as [[u' [|o|o|o]]|] eqn:Hq; try done.
    injection Hstep as <-. simpl.
    assert (Hq' : processing st !! u' = Some q).
    { apply Hc. rewrite pending_live, Hq. done. }
    destruct (decide (u' = u)) as [->|Hne].
    + left. assert (q = p) as -> by congruence.
      split; [done|]. split; [apply lookup_delete_eq|]. exists o.
      unfold settledWith, outcomeOf, pending. simpl.
      by rewrite Hq, (setPhase_lookup _ _ _ _ _ Hq).
    + right. split; [|by rewrite lookup_delete_ne].
      intros [= ->]. apply Hc in Hu as [_ Hu]. rewrite Hq in Hu. simpl in Hu. congruence.
Qed.
End WithResult.

(** C1.  In every state the queue reaches from the empty one, whatever
    the order of calls and of promise reactions: a username has at
    most one execution in flight, and the map [processing] holds its
    promise exactly while it is.  A call of [enqueue] for a username
    with an entry starts no execution and leaves the map as it is; the
    caller awaits the promise of the entry, which is pending and is the
    one an earlier caller holds, so that from then on both receive
    what that promise settles with, a result or an error alike.  A
    call for a username without an entry finds no execution in flight
    and starts exactly one.  An entry is never replaced; it leaves the
    map in the [finally] reaction of its own execution and in no other
    step, and with that step the promise settles with the outcome of
    the scrape.  A settled promise keeps its outcome, and it is the
    outcome [scrapeFunction] has settled with. *)
Theorem C1_one_execution_per_username (R : Type) (evs : list (Event R)) (st : State R) :
  run evs initial = Some st ->
  (∀ u, length (inFlight st u) ≤ 1)
  ∧ (∀ u p, processing st !! u = Some p <-> p ∈ inFlight st u)
  ∧ (∀ u p, processing st !! u = Some p ->
       executions (enqueue u st) = executions st
       ∧ processing (enqueue u st) = processing st
       ∧ callers (enqueue u st) = callers st ++ [p]
       ∧ pending st p = true
       ∧ (∃ k, k < length (callers st) ∧ callers st !! k = Some p)
       ∧ ∀ evs' st', run evs' (enqueue u st) = Some st' ->
           received st' (length (callers st)) = outcomeOf st' p
           ∧ ∀ k, callers st !! k = Some p -> received st' k = outcomeOf st' p)
  ∧ (∀ u, processing st !! u = None ->
       inFlight st u = []
       ∧ executions (enqueue u st) = executions st ++ [{| user := u; phase := Running |}]
       ∧ processing (enqueue u st) = <[u := length (executions st)]> (processing st)
       ∧ callers (enqueue u st) = callers st ++ [length (executions st)])
  ∧ (∀ ev st' u p, step ev st = Some st' -> processing st !! u = Some p ->
       (processing st' !! u = None <-> ev = Finally p)
       ∧ (processing st' !! u = None ->
          ∃ o, settledWith st p = Some o ∧ outcomeOf st' p = Some o ∧ pending st' p = false)
       ∧ (processing st' !! u = Some p ∨ processing st' !! u = None))
  ∧ (∀ p o st1 evs' st', step (Settle p o) st = Some st1 -> run evs' st1 = Some st' ->
       ∀ o', outcomeOf st' p = Some o' -> o' = o)
  ∧ (∀ p o evs' st', outcomeOf st p = Some o -> run evs' st = Some st' ->
       outcomeOf st' p = Some o).
Proof.
  intros Hrun.
  pose proof (run_consistent _ _ _ consistent_initial Hrun) as Hc.
  pose proof (run_returned _ _ _ returned_initial Hrun) as Hr.
  assert (Hin : ∀ u p, processing st !! u = Some p <-> p ∈ inFlight st u).
  { intros u p. rewrite inFlight_elem. apply Hc. }
  split; [|split; [exact Hin|]].
  { intros u. apply at_most_one; [apply inFlight_NoDup|].
    intros x y Hx%Hin Hy%Hin. congruence. }
  split; [|split; [|split; [|split]]].
  - intros u p Hu. rewrite (enqueue_join _ _ _ Hu). simpl.
    split; [done|]. split; [done|]. split; [done|].
    split; [by apply Hc in Hu as [? _]|].
    assert (Hp : p ∈ callers st) by (eapply Hr, consistent_bound; eauto).
    apply list_elem_of_lookup in Hp as [k Hk].
    split; [exists k; split; [by apply lookup_lt_Some in Hk|done]|].
    intros evs' st' Hrun'. apply run_callers in Hrun'. simpl in Hrun'.
    unfold received. split.
    + assert (Hnew : (callers st ++ [p]) !! length (callers st) = Some p)
        by by apply list_lookup_middle.
      by rewrite (prefix_lookup_Some _ _ _ _ Hnew Hrun').
    + intros k' Hk'.
      assert (Hold : (callers st ++ [p]) !! k' = Some p) by by apply lookup_app_l_Some.
      by rewrite (prefix_lookup_Some _ _ _ _ Hold Hrun').
  - intros u Hu. rewrite (enqueue_start _ _ Hu). simpl. split; [|done].
    destruct (inFlight st u) as [|p l] eqn:Hl; [done|].
    assert (Hp : p ∈ inFlight st u) by (rewrite Hl; by left).
    apply Hin in Hp. congruence.
  - intros ev st' u p Hstep Hu.
    destruct (step_entry _ _ _ _ _ Hc Hstep Hu) as [(-> & Hnone & Hout)|[Hne Hsome]].
    + split; [done|]. split; [done|]. by right.
    + rewrite Hsome. split; [split; [done|by intros ->]|]. split; [done|by left].
  - intros p o st1 evs' st' Hstep Hrun' o' Ho'.
    apply outcomeOf_settledWith in Ho'.
    pose proof (run_settledWith _ _ _ _ _ Hrun' (settle_settledWith _ _ _ _ Hstep)).
    congruence.
  - intros p o evs' st' Ho Hrun'. by eapply run_outcome.
Qed.

Lemma C1_second_caller_joins :
  let st := QueueSamples.after [Enqueue "bob"] in
  let st' := QueueSamples.after (QueueSamples.twoCallers QueueSamples.failure) in
  processing st !! "bob" = Some 0
  ∧ length (executions (enqueue "bob" st)) = 1
  ∧ received st' 0 = Some QueueSamples.failure
  ∧ received st' 1 = Some QueueSamples.failure
  ∧ processing st' !! "bob" = Some 2.
Proof.
  intros st st'.
  destruct (C1_one_execution_per_username nat [Enqueue "bob"] st eq_refl)
    as (_ & _ & Hjoin & _).
  assert (Hbob : processing st !! "bob" = Some 0) by (vm_compute; reflexivity).
  destruct (Hjoin "bob" 0 Hbob) as (Hexec & _ & _ & _ & _ & Hsame).
  destruct (Hsame (List.tl (List.tl (QueueSamples.twoCallers QueueSamples.failure))) st')
    as [Hsecond Hfirst]; [vm_compute; reflexivity|].
  split; [exact Hbob|]. split; [by rewrite Hexec|].
  split; [rewrite (Hfirst 0); vm_compute; reflexivity|].
  split; [change 1 with (length (callers st)); rewrite Hsecond; vm_compute; reflexivity|].
  vm_compute. reflexivity.
Defined.
End QueueProps.

(* ===================================================================== *)
(** * Further properties of the code                                      *)
(* ===================================================================== *)

(** ** Trimming *)

Module TrimProps.
Import Js Text UrlText TextProps.

Lemma trimEnd_idem s : trimEnd (trimEnd s) = trimEnd s.
Proof.
  induction s as [|c s IH]; [done|]. cbn [trimEnd].
  destruct (isSpace c && isEmpty (trimEnd s)) eqn:E; [done|].
  cbn [trimEnd]. by rewrite IH, E.
Qed.

Lemma trimStart_trimEnd s : trimStart (trimEnd (trimStart s)) = trimEnd (trimStart s).
Proof.
  induction s as [|c s IH]; [done|]. cbn [trimStart].
  destruct (isSpace c) eqn:Hc; [done|].
  cbn [trimEnd]. rewrite Hc. cbn [andb trimStart]. by rewrite Hc.
Qed.

Lemma trim_idem s : trim (trim s) = trim s.
Proof. unfold trim. by rewrite trimStart_trimEnd, trimEnd_idem. Qed.

Lemma trim_trimmed s : trimmed (trim s).
Proof. apply trim_idem. Qed.

Lemma trimStart_spaces s : allChars isSpace s = true -> trimStart s = EmptyString.
Proof.
  induction s as [|c s IH]; [done|]. intros [Hc Hs]%andb_true_iff.
  cbn [trimStart]. rewrite Hc. auto.
Qed.

Lemma trim_spaces s : allChars isSpace s = true -> trim s = EmptyString.
Proof. intros H. unfold trim. by rewrite trimStart_spaces. Qed.

Lemma trimStart_empty s : trimStart s = EmptyString -> allChars isSpace s = true.
Proof.
  induction s as [|c s IH]; [done|]. cbn [trimStart allChars].
  destruct (isSpace c); [auto|done].
Qed.

Lemma trimEnd_empty s : trimEnd s = EmptyString -> allChars isSpace s = true.
Proof.
  induction s as [|c s IH]; [done|]. cbn [trimEnd allChars].
  destruct (isSpace c); simpl; [|done].
  destruct (trimEnd s) eqn:E; [auto|done].
Qed.

Lemma allChars_trimStart cls s : allChars cls s = true -> allChars cls (trimStart s) = true.
Proof.
  induction s as [|c s IH]; [done|]. cbn [trimStart]. intros H.
  destruct (isSpace c); [|done]. apply IH. by apply andb_true_iff in H as [_ ?].
Qed.

(** White space only, and nothing else, trims to the empty string. *)
Lemma trim_empty_iff s : trim s = EmptyString <-> allChars isSpace s = true.
Proof.
  split; [|apply trim_spaces]. unfold trim. intros H%trimEnd_empty.
  induction s as [|c s IH]; [done|]. cbn [trimStart allChars] in *.
  destruct (isSpace c) eqn:Hc; [auto|]. cbn [allChars] in H. by rewrite Hc in H.
Qed.

Lemma trimEnd_prefix s : ∃ rest, s = trimEnd s +:+ rest.
Proof.
  induction s as [|c s [rest IH]]; [by exists EmptyString|]. cbn [trimEnd].
  destruct (isSpace c && isEmpty (trimEnd s)).
  - by exists (String c s).
  - exists rest. by rewrite app_cons, <- IH.
Qed.

Lemma trimStart_suffix s : ∃ pre, s = pre +:+ trimStart s.
Proof.
  induction s as [|c s [pre IH]]; [by exists EmptyString|]. cbn [trimStart].
  destruct (isSpace c).
  - exists (String c pre). by rewrite app_cons, <- IH.
  - by exists EmptyString.
Qed.
End TrimProps.

(* ===================================================================== *)
(** * mongodb.js: writes, reads and what they leave behind                *)
(* ===================================================================== *)

Module StoreMore.
Import Js Mongo StoreOps StoreProps StoreOrder.
Local Open Scope Z_scope.

(** X1.  A successful [saveSnapshotStep] changes the document of its run
    and no other: the documents of other runs are those of before; the
    document of the run has the new step behind the steps it had, with
    its creation time and status as they were, or it is new, under the
    next id, created now, in state processing and holding that step
    alone.  The id returned is the id of that document. *)
Theorem saveSnapshotStep_touches_its_run_only fault now user run name html meta db db' sd sid :
  saveSnapshotStep fault now user run name html meta db = (db', Some (sd, sid)) ->
  (∀ d, matchesRun user run d = false -> d ∈ docs db' <-> d ∈ docs db)
  ∧ (∀ d, List.find (matchesRun user run) (docs db) = Some d ->
       sid = Some (_id d)
       ∧ List.find (matchesRun user run) (docs db') = Some (pushStep sd d)
       ∧ steps (pushStep sd d) = steps d ++ [sd]
       ∧ createdAt (pushStep sd d) = createdAt d
       ∧ status (pushStep sd d) = status d
       ∧ length (docs db') = length (docs db))
  ∧ (List.find (matchesRun user run) (docs db) = None ->
       sid = Some (nextId db)
       ∧ ∃ d', List.find (matchesRun user run) (docs db') = Some d'
               ∧ _id d' = nextId db ∧ steps d' = [sd] ∧ createdAt d' = now
               ∧ status d' = Processing ∧ cards d' = None
               ∧ docs db' = docs db ++ [d'])
  ∧ stepName sd = name ∧ stepHtml sd = html.
Proof.
  intros Hsave. split; [|by eapply saveSnapshotStep_frame].
  destruct (saveSnapshotStep_done _ _ _ _ _ _ _ _ _ _ _ Hsave) as (-> & _ & Hcase).
  intros d Hd. destruct (List.find (matchesRun user run) (docs db)) as [d0|].
  - destruct Hcase as [-> _]. by apply updateFirst_other.
  - destruct Hcase as [-> _]. rewrite elem_of_app, list_elem_of_singleton.
    split; [|auto]. intros [? | ->]; [done|].
    unfold matchesRun in Hd. simpl in Hd.
    by rewrite String.eqb_refl, Z.eqb_refl in Hd.
Qed.

Lemma X1_first_save_creates_the_document :
  ∃ db' sd,
    saveSnapshotStep NoFault 1000 "bob" 990 "landing" "<html>landing</html>" [] emptyDb
    = (db', Some (sd, Some 0%nat))
    ∧ map steps (docs db') = [[sd]].
Proof.
  destruct (saveSnapshotStep NoFault 1000 "bob" 990 "landing" "<html>landing</html>" []
              emptyDb) as [db' r] eqn:Hsave.
  assert (Hr : ∃ sd, r = Some (sd, Some 0%nat)) by (vm_compute in Hsave; injection Hsave as _ <-; eauto).
  destruct Hr as [sd ->]. exists db', sd. split; [done|].
  destruct (saveSnapshotStep_touches_its_run_only _ _ _ _ _ _ _ _ _ _ _ Hsave)
    as (_ & _ & Hnew & _).
  destruct (Hnew eq_refl) as (_ & d' & _ & _ & Hsteps & _ & _ & _ & ->).
  simpl. by rewrite Hsteps.
Defined.

(** X2.  A saved step is read back.  After a successful
    [saveSnapshotStep] that returned the id [id], [getSnapshotStep(id,
    name)] returns the markup just saved, unless the run already held a
    step of that name: then the markup of the earliest such step is
    returned and the new one is shadowed.  The steps under other names
    read as before.  The snapshot route serves the same markup, or 404
    when it is the empty string. *)
Theorem saved_step_is_read_back fault now user run name html meta db db' sd id :
  wellFormed db ->
  saveSnapshotStep fault now user run name html meta db = (db', Some (sd, Some id)) ->
  let earlier :=
    d ← List.find (matchesRun user run) (docs db);
    stepHtml <$> List.find (λ s, String.eqb (stepName s) name) (steps d) in
  (getSnapshotStep NoFault id name db').2 = Some (default html earlier)
  ∧ (earlier = None -> (getSnapshotStep NoFault id name db').2 = Some html)
  ∧ (Server.snapshotRoute NoFault id name db').2
    = (if isEmpty (default html earlier) then Server.NotFound
       else Server.Html (default html earlier))
  ∧ (∀ other, other ≠ name ->
       (getSnapshotStep NoFault id other db').2 = (getSnapshotStep NoFault id other db).2).
Proof.
  intros Hwf Hsave earlier.
  pose proof (applyOp_wellFormed db (SaveStep fault now user run name html meta) Hwf)
    as (Hnd' & _).
  cbn [applyOp] in Hnd'. rewrite Hsave in Hnd'. cbn [fst] in Hnd'.
  destruct (saveSnapshotStep_frame _ _ _ _ _ _ _ _ _ _ _ Hsave)
    as (Hold & Hnew & Hname & Hhtml).
  assert (Hread : ∀ n, (getSnapshotStep NoFault id n db').2
            = match List.find (matchesRun user run) (docs db) with
              | Some d => stepHtml <$> List.find (λ s, String.eqb (stepName s) n)
                                                 (steps d ++ [sd])
              | None => stepHtml <$> List.find (λ s, String.eqb (stepName s) n) [sd]
              end).
  { intros n. destruct (List.find (matchesRun user run) (docs db)) as [d|] eqn:Hfind.
    - destruct (Hold d eq_refl) as ([= ->] & Hfind' & Hsteps & _).
      apply find_elem in Hfind' as [Hin _].
      rewrite (getSnapshotStep_found NoFault (_id d) n db' (pushStep sd d)); auto.
    - destruct (Hnew eq_refl) as ([= ->] & d' & Hfind' & Hid & Hsteps & _).
      apply find_elem in Hfind' as [Hin _].
      rewrite (getSnapshotStep_found NoFault (nextId db) n db' d'); auto.
      by rewrite Hsteps. }
  assert (Hget : (getSnapshotStep NoFault id name db').2 = Some (default html earlier)).
  { rewrite Hread. unfold earlier.
    destruct (List.find (matchesRun user run) (docs db)) as [d|]; simpl.
    - rewrite find_app_l.
      destruct (List.find (λ s, String.eqb (stepName s) name) (steps d)); simpl; [done|].
      rewrite Hname, String.eqb_refl. simpl. by rewrite Hhtml.
    - rewrite Hname, String.eqb_refl. simpl. by rewrite Hhtml. }
  split; [exact Hget|]. split; [intros He; by rewrite Hget, He|]. split.
  - unfold Server.snapshotRoute.
    destruct (getSnapshotStep NoFault id name db') as [s h]. cbn [snd] in Hget.
    subst h. by destruct (isEmpty _).
  - intros other Hother. rewrite Hread.
    assert (Hne : String.eqb (stepName sd) other = false).
    { rewrite Hname. apply String.eqb_neq. congruence. }
    destruct (List.find (matchesRun user run) (docs db)) as [d|] eqn:Hfind.
    + destruct (Hold d eq_refl) as ([= ->] & _).
      apply find_elem in Hfind as [Hin _]. destruct Hwf as (Hnd & _).
      rewrite (getSnapshotStep_found NoFault (_id d) other db d); auto.
      rewrite find_app_l. simpl. rewrite Hne.
      by destruct (List.find (λ s, String.eqb (stepName s) other) (steps d)).
    + destruct (Hnew eq_refl) as ([= ->] & _). simpl. rewrite Hne. simpl.
      symmetry. apply getSnapshotStep_absent.
      intros d Hd. destruct Hwf as (_ & Hlt). specialize (Hlt d Hd). lia.
Qed.

Lemma X2_landing_is_read_back :
  (getSnapshotStep NoFault 0 "landing"
     (saveSnapshotStep NoFault 1000 "bob" 990 "landing" "<html>landing</html>" [] emptyDb).1).2
  = Some "<html>landing</html>".
Proof.
  exact (proj1 (saved_step_is_read_back NoFault 1000 "bob" 990 "landing"
                  "<html>landing</html>" [] emptyDb _ _ 0%nat emptyDb_wellFormed eq_refl)).
Defined.

(** X3.  [saveSnapshotResult] does not upsert and does not look at what
    [updateOne] matched: for a run without a document it stores nothing
    and still reports success ([true]); a later [getSnapshotByRunId] for
    the run finds nothing. *)
Theorem result_without_document_is_lost fault now user run cs db :
  List.find (matchesRun user run) (docs db) = None ->
  client db = true ∨ fault ≠ Unreachable ->
  fault ≠ UpdateRejects ->
  let r := saveSnapshotResult fault now user run cs db in
  r.2 = Some true
  ∧ docs r.1 = docs db
  ∧ ∀ fault', (getSnapshotByRunId fault' user run r.1).2 = None.
Proof.
  intros Hnone Hc Hf r. unfold r, saveSnapshotResult.
  destruct (connectDB_docs fault db) as [Hdocs _].
  pose proof (connectDB_ok fault db) as Hok.
  destruct (connectDB fault db) as [db1 ok]. cbn [fst snd] in *.
  destruct ok; [|destruct Hc as [Hc|Hc]; destruct Hok as [[? ?] _]; congruence].
  cbn [negb].
  assert (Hsame : docs (withDocs db1 (updateFirst (matchesRun user run) (setResult cs now)
                                        (docs db1))) = docs db).
  { cbn [docs withDocs]. rewrite Hdocs. by apply updateFirst_none. }
  assert (Hget : ∀ fault' db2, docs db2 = docs db ->
                   (getSnapshotByRunId fault' user run db2).2 = None).
  { intros fault' db2 Hdb2. unfold getSnapshotByRunId.
    destruct (connectDB_docs fault' db2) as [Hdocs2 _].
    destruct (connectDB fault' db2) as [db3 ok3]. cbn [fst] in Hdocs2.
    destruct ok3; cbn [negb]; [|done]. rewrite Hdocs2, Hdb2.
    assert (List.find (λ d, matchesRun user run d && statusEqb (status d) Completed)
                      (docs db) = None) as ->.
    { destruct (List.find (λ d, _ && _) (docs db)) as [x|] eqn:Hx; [|done].
      apply find_elem in Hx as [Hin [Hm _]%andb_true_iff].
      apply list_elem_of_In in Hin. eapply find_none in Hnone; [|done]. congruence. }
    by destruct fault'. }
  destruct fault; try done; cbn [fst snd]; (split; [done|]); (split; [done|]).
  all: intros fault'; by apply Hget.
Qed.

Lemma X3_result_for_unknown_run :
  (saveSnapshotResult NoFault 3000 "bob" 990 [] emptyDb).2 = Some true
  ∧ docs (saveSnapshotResult NoFault 3000 "bob" 990 [] emptyDb).1 = [].
Proof.
  destruct (result_without_document_is_lost NoFault 3000 "bob" 990 [] emptyDb eq_refl)
    as (Hr & Hd & _).
  - by right.
  - done.
  - by split.
Defined.

(** X4.  The result of a run is read back.  When the run has a document,
    a successful [saveSnapshotResult] completes the first document of
    the run: it holds the cards passed and the completion time, and its
    id, creation time and steps are as before; [getSnapshotByRunId]
    then returns that document.  While every document of the run is in
    state processing, [getSnapshotByRunId] returns [null]. *)
Theorem saved_result_is_read_back fault now user run cs db db' d :
  List.find (matchesRun user run) (docs db) = Some d ->
  (∀ x, x ∈ docs db -> matchesRun user run x = true -> status x = Processing) ->
  saveSnapshotResult fault now user run cs db = (db', Some true) ->
  (∀ fault', (getSnapshotByRunId fault' user run db).2 = None)
  ∧ ∃ d', (getSnapshotByRunId NoFault user run db').2 = Some d'
          ∧ cards d' = Some cs ∧ status d' = Completed ∧ completedAt d' = Some now
          ∧ _id d' = _id d ∧ createdAt d' = createdAt d ∧ steps d' = steps d.
Proof.
  intros Hfind Hproc Hsave. split.
  - intros fault'. unfold getSnapshotByRunId.
    destruct (connectDB_docs fault' db) as [Hdocs _].
    destruct (connectDB fault' db) as [db1 ok]. cbn [fst] in Hdocs.
    destruct ok; cbn [negb]; [|done]. rewrite Hdocs.
    assert (List.find (λ d, matchesRun user run d && statusEqb (status d) Completed)
                      (docs db) = None) as ->; [|by destruct fault'].
    destruct (List.find (λ d, _ && _) (docs db)) as [x|] eqn:Hx; [|done].
    apply find_elem in Hx as [Hin [Hm Hs]%andb_true_iff].
    rewrite (Hproc x Hin Hm) in Hs. done.
  - exists (setResult cs now d). split; [|done].
    assert (Hdocs' : docs db' = updateFirst (matchesRun user run) (setResult cs now) (docs db)).
    { revert Hsave. unfold saveSnapshotResult.
      destruct (connectDB_docs fault db) as [Hdocs _].
      destruct (connectDB fault db) as [db1 ok]. cbn [fst] in Hdocs.
      destruct ok; cbn [negb]; [|done].
      destruct fault; try done; intros [= <-]; cbn [docs withDocs]; by rewrite Hdocs. }
    unfold getSnapshotByRunId.
    destruct (connectDB_docs NoFault db') as [Hdocs _].
    pose proof (connectDB_ok NoFault db') as Hok.
    destruct (connectDB NoFault db') as [db1 ok]. cbn [fst snd] in *.
    destruct ok; [|by destruct Hok as [[_ ?] _]]. cbn [negb snd].
    rewrite Hdocs, Hdocs'. clear -Hfind Hproc.
    induction (docs db) as [|x l IH]; [done|]. simpl in Hfind. simpl.
    destruct (matchesRun user run x) eqn:Hx.
    + injection Hfind as ->. simpl.
      change (matchesRun user run (setResult cs now d)) with (matchesRun user run d).
      by rewrite Hx.
    + simpl. rewrite Hx. simpl. apply IH; [done|]. intros y Hy. apply Hproc. by right.
Qed.

Lemma X4_history_result_is_read_back :
  ∃ d', (getSnapshotByRunId NoFault "bob" 990 (storeAfter StoreSamples.history)).2 = Some d'
        ∧ cards d' = Some [RunSamples.someCard] ∧ status d' = Completed.
Proof.
  destruct (saved_result_is_read_back NoFault 3000 "bob" 990 [RunSamples.someCard]
              (storeAfter (take 2 StoreSamples.history))
              (storeAfter StoreSamples.history)
              (StoreSamples.firstDoc (storeAfter (take 2 StoreSamples.history))))
    as (_ & d' & Hget & Hcards & Hst & _).
  - reflexivity.
  - intros x Hx _. vm_compute in Hx. apply list_elem_of_singleton in Hx as ->. reflexivity.
  - reflexivity.
  - by exists d'.
Defined.

(** Where a document after an operation comes from: from a document of
    before, of which it is a later state, or from an insertion under
    the next id. *)
Lemma applyOp_grows db op d' :
  d' ∈ docs (applyOp db op) ->
  (∃ d, d ∈ docs db ∧ grows d d')
  ∨ (_id d' = nextId db ∧ nextId (applyOp db op) = S (nextId db)).
Proof.
  assert (Hupd : ∀ sel f, (∀ d, grows d (f d)) ->
            d' ∈ updateFirst sel f (docs db) -> ∃ d, d ∈ docs db ∧ grows d d').
  { intros sel f Hf [?|(d0 & ? & _ & ->)]%updateFirst_elem.
    - exists d'. split; [done|apply grows_refl].
    - exists d0. split; [done|apply Hf]. }
  assert (Hsame : d' ∈ docs db -> ∃ d, d ∈ docs db ∧ grows d d').
  { intros Hd'. exists d'. split; [done|apply grows_refl]. }
  destruct op as [fault now user run name html meta|fault now user run cs
                 |fault id name|fault user run|fault now user maxAge|now]; cbn [applyOp].
  - store_cases db fault; intros Hd'; try (left; by apply Hsame);
      try (left; (eapply Hupd; [|exact Hd']); intros ?; apply grows_pushStep).
    all: apply elem_of_app in Hd' as [?|Hnew]; [left; by apply Hsame|].
    all: apply list_elem_of_singleton in Hnew as ->; by right.
  - store_cases db fault; intros Hd'; try (left; by apply Hsame);
      left; (eapply Hupd; [|exact Hd']); intros ?; apply grows_setResult.
  - store_cases db fault; intros Hd'; left; by apply Hsame.
  - store_cases db fault; intros Hd'; left; by apply Hsame.
  - store_cases db fault; intros Hd'; left; by apply Hsame.
  - unfold ttlMonitor, withDocs. destruct (ttlIndex db); cbn [docs]; intros Hd'; left;
      apply Hsame; first [done|by eapply filter_sub].
Qed.

Lemma applyOp_nextId db op : (nextId db ≤ nextId (applyOp db op))%nat.
Proof.
  destruct op as [fault now user run name html meta|fault now user run cs
                 |fault id name|fault user run|fault now user maxAge|now]; cbn [applyOp].
  1-5: store_cases db fault; lia.
  unfold ttlMonitor, withDocs. destruct (ttlIndex db); simpl; lia.
Qed.

Lemma fold_grows ops db d d' :
  wellFormed db -> d ∈ docs db -> d' ∈ docs (fold_left applyOp ops db) ->
  _id d' = _id d -> grows d d'.
Proof.
  revert db d d'. induction ops as [|op ops IH] using rev_ind; intros db d d' Hwf Hd Hd' Hid.
  - simpl in Hd'. destruct Hwf as (Hnd & _).
    assert (d' = d) as -> by (eapply unique_id; eauto). apply grows_refl.
  - rewrite fold_left_app in Hd'. cbn [fold_left] in Hd'.
    assert (Hnext : (nextId db ≤ nextId (fold_left applyOp ops db))%nat).
    { clear. revert db. induction ops as [|o ops IH]; intros db; simpl; [lia|].
      etrans; [apply (applyOp_nextId db o)|apply IH]. }
    apply applyOp_grows in Hd' as [(x & Hx & Hgrow)|[Hnew _]].
    + eapply grows_trans; [|exact Hgrow]. apply (IH db d x Hwf Hd Hx).
      destruct Hgrow as (Hidx & _). congruence.
    + destruct Hwf as (_ & Hlt). specialize (Hlt d Hd). lia.
Qed.

(** X6.  Documents only grow.  Between two points of any history of
    calls of mongodb.js and passes of the TTL monitor, a document that
    is in the store at both (under the same id) keeps its username, run
    and creation time; the steps it had are still its first steps, in
    the same order; and if it was completed it still is.  No call
    removes, reorders or replaces a step, and none takes a result
    back. *)
Theorem documents_only_grow (ops later : list Op) (d d' : Doc) :
  d ∈ docs (storeAfter ops) ->
  d' ∈ docs (storeAfter (ops ++ later)) ->
  _id d' = _id d ->
  instagramUsername d' = instagramUsername d
  ∧ runId d' = runId d
  ∧ createdAt d' = createdAt d
  ∧ steps d `prefix_of` steps d'
  ∧ (status d = Completed -> status d' = Completed).
Proof.
  intros Hd Hd' Hid. unfold storeAfter in Hd'. rewrite fold_left_app in Hd'.
  pose proof (fold_grows later (storeAfter ops) d d' (storeAfter_wellFormed ops) Hd Hd' Hid)
    as (_ & H). exact H.
Qed.

Lemma X6_history_keeps_first_step :
  map stepName (steps (StoreSamples.firstDoc (storeAfter (take 1 StoreSamples.history))))
  `prefix_of`
  map stepName (steps (StoreSamples.firstDoc (storeAfter StoreSamples.history))).
Proof.
  destruct (documents_only_grow (take 1 StoreSamples.history) (drop 1 StoreSamples.history)
              (StoreSamples.firstDoc (storeAfter (take 1 StoreSamples.history)))
              (StoreSamples.firstDoc (storeAfter StoreSamples.history)))
    as (_ & _ & _ & [k Hk] & _).
  - vm_compute. by left.
  - vm_compute. by left.
  - reflexivity.
  - exists (map stepName k). by rewrite Hk, map_app.
Defined.
End StoreMore.

(** ** parseSnapshots.js: the shape of what the parsers return *)

Module SnapshotMore.
Import Js Dom Text UrlText TextProps TrimProps ParseSnapshots SortKeys HandleProps.

Lemma span_split cls s : s = (span cls s).1 +:+ (span cls s).2.
Proof.
  induction s as [|c s IH]; [done|]. cbn [span].
  destruct (cls c); [|done]. destruct (span cls s) as [a b]. cbn [fst snd] in *.
  by rewrite app_cons, <- IH.
Qed.

Lemma matchHandle_prefix raw h : matchHandle raw = Some h -> ∃ rest, raw = h +:+ rest.
Proof.
  destruct raw as [|c r]; [done|]. cbn [matchHandle].
  destruct (Ascii.eqb c "@") eqn:Hc; [|done].
  pose proof (span_split isWord r) as Hr. destruct (span isWord r) as [run rest].
  destruct (isEmpty run); [done|]. intros [= <-]. exists rest.
  rewrite app_cons. by f_equal.
Qed.

Lemma span_class cls s : allChars cls (span cls s).1 = true.
Proof.
  induction s as [|c s IH]; [done|]. cbn [span].
  destruct (cls c) eqn:Hc; [|done]. destruct (span cls s). cbn [fst allChars] in *.
  by rewrite Hc.
Qed.

Lemma matchHandle_run raw h :
  matchHandle raw = Some h -> ∃ run, h = String "@" run ∧ allChars isWord run = true.
Proof.
  destruct raw as [|c r]; [done|]. cbn [matchHandle].
  destruct (Ascii.eqb_spec c "@") as [->|]; [|done].
  pose proof (span_class isWord r) as Hrun. destruct (span isWord r) as [run rest].
  destruct (isEmpty run); [done|]. intros [= <-]. by exists run.
Qed.

Lemma beforeStop_prefix s : ∃ rest, s = beforeStop s +:+ rest.
Proof.
  induction s as [|c s [rest IH]].
  - exists EmptyString. by vm_compute.
  - cbn [beforeStop]. destruct (existsb _ stoplist).
    + by exists (String c s).
    + exists rest. by rewrite app_cons, <- IH.
Qed.

Lemma beforeStop_at r : beforeStop (String "@" r) = String "@" (beforeStop r).
Proof. reflexivity. Qed.

Lemma startsWith_at s : startsWith "@" s = true <-> ∃ r, s = String "@" r.
Proof.
  unfold startsWith. rewrite bool_decide_eq_true. destruct s as [|c s]; cbn [stripPrefix].
  - split; [by intros [? ?]|by intros [? ?]].
  - destruct (Ascii.eqb_spec "@" c) as [<-|Hne].
    + split; intros _; by eexists.
    + split; [by intros [? ?]|]. intros [r [= ->]]. done.
Qed.

Lemma usernameNodes_nil doc : usernameNodes doc = [] <-> usernameCandidates doc = [].
Proof.
  assert (Hp : usernameNodes doc ≡ₚ usernameCandidates doc)
    by apply (sortBy_perm (λ n, lenOrInfinity (trimmedText n))).
  split; intros H.
  - rewrite H in Hp. by apply Permutation_nil_l in Hp.
  - rewrite H in Hp. by apply Permutation_nil_r in Hp.
Qed.



Lemma orElse_nonempty x d : d ≠ EmptyString -> orElse x d ≠ EmptyString.
Proof. intros Hd. unfold orElse. destruct x as [[|c s]|]; done. Qed.

Lemma orElse_trimmed x d :
  trimmed d -> (∀ s, x = Some s -> trimmed s) -> trimmed (orElse x d).
Proof.
  intros Hd Hx. unfold orElse. destruct x as [s|]; [|done].
  destruct (isEmpty s); [done|]. by apply Hx.
Qed.



Lemma trim_orElse_empty x d :
  trim d ≠ EmptyString ->
  trim (orElse x d) = EmptyString
  <-> ∃ s, x = Some s ∧ s ≠ EmptyString ∧ allChars isSpace s = true.
Proof.
  intros Hd. unfold orElse. destruct x as [[|c s]|]; simpl isEmpty; cbv iota.
  - split; [done|]. by intros (s & [= <-] & ? & _).
  - rewrite trim_empty_iff. split; [by eexists|]. by intros (? & [= <-] & _ & ?).
  - split; [done|]. by intros (s & [=] & _).
Qed.

(** X9.  The texts of the profile record carry no white space at their
    ends, and a default is used only when the element is missing or its
    text is the empty string.  An element whose text is white space and
    nothing else is taken as found: the field is then the empty string,
    and this is the only way for the greeting, the question or a button
    text to be empty. *)
Theorem profile_texts_may_be_blank (doc : node) :
  let r := parseProfileDocument doc in
  (trimmed (greeting r) ∧ trimmed (question r)
   ∧ trimmed (primaryCta r) ∧ trimmed (secondaryCta r))
  ∧ (greeting r = EmptyString
     <-> ∃ h, greetingNode doc = Some h ∧ textContent h ≠ EmptyString
              ∧ allChars isSpace (textContent h) = true)
  ∧ question r ≠ EmptyString
  ∧ (primaryCta r = EmptyString
     <-> ∃ b, buttons doc !! 0 = Some b ∧ textContent b ≠ EmptyString
              ∧ allChars isSpace (textContent b) = true)
  ∧ (secondaryCta r = EmptyString
     <-> ∃ b, buttons doc !! 1 = Some b ∧ textContent b ≠ EmptyString
              ∧ allChars isSpace (textContent b) = true).
Proof.
  intros r. unfold r. cbn [greeting question primaryCta secondaryCta parseProfileDocument].
  assert (Hfmap : ∀ (x : option node) P,
            (∃ s, textContent <$> x = Some s ∧ P s) <-> ∃ n, x = Some n ∧ P (textContent n)).
  { intros [n|] P; simpl; split.
    - intros (s & [= <-] & ?). eauto.
    - intros (n' & [= <-] & ?). eauto.
    - by intros (s & [=] & _).
    - by intros (n' & [=] & _). }
  split; [repeat split; apply trim_trimmed|].
  split; [rewrite trim_orElse_empty by done; apply (Hfmap _ (λ s, s ≠ EmptyString ∧ _))|].
  split.
  { rewrite trim_orElse_empty by done. intros (s & Hs & Hne & Hblank).
    unfold questionNode in Hs.
    destruct (List.find _ _) as [n|] eqn:Hfind; simplify_eq/=.
    apply find_some in Hfind as [_ Hinc]. unfold trimmedText in Hinc.
    rewrite (trim_spaces _ Hblank) in Hinc. done. }
  split; (rewrite trim_orElse_empty by done; apply (Hfmap _ (λ s, s ≠ EmptyString ∧ _))).
Qed.

Lemma X9_blank_heading_gives_empty_greeting :
  greeting (parseProfileDocument SnapshotSamples2.blankHeadingDoc) = EmptyString.
Proof.
  destruct (profile_texts_may_be_blank SnapshotSamples2.blankHeadingDoc) as (_ & Hg & _).
  apply Hg. exists (Elem "h1" [] [Text "  "]). by repeat split.
Defined.

Lemma lazyBody_found close X post :
  X ≠ EmptyString -> allChars urlSafe X = true ->
  close = ")" ∨ (∃ q, isQuote q = true ∧ close = String q ")") ->
  lazyBody close (X +:+ close +:+ post) = Some X.
Proof.
  induction X as [|c X IH]; intros Hne Hsafe Hclose; [done|].
  cbn [allChars] in Hsafe. apply andb_true_iff in Hsafe as [Hc Hsafe].
  unfold urlSafe in Hc.
  apply andb_true_iff in Hc as [[Hq%negb_true_iff Hl%negb_true_iff]%andb_true_iff Hp].
  rewrite app_cons. cbn [lazyBody]. rewrite Hl.
  destruct (decide (X = EmptyString)) as [->|HX].
  - rewrite app_nil_l, startsWith_app. done.
  - assert (startsWith close (X +:+ close +:+ post) = false) as ->.
    { destruct X as [|c' Y]; [done|].
      rewrite app_cons. cbn [allChars] in Hsafe. apply andb_true_iff in Hsafe as [Hc' _].
      unfold urlSafe in Hc'.
      apply andb_true_iff in Hc' as [[Hq' _]%andb_true_iff Hp'].
      apply negb_true_iff in Hq', Hp'.
      apply bool_decide_eq_false. intros [r Hr].
      destruct Hclose as [->|(q & Hisq & ->)]; cbn [stripPrefix] in Hr.
      - rewrite Ascii.eqb_sym, Hp' in Hr. done.
      - destruct (Ascii.eqb_spec q c') as [<-|]; [|done]. congruence. }
    by rewrite (IH HX Hsafe Hclose).
Qed.

Lemma matchUrlAt_found q X post :
  q = EmptyString ∨ (∃ c, isQuote c = true ∧ q = String c EmptyString) ->
  X ≠ EmptyString -> allChars urlSafe X = true ->
  matchUrlAt ("url(" +:+ q +:+ X +:+ q +:+ ")" +:+ post) = Some X.
Proof.
  intros Hq Hne Hsafe. unfold matchUrlAt.
  change (stripPrefixCi "url(" ("url(" +:+ q +:+ X +:+ q +:+ ")" +:+ post))
    with (Some (q +:+ X +:+ q +:+ ")" +:+ post)).
  destruct Hq as [->|(c & Hc & ->)].
  - rewrite !app_nil_l.
    pose proof (lazyBody_found ")" X post Hne Hsafe (or_introl eq_refl)) as Hbody.
    destruct X as [|x Y]; [done|]. rewrite app_cons in *. cbv beta iota.
    assert (isQuote x = false) as ->; [|done].
    cbn [allChars] in Hsafe. apply andb_true_iff in Hsafe as [Hx _]. unfold urlSafe in Hx.
    by apply andb_true_iff in Hx as [[?%negb_true_iff _]%andb_true_iff _].
  - change (String c EmptyString +:+ X +:+ String c EmptyString +:+ ")" +:+ post)
      with (String c (X +:+ String c ")" +:+ post)).
    cbv beta iota. rewrite Hc, (lazyBody_found (String c ")")); eauto.
Qed.

Lemma findFirst_skip {A} (f : string -> option A) c s :
  f (String c s) = None -> findFirst f (String c s) = findFirst f s.
Proof. intros H. cbn [findFirst]. by rewrite H. Qed.

Lemma findFirst_here {A} (f : string -> option A) s a : f s = Some a -> findFirst f s = Some a.
Proof. intros H. destruct s; cbn [findFirst]; by rewrite H. Qed.

Lemma background_url_found q X post :
  q = EmptyString ∨ (∃ c, isQuote c = true ∧ q = String c EmptyString) ->
  X ≠ EmptyString -> allChars urlSafe X = true ->
  findFirst matchUrlAt ("background-image: url(" +:+ q +:+ X +:+ q +:+ ")" +:+ post) = Some X.
Proof.
  intros Hq Hne Hsafe.
  change ("background-image: url(" +:+ q +:+ X +:+ q +:+ ")" +:+ post)
    with ("background-image: " +:+ ("url(" +:+ q +:+ X +:+ q +:+ ")" +:+ post)).
  generalize (matchUrlAt_found q X post Hq Hne Hsafe).
  generalize ("url(" +:+ q +:+ X +:+ q +:+ ")" +:+ post). intros t Ht.
  rewrite !app_cons, app_nil_l.
  do 18 (rewrite findFirst_skip by reflexivity).
  by apply findFirst_here.
Qed.


End SnapshotMore.

(** ** scrape.js: what decides the outcome of a run *)

Module RunMore.
Import Js Text TextProps Scrape RunLogic CaptureProps RunVerdict RunTriples RunOutcome.
Local Open Scope nat_scope.

Section WithWorld.
Variables (username : string) (onStep : bool) (w : World).

(** X11.  Whether [scrape] returns or throws, and with which message, is
    decided by the browser and the site alone: by the launch, the
    navigation, the four interactions and the sleeps behind them, the
    wait for the cards with its sleeps, the extraction of the cards, the
    debug dump and the closing of the browser.  It returns exactly when
    each of these succeeds; a sleep that is rejected fails the run as
    the interaction before it does, only the sleep of the full report
    is swallowed.  The
    store, the username, the progress callback and the stages that are
    only waited for and captured (analyzing, processing, full report)
    cannot make a run fail and cannot change its error.  The error of
    the [try] block is the first that occurs in the order of the run;
    when closing the browser fails behind it, the error of the closing
    is thrown in its place. *)
Theorem scrape_outcome_is_decided_by_the_hard_steps (store : Mongo.Db) :
  (∀ e, verdict w = Some e -> (scrape username onStep w store).2 = Throw e)
  ∧ (verdict w = None ->
     ∃ r, (scrape username onStep w store).2 = Ok r
          ∧ cardData w = Ok (Result.cards r) ∧ Result.runId r = runIdNow w)
  ∧ ((∃ r, (scrape username onStep w store).2 = Ok r) <-> completes w)
  ∧ (∀ e e', launch w = None -> newPage w = None ->
       bodyError w = Some e -> closeAfterError w = Some e' ->
       (scrape username onStep w store).2 = Throw e').
Proof.
  pose proof (scrape_verdict username onStep w store) as Hrun.
  assert (Hok : ∀ r, (scrape username onStep w store).2 = Ok r ->
            cardData w = Ok (Result.cards r) ∧ Result.runId r = runIdNow w).
  { intros r Hr.
    pose proof (scrapeM_keeps username onStep w (λ _, True)) as Hk.
    destruct (Hk (λ _ _ _ _, I) (λ _ _ _ _, I) (λ _ _, I) (initialRun store) I)
      as [_ H]. by destruct (H r Hr) as (_ & _ & ? & ?). }
  repeat apply conj.
  - intros e He. by rewrite He in Hrun.
  - intros He. rewrite He in Hrun. destruct Hrun as [r Hr]. exists r. split; [done|auto].
  - intros [r Hr]. apply (verdict_completes w).
    destruct (verdict w) as [e|]; [|done]. congruence.
  - intros Hc%(verdict_completes w). by rewrite Hc in Hrun.
  - intros e e' Hl Hn He Hc. unfold verdict in Hrun.
    rewrite Hl, Hn, He, Hc in Hrun. exact Hrun.
Qed.
End WithWorld.

Lemma X11_timeout_is_the_verdict :
  (scrape "bob" false RunSamples.timeoutWorld Mongo.emptyDb).2
  = Throw "Cards did not appear within timeout period".
Proof.
  apply (scrape_outcome_is_decided_by_the_hard_steps "bob" false RunSamples.timeoutWorld
           Mongo.emptyDb).
  vm_compute. reflexivity.
Defined.

(** *** A failed run leaves no completed document *)

Lemma saveSnapshotStep_uncompleted fault now user run name html meta db :
  uncompleted user run db ->
  uncompleted user run (Mongo.saveSnapshotStep fault now user run name html meta db).1.
Proof.
  intros Hun d' Hd' Hm.
  assert (Hupd : ∀ s, d' ∈ Mongo.updateFirst (Mongo.matchesRun user run) (Mongo.pushStep s)
                                              (Mongo.docs db) ->
                      Mongo.status d' = Mongo.Processing).
  { intros s [?|(d0 & Hd0 & Hsel & ->)]%StoreProps.updateFirst_elem; [by apply Hun|].
    by apply (Hun d0). }
  revert Hd'.
  StoreProps.store_cases db fault; intros Hd'; try (by apply Hun); try (by eapply Hupd).
  all: apply elem_of_app in Hd' as [?|Hnew]; [by apply Hun|].
  all: by apply list_elem_of_singleton in Hnew as ->.
Qed.

Section Failure.
Variables (username : string) (onStep : bool) (w : World).

Abbreviation quiet := (λ st : Run, uncompleted username (runIdNow w) (db st)).

Lemma captureStep_keeps_quiet stage fields :
  keeps quiet (captureStep username onStep w stage fields).
Proof.
  intros st Hst. unfold wp, Scrape.captureStep.
  destruct (content w stage) as [html|e]; [|done].
  pose proof (saveSnapshotStep_uncompleted (saveFault w stage) (saveTime w stage) username
                (runIdNow w) stage html fields (db st) Hst) as Hsave.
  unfold runId.
  destruct (Mongo.saveSnapshotStep _ _ _ _ _ _ _ _) as [db' [[sd [id|]]|]]; done.
Qed.

Lemma scrapeM_throws_quiet st :
  quiet st -> wp (scrapeM username onStep w) (λ o st', ∀ e, o = Throw e -> quiet st') st.
Proof.
  intros Hst. unfold scrapeM.
  apply wp_bind, wp_awaitVoid. destruct (launch w); [done|].
  apply wp_bind, wp_awaitVoid. destruct (newPage w); [done|].
  apply wp_tryCatch.
  match goal with |- wp _ ?Q' _ => set (Q := Q') end.
  assert (Hthrow : ∀ e st', quiet st' -> Q (Throw e) st').
  { intros e st' Hst'. apply wp_bind, wp_awaitVoid.
    destruct (closeAfterError w); cbn beta iota; [|apply wp_throw]; by intros ? _. }
  pose proof captureStep_keeps_quiet as Hcap.
  unfold scrapeBody.
  apply wp_bind; eapply wp_mono; [by apply (stageLanding_keeps username onStep w quiet Hcap)|].
  clear st Hst. intros [_|?] st Hst; [|auto].
  apply wp_bind; eapply wp_mono; [by apply (stageReveal_keeps w quiet)|].
  clear st Hst. intros [_|?] st Hst; [|auto].
  apply wp_bind; eapply wp_mono; [by apply (stageUsername_keeps username onStep w quiet Hcap)|].
  clear st Hst. intros [_|?] st Hst; [|auto].
  apply wp_bind; eapply wp_mono; [by apply (stageContinue_keeps username onStep w quiet Hcap)|].
  clear st Hst. intros [_|?] st Hst; [|auto].
  apply wp_bind; eapply wp_mono; [by apply (stageProfileConfirm_keeps username onStep w quiet Hcap)|].
  clear st Hst. intros [_|?] st Hst; [|auto].
  apply wp_bind; eapply wp_mono; [by apply (stageProcessing_keeps username onStep w quiet Hcap)|].
  clear st Hst. intros [_|?] st Hst; [|auto].
  apply wp_bind; eapply wp_mono; [by apply (stageResultsWait_keeps w quiet)|].
  clear st Hst. intros [_|?] st Hst; [|auto].
  apply wp_bind; eapply wp_mono; [by apply (stageResults_keeps username onStep w quiet Hcap)|].
  clear st Hst. intros [data|?] st Hst; [|auto].
  apply wp_bind; eapply wp_mono; [by apply (stageFullReport_keeps username onStep w quiet Hcap)|].
  clear st Hst. intros [_|?] st Hst; [|auto].
  apply wp_bind; eapply wp_mono; [by apply (stageDebug_keeps w quiet)|].
  clear st Hst. intros [_|?] st Hst; [|auto].
  apply wp_bind; eapply wp_mono; [by apply (keeps_awaitVoid quiet)|].
  clear st Hst. intros [_|?] st Hst; [|auto].
  assert (Hrest : decided (saveResult username w data ;; lookupSnapshotId username w ;;
                           returnResult w data) None).
  { apply decided_pass; [apply saveResult_decided|intros _].
    apply decided_pass; [apply lookupSnapshotId_decided|intros _].
    apply returnResult_decided. }
  unfold wp. destruct (Hrest st) as [r ->]. unfold Q. done.
Qed.

(** X12.  A run that fails is never taken for a finished one.  If the
    store holds no completed document of the run when [scrape] starts
    and [scrape] throws, the store holds none when it ends:
    [getSnapshotByRunId] for the run returns [null], and the cache
    lookup [getRecentSnapshot] never returns a document of the run,
    whatever age is asked for. *)
Theorem failed_run_is_never_completed (store : Mongo.Db) (e : string) :
  uncompleted username (runIdNow w) store ->
  (scrape username onStep w store).2 = Throw e ->
  let after := db (scrape username onStep w store).1 in
  uncompleted username (runIdNow w) after
  ∧ (∀ fault, (Mongo.getSnapshotByRunId fault username (runIdNow w) after).2 = None)
  ∧ (∀ fault now maxAge r,
       (Mongo.getRecentSnapshot fault now username maxAge after).2 = Some r ->
       Mongo.runId r ≠ runIdNow w).
Proof.
  intros Hstore Hthrow after.
  assert (Hq : uncompleted username (runIdNow w) after).
  { exact (scrapeM_throws_quiet (initialRun store) Hstore e Hthrow). }
  split; [done|]. split.
  - intros fault. unfold Mongo.getSnapshotByRunId.
    destruct (StoreProps.connectDB_docs fault after) as [Hdocs _].
    destruct (Mongo.connectDB fault after) as [db1 ok]. cbn [fst] in Hdocs.
    destruct ok; cbn [negb]; [|done]. rewrite Hdocs.
    assert (List.find (λ d, Mongo.matchesRun username (runIdNow w) d
                            && Mongo.statusEqb (Mongo.status d) Mongo.Completed)
                      (Mongo.docs after) = None) as ->; [|by destruct fault].
    destruct (List.find _ (Mongo.docs after)) as [x|] eqn:Hx; [|done].
    apply StoreProps.find_elem in Hx as [Hin [Hm Hs]%andb_true_iff].
    rewrite (Hq x Hin Hm) in Hs. done.
  - intros fault now maxAge r Hr Hrun.
    apply StoreProps.getRecentSnapshot_elem in Hr as (Hin & Huser & Hdone & _).
    assert (Hm : Mongo.matchesRun username (runIdNow w) r = true).
    { unfold Mongo.matchesRun. rewrite Huser, Hrun, String.eqb_refl. by apply Z.eqb_eq. }
    rewrite (Hq r Hin Hm) in Hdone. done.
Qed.
End Failure.

Lemma X12_timed_out_run_is_not_cached :
  (Mongo.getRecentSnapshot Mongo.NoFault 70000%Z "bob" 60%Z
     (db (scrape "bob" false RunSamples.timeoutWorld Mongo.emptyDb).1)).2 = None.
Proof.
  destruct (failed_run_is_never_completed "bob" false RunSamples.timeoutWorld Mongo.emptyDb
              "Cards did not appear within timeout period") as (_ & _ & H).
  - by intros d ?%elem_of_nil.
  - vm_compute. reflexivity.
  - specialize (H Mongo.NoFault 70000%Z 60%Z).
    destruct (Mongo.getRecentSnapshot _ _ _ _ _).2 as [r|] eqn:Hr; [|done].
    destruct (H r eq_refl). revert Hr. vm_compute. by intros [= <-].
Defined.

(** *** The order of the steps *)

Lemma within_weaken l l' st : l `sublist_of` l' -> within l st -> within l' st.
Proof. unfold within. intros Hl Hst. by etrans. Qed.

Lemma within_snoc l s st : within l st -> within (l ++ [s]) st.
Proof. apply within_weaken. by apply sublist_inserts_r. Qed.

Section Order.
Variables (username : string) (onStep : bool) (w : World).

Lemma wp_captureStep_within stage fields l (Q : outcome (option StepEntry) -> Run -> Prop) st :
  within l st ->
  (∀ r st', within (l ++ [stage]) st' -> Q (Ok r) st') ->
  wp (captureStep username onStep w stage fields) Q st.
Proof.
  intros Hst HQ. unfold wp.
  assert (Hw : within (l ++ [stage]) (captureStep username onStep w stage fields st).1).
  { unfold Scrape.captureStep. destruct (content w stage) as [html|e].
    - destruct (Mongo.saveSnapshotStep _ _ _ _ _ _ _ _) as [db' [[sd [id|]]|]];
        cbn [fst]; unfold within; cbn [steps]; try (by apply within_snoc).
      rewrite map_app. cbn [map name]. by apply sublist_app.
    - by apply within_snoc. }
  destruct (captureStep_returns username onStep w stage fields st) as [r Hr].
  rewrite Hr. by apply HQ.
Qed.

(** A stage that captures [names], in this order, when it returns. *)
Abbreviation captures m names :=
  (∀ l st, within l st -> wp m (λ o st', ∀ a, o = Ok a -> within (l ++ names) st') st).

Ltac order_rule :=
  first [ apply wp_bind | apply wp_tryCatch | apply wp_ignore
        | eapply wp_captureStep_within; [eassumption|intros ? ? ?]
        | apply wp_awaitVoid | apply wp_await | apply wp_ret | apply wp_throw ].

Ltac order := repeat first [ progress cbn beta iota | order_rule | run_case ].

Ltac order_done :=
  intros ? ?;
  first [ discriminate
        | assumption
        | rewrite List.app_nil_r; assumption
        | apply within_snoc; assumption ].

Lemma stageLanding_captures : captures (stageLanding username onStep w) ["landing"].
Proof. intros l st Hst. unfold stageLanding. order; order_done. Qed.

Lemma stageReveal_captures : captures (stageReveal w) [].
Proof. intros l st Hst. unfold stageReveal. order; order_done. Qed.

Lemma stageUsername_captures :
  captures (stageUsername username onStep w) ["username-entry"].
Proof. intros l st Hst. unfold stageUsername. order; order_done. Qed.

Lemma stageContinue_captures : captures (stageContinue username onStep w) ["analyzing"].
Proof. intros l st Hst. unfold stageContinue. order; order_done. Qed.

Lemma stageProfileConfirm_captures :
  captures (stageProfileConfirm username onStep w) ["profile-confirm"].
Proof. intros l st Hst. unfold stageProfileConfirm. order; order_done. Qed.

Lemma stageProcessing_captures :
  captures (stageProcessing username onStep w) ["processing"].
Proof. intros l st Hst. unfold stageProcessing. order; order_done. Qed.

Lemma stageResultsWait_captures : captures (stageResultsWait w) [].
Proof.
  intros l st Hst. unfold stageResultsWait.
  destruct (pollCards (ticks w) 0 0); order; order_done.
Qed.

Lemma stageResults_captures : captures (stageResults username onStep w) ["results"].
Proof. intros l st Hst. unfold stageResults. order; order_done. Qed.

Lemma stageFullReport_captures :
  captures (stageFullReport username onStep w) ["full-report"].
Proof. intros l st Hst. unfold stageFullReport. order; order_done. Qed.

Lemma stageDebug_captures : captures (stageDebug w) [].
Proof. intros l st Hst. unfold stageDebug. order; order_done. Qed.

Lemma scrapeM_within st :
  within [] st ->
  wp (scrapeM username onStep w)
     (λ o st', ∀ r, o = Ok r -> map name (Result.steps r) `sublist_of` stageOrder) st.
Proof.
  intros Hst. unfold scrapeM.
  apply wp_bind, wp_awaitVoid. destruct (launch w); [done|].
  apply wp_bind, wp_awaitVoid. destruct (newPage w); [done|].
  apply wp_tryCatch.
  match goal with |- wp _ ?Q' _ => set (Q := Q') end.
  assert (Hthrow : ∀ e st', Q (Throw e) st').
  { intros e st'. apply wp_bind, wp_awaitVoid.
    destruct (closeAfterError w); cbn beta iota; [|apply wp_throw]; by intros ? [=]. }
  unfold scrapeBody.
  apply wp_bind; eapply wp_mono; [by apply stageLanding_captures|].
  clear st Hst. intros [a|?] st Hst; [specialize (Hst a eq_refl)|auto].
  apply wp_bind; eapply wp_mono; [by apply stageReveal_captures|].
  clear st Hst a. intros [a|?] st Hst; [specialize (Hst a eq_refl)|auto].
  apply wp_bind; eapply wp_mono; [by apply stageUsername_captures|].
  clear st Hst a. intros [a|?] st Hst; [specialize (Hst a eq_refl)|auto].
  apply wp_bind; eapply wp_mono; [by apply stageContinue_captures|].
  clear st Hst a. intros [a|?] st Hst; [specialize (Hst a eq_refl)|auto].
  apply wp_bind; eapply wp_mono; [by apply stageProfileConfirm_captures|].
  clear st Hst a. intros [a|?] st Hst; [specialize (Hst a eq_refl)|auto].
  apply wp_bind; eapply wp_mono; [by apply stageProcessing_captures|].
  clear st Hst a. intros [a|?] st Hst; [specialize (Hst a eq_refl)|auto].
  apply wp_bind; eapply wp_mono; [by apply stageResultsWait_captures|].
  clear st Hst a. intros [a|?] st Hst; [specialize (Hst a eq_refl)|auto].
  apply wp_bind; eapply wp_mono; [by apply stageResults_captures|].
  clear st Hst a. intros [data|?] st Hst; [specialize (Hst data eq_refl)|auto].
  apply wp_bind; eapply wp_mono; [by apply stageFullReport_captures|].
  clear st Hst. intros [a|?] st Hst; [specialize (Hst a eq_refl)|auto].
  apply wp_bind; eapply wp_mono; [by apply stageDebug_captures|].
  clear st Hst a. intros [a|?] st Hst; [specialize (Hst a eq_refl)|auto].
  apply wp_bind, wp_awaitVoid. destruct (closeBrowser w); [apply Hthrow|].
  unfold Q, wp, mbind, M_bind, saveResult, lookupSnapshotId, returnResult.
  destruct (Mongo.saveSnapshotResult _ _ _ _ _ _) as [db1 ?]. cbn [snapshotId].
  assert (Hnames : map name (steps st) `sublist_of` stageOrder).
  { unfold within in Hst. by rewrite !List.app_nil_r in Hst. }
  destruct (snapshotId st); [by intros r [= <-]|].
  destruct (Mongo.getSnapshotByRunId _ _ _ _). by intros r [= <-].
Qed.

(** X13.  The steps of a result follow the order of the stages.  The
    names of the steps that [scrape] returns are some of 'landing',
    'username-entry', 'analyzing', 'profile-confirm', 'processing',
    'results' and 'full-report', in this order: no name occurs twice,
    the result has at most seven steps, and the step
    'profile-confirm-error', captured when the confirmation fails, is
    never part of a result. *)
Theorem steps_follow_the_stage_order (store : Mongo.Db) (r : Result.t) :
  (scrape username onStep w store).2 = Ok r ->
  map name (Result.steps r) `sublist_of` stageOrder
  ∧ NoDup (map name (Result.steps r))
  ∧ length (Result.steps r) ≤ 7
  ∧ (∀ s, s ∈ Result.steps r -> name s ≠ "profile-confirm-error").
Proof.
  intros Hr.
  assert (Hsub : map name (Result.steps r) `sublist_of` stageOrder).
  { apply (scrapeM_within (initialRun store)); [|done]. unfold within. simpl. constructor. }
  split; [done|]. split; [|split].
  - eapply sublist_NoDup; [|exact Hsub]. unfold stageOrder.
    repeat (apply NoDup_cons; split; [set_solver|]). apply NoDup_nil_2.
  - apply sublist_length in Hsub. by rewrite length_map in Hsub.
  - intros s Hs Hname.
    assert (Hin : name s ∈ stageOrder).
    { eapply elem_of_sublist; [|exact Hsub]. apply list_elem_of_fmap. eauto. }
    rewrite Hname in Hin. unfold stageOrder in Hin. set_solver.
Qed.
End Order.

Lemma X13_offline_steps_in_order :
  map name (Result.steps StoreSamples.happyResult)
  `sublist_of` stageOrder.
Proof.
  apply (steps_follow_the_stage_order "bob" false RunSamples.happyWorld Mongo.emptyDb
           StoreSamples.happyResult).
  vm_compute. reflexivity.
Defined.
End RunMore.

(** ** queue.js: whose result a caller receives *)

Module QueueMore.
Import Queue QueueState QueueCalls QueueProps.

Section WithResult.
Context {R : Type}.
Implicit Types (st : State R) (ev : Event R).

Lemma setPhase_user p ph (es : list (Execution R)) q :
  user <$> setPhase p ph es !! q = user <$> es !! q.
Proof.
  unfold setPhase. destruct (decide (p = q)) as [<-|Hne].
  - rewrite list_lookup_alter. case_decide; [|done]. by destruct (es !! p).
  - by rewrite list_lookup_alter_ne.
Qed.

Lemma answers_initial : answers [] (initial (R := R)).
Proof. split; [done|]. intros k u p Hk. by rewrite lookup_nil in Hk. Qed.

Lemma step_answers names ev st st' :
  consistent st -> answers names st -> step ev st = Some st' ->
  answers (names ++ asked [ev]) st'.
Proof.
  intros Hc [Hlen Hans].
  assert (Hquiet : ∀ es : list (Execution R),
            (∀ q, user <$> es !! q = user <$> executions st !! q) ->
            answers (names ++ [])
                    {| processing := processing st'; waiting := waiting st';
                       executions := es; callers := callers st |}).
  { intros es Hes. rewrite app_nil_r. split; [done|].
    intros k u p Hk Hp. cbn [executions callers] in *. rewrite Hes. by eapply Hans. }
  destruct ev as [u|p o|p|p]; cbn [step asked omap].
  - intros [= <-]. unfold enqueue.
    destruct (processing st !! u) as [p|] eqn:Hu; cbn [list_omap]; split;
      cbn [callers executions]; rewrite ?length_app, ?Hlen; try done.
    + intros k u' p' Hk Hp'.
      destruct (decide (k < length names)) as [Hlt|Hge].
      * rewrite lookup_app_l in Hk by done. rewrite lookup_app_l in Hp' by lia. eauto.
      * rewrite lookup_app_r in Hk by lia. rewrite lookup_app_r in Hp' by lia.
        rewrite Hlen in Hp'. destruct (k - length names) as [|n]; simplify_eq/=.
        by apply Hc in Hu as [_ ?].
    + intros k u' p' Hk Hp'.
      destruct (decide (k < length names)) as [Hlt|Hge].
      * rewrite lookup_app_l in Hk by done. rewrite lookup_app_l in Hp' by lia.
        pose proof (Hans k u' p' Hk Hp') as Hold.
        destruct (executions st !! p') as [e|] eqn:He; [|done].
        by rewrite (lookup_app_l_Some _ _ _ _ He).
      * rewrite lookup_app_r in Hk by lia. rewrite lookup_app_r in Hp' by lia.
        rewrite Hlen in Hp'. destruct (k - length names) as [|n]; simplify_eq/=.
        by rewrite list_lookup_middle.
  - destruct (executions st !! p) as [[u []]|] eqn:Hp; try done. intros [= <-].
    apply Hquiet. intros q. apply setPhase_user.
  - destruct (executions st !! p) as [[u []]|] eqn:Hp; try done. intros [= <-].
    apply Hquiet. intros q. apply setPhase_user.
  - destruct (executions st !! p) as [[u []]|] eqn:Hp; try done. intros [= <-].
    apply Hquiet. intros q. apply setPhase_user.
Qed.

Lemma asked_app (evs evs' : list (Event R)) : asked (evs ++ evs') = asked evs ++ asked evs'.
Proof. unfold asked. apply omap_app. Qed.

Lemma run_answers evs names st st' :
  consistent st -> answers names st -> run evs st = Some st' ->
  answers (names ++ asked evs) st'.
Proof.
  revert names st. induction evs as [|ev evs IH]; intros names st Hc Ha; cbn [run].
  - intros [= <-]. unfold asked. cbn [omap list_omap]. by rewrite app_nil_r.
  - destruct (step ev st) as [st1|] eqn:Hstep; [|done]. intros Hrun.
    change (ev :: evs) with ([ev] ++ evs). rewrite asked_app, app_assoc.
    apply (IH _ st1); [by eapply step_consistent|by eapply step_answers|done].
Qed.
End WithResult.

(** X14.  Every caller is answered from a scrape of its own username.  In
    every state the queue reaches, each call of [enqueue] made so far
    holds exactly one promise, and this promise belongs to an execution
    that was started for the username of that call; what the caller
    receives is what the scrape of that execution has settled with.  No
    interleaving of calls and promise reactions hands a caller the
    result of another username. *)
Theorem callers_get_their_own_username (R : Type) (evs : list (Event R)) (st : State R) :
  run evs initial = Some st ->
  length (callers st) = length (asked evs)
  ∧ ∀ k u, asked evs !! k = Some u ->
      ∃ p, callers st !! k = Some p
           ∧ user <$> executions st !! p = Some u
           ∧ ∀ o, received st k = Some o -> settledWith st p = Some o.
Proof.
  intros Hrun.
  destruct (run_answers evs [] initial st consistent_initial answers_initial Hrun)
    as [Hlen Hans].
  rewrite app_nil_l in Hlen, Hans. split; [done|].
  intros k u Hk.
  destruct (callers st !! k) as [p|] eqn:Hp.
  - exists p. split; [done|]. split; [by eapply Hans|].
    intros o. unfold received. rewrite Hp. apply outcomeOf_settledWith.
  - apply lookup_ge_None in Hp. apply lookup_lt_Some in Hk. lia.
Qed.

Lemma X14_two_usernames :
  let st := QueueSamples.after (QueueSamples.twoCallers QueueSamples.cards) in
  user <$> (callers st !! 2 ≫= λ p, executions st !! p) = Some "eve"
  ∧ user <$> (callers st !! 1 ≫= λ p, executions st !! p) = Some "bob".
Proof.
  intros st.
  destruct (callers_get_their_own_username nat
              (QueueSamples.twoCallers QueueSamples.cards) st eq_refl) as [_ H].
  destruct (H 2 "eve" eq_refl) as (p & -> & Hu & _).
  destruct (H 1 "bob" eq_refl) as (p' & -> & Hu' & _).
  by split.
Defined.
End QueueMore.

(** ** server.js: the snapshot route and the payment customer *)

Module ServerMore.
Import Js Text TextProps Mongo StoreProps StoreMore Payment.

(** X15.  The snapshot route never answers with a server error, and what
    it serves is stored: every answer is 404 or the markup of a step of
    the document with the id asked for, under the name asked for, and
    that markup is not empty.  A step that was saved with empty markup
    is answered 404, like a missing one.  The route leaves the
    documents as they are. *)
Theorem snapshot_route_serves_stored_markup fault id name db :
  (Server.snapshotRoute fault id name db).2 ≠ Server.ServerError
  ∧ docs (Server.snapshotRoute fault id name db).1 = docs db
  ∧ (∀ h, (Server.snapshotRoute fault id name db).2 = Server.Html h ->
       h ≠ EmptyString
       ∧ ∃ d s, d ∈ docs db ∧ _id d = id ∧ s ∈ steps d
                ∧ stepName s = name ∧ stepHtml s = h)
  ∧ ((Server.snapshotRoute fault id name db).2 = Server.NotFound
     <-> (getSnapshotStep fault id name db).2 = None
         ∨ (getSnapshotStep fault id name db).2 = Some EmptyString).
Proof.
  assert (Hget : ∀ h, (getSnapshotStep fault id name db).2 = Some h ->
            ∃ d s, d ∈ docs db ∧ _id d = id ∧ s ∈ steps d
                   ∧ stepName s = name ∧ stepHtml s = h).
  { unfold getSnapshotStep.
    destruct (connectDB_docs fault db) as [Hdocs _].
    destruct (connectDB fault db) as [db1 ok]. cbn [fst] in Hdocs.
    destruct ok; cbn [negb]; [|done]. rewrite Hdocs.
    destruct (List.find (λ d, _id d =? id) (docs db)) as [d|] eqn:Hd;
      [|by destruct fault].
    apply find_elem in Hd as [Hd Hid%Nat.eqb_eq].
    destruct (List.find (λ s, String.eqb (stepName s) name) (steps d)) as [s|] eqn:Hs;
      [|by destruct fault].
    apply find_some in Hs as [Hs Hname%String.eqb_eq]. apply list_elem_of_In in Hs.
    intros h Hh. exists d, s. repeat split; try done.
    destruct fault; by simplify_eq/=. }
  assert (Hdocs : docs (getSnapshotStep fault id name db).1 = docs db).
  { apply (isRead_docs db (StoreOps.GetStep fault id name)). done. }
  unfold Server.snapshotRoute.
  destruct (getSnapshotStep fault id name db) as [db' [h|]]; cbn [fst snd] in *.
  - destruct (isEmpty h) eqn:Hh; cbn [fst snd].
    + repeat split; try done. intros _. right. by destruct h.
    + split; [done|]. split; [done|]. split.
      * intros h' [= <-]. split; [by destruct h|]. by apply Hget.
      * split; [done|]. intros [?|[= ->]]; done.
  - repeat split; try done. by left.
Qed.

Lemma keepChars_class cls s : allChars cls (keepChars cls s) = true.
Proof.
  induction s as [|c s IH]; [done|]. cbn [keepChars].
  destruct (cls c) eqn:Hc; [|done]. cbn [allChars]. by rewrite Hc.
Qed.

Lemma keepChars_id cls s : allChars cls s = true -> keepChars cls s = s.
Proof.
  induction s as [|c s IH]; [done|]. cbn [allChars keepChars].
  intros [-> Hs]%andb_true_iff. by rewrite IH.
Qed.

Lemma startsWith_prefix p s : startsWith p s = true -> ∃ r, s = p +:+ r.
Proof.
  unfold startsWith. intros [r Hr]%bool_decide_eq_true. exists r.
  revert s Hr. induction p as [|c p IH]; intros s.
  - destruct s; by intros [= <-].
  - destruct s as [|d s]; [done|]. cbn [stripPrefix].
    destruct (Ascii.eqb_spec c d) as [<-|]; [|done]. intros H.
    rewrite app_cons. f_equal. by apply IH.
Qed.

(** X16.  The phone number sent to the payment gateway consists of
    digits only and begins with the country code 91, whatever was typed.
    A number of ten digits gets the code in front of it, also when it
    begins with 91 itself; a number of another length that begins with
    91 is left as it is. *)
Theorem phone_has_the_country_code (phoneNumber : string) :
  let digits := keepChars isDigit phoneNumber in
  allChars isDigit (formatPhone phoneNumber) = true
  ∧ startsWith "91" (formatPhone phoneNumber) = true
  ∧ (String.length digits = 10 -> formatPhone phoneNumber = "91" +:+ digits)
  ∧ (String.length digits ≠ 10 -> startsWith "91" digits = true ->
     formatPhone phoneNumber = digits)
  ∧ (String.length digits ≤ String.length (formatPhone phoneNumber)
     ≤ String.length digits + 2).
Proof.
  intros digits. unfold formatPhone. fold digits.
  pose proof (keepChars_class isDigit phoneNumber) as Hd. fold digits in Hd.
  destruct (Nat.eqb_spec (String.length digits) 10) as [Hlen|Hlen].
  - repeat split; try done. all: rewrite ?app_cons, ?app_nil_l; cbn [String.length]; lia.
  - destruct (startsWith "91" digits) eqn:Hs; cbn [negb].
    + repeat split; try done; lia.
    + repeat split; try done. all: rewrite ?app_cons, ?app_nil_l; cbn [String.length]; lia.
Qed.

Lemma mapChars_length f s : String.length (mapChars f s) = String.length s.
Proof. induction s as [|c s IH]; [done|]. cbn [mapChars String.length]. by rewrite IH. Qed.

Lemma lower_idChar c : isIdChar (lower (if isAlnum c then c else "_"%char)) = true.
Proof.
  destruct c as [[] [] [] [] [] [] [] []]; reflexivity.
Qed.

(** X17.  The customer id made from an e-mail address is fit for the
    gateway: it has the length of the address and consists of lower-case
    letters, digits and underscores only, each letter and digit of the
    address in its place and every other character replaced by an
    underscore.  It is never empty. *)
Theorem customer_id_is_alphanumeric (email : string) (now : Z) :
  email ≠ EmptyString ->
  String.length (customerId email now) = String.length email
  ∧ allChars isIdChar (customerId email now) = true
  ∧ customerId email now ≠ EmptyString
  ∧ customerId email now
    = mapChars (λ c, lower (if isAlnum c then c else "_"%char)) email.
Proof.
  intros Hne. unfold customerId.
  assert (Hmap : mapChars lower (mapChars (λ c, if isAlnum c then c else "_"%char) email)
                 = mapChars (λ c, lower (if isAlnum c then c else "_"%char)) email).
  { clear. induction email as [|c s IH]; [done|]. cbn [mapChars]. by rewrite IH. }
  rewrite Hmap. destruct email as [|c s]; [done|]. cbn [mapChars isEmpty].
  repeat split; try done.
  - cbn [String.length]. by rewrite mapChars_length.
  - cbn [allChars]. rewrite lower_idChar. cbn [andb]. clear.
    induction s as [|c s IH]; [done|]. cbn [mapChars allChars]. by rewrite lower_idChar.
Qed.

Lemma X17_customer_of_an_address :
  customerId "Bob.Smith@x.io" 0 = "bob_smith_x_io".
Proof.
  destruct (customer_id_is_alphanumeric "Bob.Smith@x.io" 0) as (_ & _ & _ & ->); done.
Defined.

Lemma X16_ten_digits :
  formatPhone "98765 43210" = "919876543210".
Proof.
  destruct (phone_has_the_country_code "98765 43210") as (_ & _ & H & _).
  by rewrite H.
Defined.
End ServerMore.

(** ** scrape.js: the image of a card *)

Module CardsMore.
Import Js Text UrlText TextProps Cards.

Lemma urlSafe_spec c :
  urlSafe c = true -> isQuote c = false ∧ isLineTerm c = false ∧ Ascii.eqb c ")" = false.
Proof.
  unfold urlSafe. intros [[?%negb_true_iff ?%negb_true_iff]%andb_true_iff ?%negb_true_iff]%andb_true_iff.
  done.
Qed.

Lemma lazyUntilClose_found X q post :
  allChars urlSafe X = true ->
  q = EmptyString ∨ (∃ c, isQuote c = true ∧ q = String c EmptyString) ->
  lazyUntilClose (X +:+ q +:+ ")" +:+ post) = Some (X, post).
Proof.
  intros Hsafe Hq. induction X as [|x X IH].
  - rewrite app_nil_l. destruct Hq as [->|(c & Hc & ->)].
    + reflexivity.
    + change (String c EmptyString +:+ ")" +:+ post) with (String c (")" +:+ post)).
      cbn [lazyUntilClose]. rewrite Hc, (startsWith_app ")" post). reflexivity.
  - cbn [allChars] in Hsafe. apply andb_true_iff in Hsafe as [Hx Hsafe].
    apply urlSafe_spec in Hx as (Hq' & Hl & Hp).
    rewrite app_cons. cbn [lazyUntilClose]. rewrite Hq', Hp, Hl. cbn [andb].
    by rewrite (IH Hsafe).
Qed.

Lemma matchCssUrlAt_found X q post :
  allChars urlSafe X = true ->
  q = EmptyString ∨ (∃ c, isQuote c = true ∧ q = String c EmptyString) ->
  matchCssUrlAt ("url(" +:+ q +:+ X +:+ q +:+ ")" +:+ post) = Some (X, post).
Proof.
  intros Hsafe Hq. unfold matchCssUrlAt.
  change (stripPrefix "url(" ("url(" +:+ q +:+ X +:+ q +:+ ")" +:+ post))
    with (Some (q +:+ X +:+ q +:+ ")" +:+ post)).
  pose proof (lazyUntilClose_found X q post Hsafe Hq) as Hbody.
  destruct Hq as [->|(c & Hc & ->)].
  - rewrite !app_nil_l in *. destruct X as [|x Y].
    + reflexivity.
    + rewrite app_cons in *. cbv beta iota.
      cbn [allChars] in Hsafe. apply andb_true_iff in Hsafe as [Hx _].
      apply urlSafe_spec in Hx as (-> & _). exact Hbody.
  - change (String c EmptyString +:+ X +:+ String c EmptyString +:+ ")" +:+ post)
      with (String c (X +:+ String c EmptyString +:+ ")" +:+ post)).
    cbv beta iota. by rewrite Hc.
Qed.

Lemma matchCssUrlAt_none s : startsWith "url(" s = false -> matchCssUrlAt s = None.
Proof.
  unfold matchCssUrlAt, startsWith. intros H%bool_decide_eq_false.
  destruct (stripPrefix "url(" s); [|done]. destruct H. by eexists.
Qed.

Lemma unwrapUrl_plain s : includes "url(" s = false -> unwrapUrl s = s.
Proof.
  induction s as [|c s IH].
  - done.
  - cbn [includes]. intros [Hs Hrest]%orb_false_iff.
    cbn [unwrapUrl]. rewrite (matchCssUrlAt_none _ Hs). by rewrite IH.
Qed.


End CardsMore.

(* ===================================================================== *)
(** ** parseFullReport.js: headings, features, prices and fine print *)
(* ===================================================================== *)

Module ReportMore.
Import Js Dom Text TextProps UrlText TrimProps SnapshotMore FullReport ReportWords.

Lemma omap_length_le {A B} (f : A -> option B) l : length (omap f l) ≤ length l.
Proof. induction l as [|x l IH]; csimpl; [lia|]. destruct (f x); csimpl; lia. Qed.

Lemma featureOf_title cards p f :
  patternTitle p ≠ EmptyString -> featureOf cards p = Some f -> featureTitle f ≠ EmptyString.
Proof.
  intros Hp. unfold featureOf. destruct (List.find _ cards); [|done].
  intros [= <-]. cbn [featureTitle]. by apply orElse_nonempty.
Qed.

Lemma featurePatterns_titled p : p ∈ featurePatterns -> patternTitle p ≠ EmptyString.
Proof.
  unfold featurePatterns. rewrite !elem_of_cons, elem_of_nil.
  intros [-> | [-> | [-> | [-> | []]]]]; done.
Qed.

Lemma featuresOf_bounds doc :
  1 ≤ length (featuresOf doc) ≤ 4
  ∧ Forall (λ f, featureTitle f ≠ EmptyString) (featuresOf doc).
Proof.
  unfold featuresOf.
  set (fs := omap _ featurePatterns).
  assert (length fs ≤ 4) as Hlen by apply (omap_length_le _ featurePatterns).
  assert (Forall (λ f, featureTitle f ≠ EmptyString) fs) as Hall.
  { apply Forall_forall. intros f Hf.
    apply list_elem_of_omap in Hf as (p & Hp & Hf).
    eapply featureOf_title; [|exact Hf]. by apply featurePatterns_titled. }
  destruct (0 <? length fs) eqn:H0.
  - apply Nat.ltb_lt in H0. split; [lia|done].
  - split; [simpl; lia|]. repeat constructor; done.
Qed.

(** X19.  A report that is parsed is never blank: its heading and its
    call to action are not empty, and it lists between one and four
    features, each with a title.  No report comes back only for empty
    markup and for a document without a body. *)
Theorem report_is_never_blank (parse : string -> node) (html : string) :
  match parseFullReport parse html with
  | Some r =>
      heading r ≠ EmptyString ∧ cta r ≠ EmptyString
      ∧ 1 ≤ length (features r) ≤ 4
      ∧ Forall (λ f, featureTitle f ≠ EmptyString) (features r)
  | None => html = EmptyString ∨ body (parse html) = None
  end.
Proof.
  unfold parseFullReport. destruct html as [|c html]; [by left|].
  cbn [isEmpty]. destruct (body _); [|by right].
  cbn [heading cta features].
  split; [by apply orElse_nonempty|].
  split; [by apply orElse_nonempty|].
  apply featuresOf_bounds.
Qed.

(** *** Prices *)

Lemma allChars_app cls a b : allChars cls (a +:+ b) = allChars cls a && allChars cls b.
Proof.
  induction a as [|c a IH]; [by rewrite app_nil_l|].
  rewrite app_cons. cbn [allChars]. by rewrite IH, andb_assoc.
Qed.

Lemma allChars_weaken (cls cls' : ascii -> bool) s :
  (∀ c, cls c = true -> cls' c = true) -> allChars cls s = true -> allChars cls' s = true.
Proof.
  intros Hc. induction s as [|c s IH]; [done|]. cbn [allChars].
  intros [H1 H2]%andb_true_iff. by rewrite (Hc _ H1), IH.
Qed.

Lemma space_notDigit c : isSpace c = true -> notDigit c = true.
Proof. by destruct c as [[] [] [] [] [] [] [] []]. Qed.

Lemma digit_notSpace c : isDigit c = true -> isSpace c = false.
Proof. by destruct c as [[] [] [] [] [] [] [] []]. Qed.

Lemma firstNumber_skip a b : allChars notDigit a = true -> firstNumber (a +:+ b) = firstNumber b.
Proof.
  induction a as [|c a IH]; [by rewrite app_nil_l|].
  cbn [allChars]. intros [Hc Ha]%andb_true_iff. rewrite app_cons, <- (IH Ha).
  unfold firstNumber. cbn [span]. rewrite Hc. by destruct (span notDigit (a +:+ b)).
Qed.

Lemma firstNumber_digits s :
  (span isDigit s).1 ≠ EmptyString -> firstNumber s = (span isDigit s).1.
Proof.
  destruct s as [|c s]; [done|]. unfold firstNumber, notDigit. cbn [span].
  destruct (isDigit c) eqn:Hc; [|done]. intros _. cbn [negb snd span]. by rewrite Hc.
Qed.

Lemma isEmpty_false s : isEmpty s = false -> s ≠ EmptyString.
Proof. by destruct s. Qed.

Lemma amountAt_first s d : amountAt s = Some d -> d = firstNumber s.
Proof.
  unfold amountAt. destruct (span isDigit s) as [digits r] eqn:Hs.
  destruct (isEmpty digits) eqn:He; [done|].
  destruct (span isSpace r) as [w r1]. destruct (startsWithCi _ r1); [|done].
  intros [= <-]. rewrite firstNumber_digits; rewrite Hs; [done|]. by apply isEmpty_false.
Qed.

Lemma stripPrefixCi_from s r :
  stripPrefixCi "from" s = Some r ->
  ∃ a, s = a +:+ r ∧ allChars notDigit a = true.
Proof.
  destruct s as [|c1 [|c2 [|c3 [|c4 s]]]]; cbn [stripPrefixCi]; try done;
    repeat (match goal with |- context [ciEqb ?a ?b] => destruct (ciEqb a b) eqn:? end;
            try done).
  intros [= <-]. exists (String c1 (String c2 (String c3 (String c4 EmptyString)))).
  split; [done|]. cbn [allChars].
  assert (∀ a c, isDigit (lower a) = false -> ciEqb a c = true -> notDigit c = true) as Hl.
  { intros a c Ha [= Hac]%Ascii.eqb_eq. unfold notDigit.
    destruct (isDigit c) eqn:Hc; [|done].
    assert (lower c = c) as Hlow.
    { unfold lower, isUpper. unfold isDigit in Hc.
      apply andb_true_iff in Hc as [_ Hc%Nat.leb_le].
      destruct (65 <=? code c) eqn:H65; [apply Nat.leb_le in H65; lia|done]. }
    rewrite Hac, Hlow, Hc in Ha. done. }
  rewrite (Hl "f"%char c1), (Hl "r"%char c2), (Hl "o"%char c3), (Hl "m"%char c4); done.
Qed.

Lemma fromAmountAt_first s d : fromAmountAt s = Some d -> d = firstNumber s.
Proof.
  unfold fromAmountAt. destruct (stripPrefixCi "from" s) as [r|] eqn:Hr; [|done].
  apply stripPrefixCi_from in Hr as (a & -> & Ha).
  pose proof (span_split isSpace r) as Hsplit.
  pose proof (span_class isSpace r) as Hw.
  destruct (span isSpace r) as [w r1]. cbn [fst snd] in *.
  intros ->%amountAt_first. rewrite (firstNumber_skip a), Hsplit by done.
  rewrite firstNumber_skip; [done|]. eapply allChars_weaken; [apply space_notDigit|done].
Qed.

Lemma findFirst_first_number (f : string -> option string) pre X D :
  (∀ s d, f s = Some d -> d = firstNumber s) ->
  allChars notDigit pre = true -> firstNumber X = D -> f X = Some D ->
  findFirst f (pre +:+ X) = Some D.
Proof.
  intros Hf Hpre HX HfX. induction pre as [|c pre IH].
  - rewrite app_nil_l. by apply findFirst_here.
  - pose proof Hpre as [Hc Hp]%andb_true_iff.
    destruct (f (String c pre +:+ X)) as [d|] eqn:Hd.
    + apply findFirst_here. rewrite Hd. f_equal.
      rewrite (Hf _ _ Hd), firstNumber_skip; done.
    + rewrite app_cons in *. rewrite findFirst_skip by done. by apply IH.
Qed.

Lemma digits_stop (cls : ascii -> bool) digits rest :
  (∀ c, isDigit c = true -> cls c = false) ->
  digits ≠ EmptyString -> allChars isDigit digits = true ->
  stopsRun cls (digits +:+ rest) = true.
Proof.
  intros Hcls Hne Hd. destruct digits as [|c digits]; [done|].
  rewrite app_cons. cbn [stopsRun]. cbn [allChars] in Hd.
  apply andb_true_iff in Hd as [Hc _]. by rewrite (Hcls _ Hc).
Qed.

Lemma amountAt_found digits rest :
  digits ≠ EmptyString -> allChars isDigit digits = true ->
  amountAt (digits +:+ " USD" +:+ rest) = Some digits.
Proof.
  intros Hne Hd. unfold amountAt. rewrite (span_app isDigit digits) by done.
  destruct digits as [|c digits]; [done|]. cbn [isEmpty].
  change (" USD" +:+ rest) with (" " +:+ String "U" (String "S" (String "D" rest))).
  rewrite (span_app isSpace " ") by done. done.
Qed.

Lemma stripPrefixCi_app p s : stripPrefixCi p (p +:+ s) = Some s.
Proof.
  induction p as [|c p IH]; [by destruct s|].
  rewrite app_cons. cbn [stripPrefixCi]. unfold ciEqb. by rewrite Ascii.eqb_refl.
Qed.

Lemma fromAmountAt_found digits rest :
  digits ≠ EmptyString -> allChars isDigit digits = true ->
  fromAmountAt ("from " +:+ digits +:+ " USD" +:+ rest) = Some digits.
Proof.
  intros Hne Hd. unfold fromAmountAt.
  set (Y := digits +:+ " USD" +:+ rest).
  change ("from " +:+ Y) with ("from" +:+ " " +:+ Y).
  rewrite stripPrefixCi_app.
  rewrite (span_app isSpace " ");
    [by apply amountAt_found|done|by apply digits_stop; [apply digit_notSpace|..]].
Qed.

Lemma firstNumber_found digits rest :
  digits ≠ EmptyString -> allChars isDigit digits = true ->
  firstNumber (digits +:+ " USD" +:+ rest) = digits.
Proof.
  intros Hne Hd. rewrite firstNumber_digits; rewrite (span_app isDigit digits); done.
Qed.

(** X20.  The current price is the first amount of the text, the
    original price the first amount behind 'from'.  So when the text
    names the original price before any other number, as in 'from 1299
    USD', the report carries that number as the original and as the
    current price. *)
Theorem leading_original_price_is_the_current_price (pre digits rest : string) :
  allChars notDigit pre = true ->
  digits ≠ EmptyString -> allChars isDigit digits = true ->
  let p := pricingOf (pre +:+ "from " +:+ digits +:+ " USD" +:+ rest) in
  original p = ParseInt digits ∧ current p = ParseInt digits.
Proof.
  intros Hpre Hne Hd p. unfold p, pricingOf. cbn [original current]. split.
  - rewrite (findFirst_first_number fromAmountAt pre _ digits); [done|..].
    + apply fromAmountAt_first.
    + done.
    + rewrite (firstNumber_skip "from ") by done. by apply firstNumber_found.
    + by apply fromAmountAt_found.
  - rewrite <- app_assoc.
    rewrite (findFirst_first_number amountAt (pre +:+ "from ") _ digits); [done|..].
    + apply amountAt_first.
    + by rewrite allChars_app, Hpre.
    + by apply firstNumber_found.
    + by apply amountAt_found.
Qed.

Lemma X20_was_from :
  original (pricingOf "Was from 1299 USD, now 199 USD") = ParseInt "1299"
  ∧ current (pricingOf "Was from 1299 USD, now 199 USD") = ParseInt "1299".
Proof.
  exact (leading_original_price_is_the_current_price "Was " "1299" ", now 199 USD"
           eq_refl ltac:(done) eq_refl).
Defined.

(** *** The countdown *)

Lemma findFirst_Some_inv {A} (f : string -> option A) s a :
  findFirst f s = Some a -> ∃ pre suf, s = pre +:+ suf ∧ f suf = Some a.
Proof.
  induction s as [|c s IH]; cbn [findFirst].
  - destruct (f EmptyString) eqn:H; [|done]. intros [= ->]. by exists EmptyString, EmptyString.
  - destruct (f (String c s)) eqn:H.
    + intros [= ->]. by exists EmptyString, (String c s).
    + intros (pre & suf & -> & Hs)%IH. by exists (String c pre), suf.
Qed.

Lemma timerAt_shape s m x :
  timerAt s = Some (m, x) ->
  (String.length m = 1 ∨ String.length m = 2) ∧ String.length x = 2
  ∧ allChars isDigit m = true ∧ allChars isDigit x = true
  ∧ ∃ rest, s = m +:+ ":" +:+ x +:+ rest.
Proof.
  unfold timerAt. intros H.
  repeat (case_match; try done); injection H as <- <-; subst;
    repeat match goal with
           | H : _ && _ = true |- _ => apply andb_true_iff in H as [? ?]
           | H : Ascii.eqb _ _ = true |- _ => apply Ascii.eqb_eq in H as ->
           end;
    cbn [String.length allChars];
    (split; [auto|]); (split; [done|]);
    repeat match goal with
           | H : isDigit ?a = true |- context [isDigit ?a] => rewrite H
           end;
    (split; [done|]); (split; [done|]); eexists; reflexivity.
Qed.

(** X21.  The countdown of a report always reads as minutes and
    seconds: one or two digits, a colon, two digits.  It is either the
    default 14:59 or a piece of the page's text. *)
Theorem countdown_reads_as_minutes_and_seconds (priceText : string) :
  let c := countdown (pricingOf priceText) in
  (∃ m x, c = m +:+ ":" +:+ x
          ∧ 1 ≤ String.length m ≤ 2 ∧ String.length x = 2
          ∧ allChars isDigit m = true ∧ allChars isDigit x = true)
  ∧ (c = "14:59" ∨ includes c priceText = true).
Proof.
  intros c. unfold c, pricingOf. cbn [countdown].
  destruct (findFirst timerAt priceText) as [[m x]|] eqn:Hf.
  - apply findFirst_Some_inv in Hf as (pre & suf & -> & Hs).
    apply timerAt_shape in Hs as (Hm & Hx & Hdm & Hdx & rest & ->).
    split.
    + exists m, x. repeat split; try done; lia.
    + right.
      replace (m +:+ ":" +:+ x +:+ rest) with ((m +:+ ":" +:+ x) +:+ rest)
        by (by rewrite !app_assoc).
      apply includes_middle.
  - split; [|by left]. exists "14", "59". repeat split; simpl; lia.
Qed.

(** *** Bonus and guarantee *)

Lemma guaranteeAt_digits s d :
  guaranteeAt s = Some d -> d ≠ EmptyString ∧ allChars isDigit d = true.
Proof.
  unfold guaranteeAt. pose proof (span_class isDigit s) as Hd.
  destruct (span isDigit s) as [digits r]. cbn [fst] in Hd.
  destruct (isEmpty digits) eqn:He; [done|].
  intros H. assert (d = digits) as ->.
  { repeat (case_match; try done); by simplify_eq/=. }
  split; [by apply isEmpty_false|done].
Qed.

(** X22.  The guarantee of a report always reads as a number of days
    followed by '-Day Guarantee', whatever the wording of the page. *)
Theorem guarantee_reads_as_days (bodyText : string) :
  ∃ days, guaranteeOf bodyText = days +:+ "-Day Guarantee"
          ∧ days ≠ EmptyString ∧ allChars isDigit days = true.
Proof.
  unfold guaranteeOf. destruct (findFirst guaranteeAt bodyText) as [d|] eqn:Hf.
  - apply findFirst_Some_inv in Hf as (pre & suf & -> & Hs).
    apply guaranteeAt_digits in Hs as [? ?]. by exists d.
  - by exists "14".
Qed.

Lemma allChars_trimEnd cls s : allChars cls s = true -> allChars cls (trimEnd s) = true.
Proof.
  induction s as [|c s IH]; [done|]. cbn [allChars trimEnd].
  intros [Hc Hs]%andb_true_iff.
  destruct (isSpace c && isEmpty (trimEnd s)); [done|].
  cbn [allChars]. by rewrite Hc, IH.
Qed.

Lemma allChars_lastChar cls s : allChars cls s = true -> allChars cls (lastChar s) = true.
Proof.
  induction s as [|c s IH]; [done|]. cbn [allChars].
  intros [Hc Hs]%andb_true_iff. destruct s as [|c' s]; [cbn; by rewrite Hc|].
  by apply IH.
Qed.

Lemma space_notSentenceEnd c : isSpace c = true -> notSentenceEnd c = true.
Proof. by destruct c as [[] [] [] [] [] [] [] []]. Qed.

Lemma bonusAt_group s g : bonusAt s = Some g -> allChars notSentenceEnd g = true.
Proof.
  unfold bonusAt. destruct s as [|b r0]; [done|].
  destruct (_ || _); [|done]. destruct (stripPrefix "onus" r0) as [r|]; [|done].
  destruct (span notColon r) as [? r1]. destruct (stripPrefix ":" r1) as [r2|]; [|done].
  pose proof (span_class isSpace r2) as Hw.
  destruct (span isSpace r2) as [white r3].
  pose proof (span_class notSentenceEnd r3) as Hg.
  destruct (span notSentenceEnd r3) as [group ?]. cbn [fst] in *.
  destruct (isEmpty group); cbn [negb]; [|by intros [= <-]].
  destruct (isEmpty white); cbn [negb]; [done|]. intros [= <-].
  apply allChars_lastChar. eapply allChars_weaken; [apply space_notSentenceEnd|done].
Qed.

(** X23.  The bonus of a report is a piece of one sentence: it holds
    no full stop, exclamation mark or question mark, and no white space
    at its ends. *)
Theorem bonus_is_one_trimmed_phrase (bodyText : string) :
  allChars notSentenceEnd (bonusOf bodyText) = true ∧ trimmed (bonusOf bodyText).
Proof.
  unfold bonusOf. destruct (findFirst bonusAt bodyText) as [g|] eqn:Hf; [|done].
  apply findFirst_Some_inv in Hf as (pre & suf & -> & Hs%bonusAt_group).
  split; [|apply trim_trimmed].
  unfold trim. by apply allChars_trimEnd, allChars_trimStart.
Qed.

End ReportMore.
